(** * safedotenv: a shallow embedding of [main.go]

    The program encrypts every [.env] file of a directory tree to
    [.env-encrypted] (AES in CBC mode, PKCS#7 padding, PBKDF2 key) and
    decrypts them back.  Each Go function of [main.go] is embedded under
    its own name.  The operating system (files, directories, the random
    device, the log) is an explicit [World]; the AES permutation and the
    PBKDF2 function, which come from libraries, are section variables. *)

From Stdlib Require Import ZArith Lia.
From Stdlib Require Import Strings.Byte.
From Stdlib Require OrderedTypeEx.
From stdpp Require Import gmap strings list.

Open Scope Z_scope.

(** ** Go values *)

(** Go's [error] values that the program returns or receives. *)
Inductive error : Type :=
  | io_ErrUnexpectedEOF
  | aes_KeySizeError (n : Z)
  | fs_PathError (op path : string)
  | rand_Error.

(** How a call ends: it returns a value, it returns an [error], it
    panics, or it ends the process ([os.Exit], which [log.Fatal] calls). *)
Inductive result (A : Type) : Type :=
  | Ok (a : A)
  | Err (e : error)
  | Panic (msg : string)
  | Exit (code : Z).
Arguments Ok {A} a.
Arguments Err {A} e.
Arguments Panic {A} msg.
Arguments Exit {A} code.

(** Sequencing: anything but a value ends the caller the same way, which
    for an [error] is the program's [if err != nil { return err }]. *)
Definition result_bind {A B} (r : result A) (k : A -> result B) : result B :=
  match r with
  | Ok a => k a
  | Err e => Err e
  | Panic m => Panic m
  | Exit c => Exit c
  end.

(** [len(x)] as a Go [int]. *)
Definition len {A} (l : list A) : Z := Z.of_nat (length l).

(** Go's [int] is 64 bits wide; arithmetic wraps around. *)
Definition int_wrap (z : Z) : Z := (z + 2 ^ 63) mod 2 ^ 64 - 2 ^ 63.

(** [byte(n)]: conversion of an [int] to a byte keeps the low 8 bits. *)
Definition byte_of_int (z : Z) : byte :=
  match Byte.of_N (Z.to_N (z mod 256)) with
  | Some b => b
  | None => "000"%byte
  end.

(** [int(b)]. *)
Definition int_of_byte (b : byte) : Z := Z.of_N (Byte.to_N b).

(** The most bytes that the allocator of the Go runtime hands out for
    one object on a 64-bit machine ([maxAlloc], 48 bits of address). *)
Definition maxAlloc : Z := 2 ^ 48.

(** [bytes.Repeat(b, count)] for a one-byte [b]: it panics on a
    negative count, and the allocation of the result panics
    ([makeslice: len out of range]) when the count is beyond what the
    allocator hands out.  Below that limit the machine is taken to have
    the memory. *)
Definition bytes_Repeat (b : byte) (count : Z) : result (list byte) :=
  if count <? 0 then Panic "bytes: negative Repeat count"
  else if maxAlloc <? count
  then Panic "runtime error: makeslice: len out of range"
  else Ok (replicate (Z.to_nat count) b).

(** [data[:n]] for [n] up to the length of [data], which is all that
    the program asks for; out of range it panics. *)
Definition slice_to {A} (data : list A) (n : Z) : result (list A) :=
  if (n <? 0) || (len data <? n) then Panic "slice bounds out of range"
  else Ok (take (Z.to_nat n) data).

(** [data[n:]]. *)
Definition slice_from {A} (data : list A) (n : Z) : result (list A) :=
  if (n <? 0) || (len data <? n) then Panic "slice bounds out of range"
  else Ok (drop (Z.to_nat n) data).

(** ** PKCS#7 padding *)

Definition aes_BlockSize : Z := 16.

(** [pkcs7Pad]: [padLen := blockSize - len(data)%blockSize], then
    [padLen] copies of [byte(padLen)] are appended.  Go's [%] truncates
    towards zero ([Z.rem]) and panics on a zero divisor. *)
Definition pkcs7Pad (data : list byte) (blockSize : Z) : result (list byte) :=
  if blockSize =? 0 then Panic "integer divide by zero"
  else
    let padLen := int_wrap (blockSize - Z.rem (len data) blockSize) in
    result_bind (bytes_Repeat (byte_of_int padLen) padLen)
      (fun padding => Ok (data ++ padding)).

(** [pkcs7Unpad]: the last byte is the pad length; only its size is
    checked against the length of the data. *)
Definition pkcs7Unpad (data : list byte) : result (list byte) :=
  let length := len data in
  if length =? 0 then Err io_ErrUnexpectedEOF
  else
    let padLen := int_of_byte (List.last data "000"%byte) in
    if padLen >? length then Err io_ErrUnexpectedEOF
    else slice_to data (length - padLen).

(** The form that the padding scheme prescribes for padded data: the
    last byte [N] is between 1 and the block size 16, and the last [N]
    bytes all have the value [N]. *)
Definition pkcs7_wellformed (data : list byte) : bool :=
  let N := int_of_byte (List.last data "000"%byte) in
  (1 <=? N) && (N <=? 16) && (N <=? len data) &&
  forallb (fun b => int_of_byte b =? N) (drop (Z.to_nat (len data - N)) data).

(** The pad length that [pkcs7Pad] computes for the AES block size. *)
Definition padLen16 (data : list byte) : Z :=
  aes_BlockSize - Z.rem (len data) aes_BlockSize.

(** ** Bytes: exclusive or *)

(** [a ^ b] on bytes, bit by bit. *)
Definition byte_xor (a b : byte) : byte :=
  let '(a0, (a1, (a2, (a3, (a4, (a5, (a6, a7))))))) := Byte.to_bits a in
  let '(b0, (b1, (b2, (b3, (b4, (b5, (b6, b7))))))) := Byte.to_bits b in
  Byte.of_bits (xorb a0 b0, (xorb a1 b1, (xorb a2 b2, (xorb a3 b3,
               (xorb a4 b4, (xorb a5 b5, (xorb a6 b6, xorb a7 b7))))))).

(** [subtle.XORBytes(dst, x, y)]: the first [min(len(x), len(y))] bytes. *)
Definition subtle_XORBytes (x y : list byte) : list byte :=
  zip_with byte_xor x y.

(** ** [crypto/cipher]: blocks and CBC mode *)

(** The [cipher.Block] interface. *)
Record cipher_Block : Type := {
  BlockSize : Z;
  Encrypt : list byte -> list byte;
  Decrypt : list byte -> list byte
}.

(** A [cipher.BlockMode] made by [NewCBCEncrypter] or [NewCBCDecrypter]. *)
Record cipher_BlockMode : Type := {
  cbc_b : cipher_Block;
  cbc_iv : list byte
}.

Definition cipher_NewCBC (b : cipher_Block) (iv : list byte)
  : result cipher_BlockMode :=
  if len iv =? BlockSize b then Ok {| cbc_b := b; cbc_iv := iv |}
  else Panic "cipher.NewCBC: IV length must equal block size".

Definition cipher_NewCBCEncrypter := cipher_NewCBC.
Definition cipher_NewCBCDecrypter := cipher_NewCBC.

(** The loop of the encrypter's [CryptBlocks]: each block of [src] is
    xored with the previous ciphertext block (at first the IV) and
    encrypted; [n] counts the blocks left. *)
Fixpoint cbcEncrypt_loop (b : cipher_Block) (n : nat) (iv src : list byte)
  : list byte :=
  match n with
  | O => []
  | S n' =>
      let bs := Z.to_nat (BlockSize b) in
      let c := Encrypt b (subtle_XORBytes (take bs src) iv) in
      c ++ cbcEncrypt_loop b n' c (drop bs src)
  end.

(** The loop of the decrypter's [CryptBlocks]: each block is decrypted
    and xored with the previous ciphertext block (at first the IV).  Go
    takes the blocks from the last to the first, to be able to work in
    place; the blocks that it writes are these. *)
Fixpoint cbcDecrypt_loop (b : cipher_Block) (n : nat) (iv src : list byte)
  : list byte :=
  match n with
  | O => []
  | S n' =>
      let bs := Z.to_nat (BlockSize b) in
      let c := take bs src in
      subtle_XORBytes (Decrypt b c) iv ++ cbcDecrypt_loop b n' c (drop bs src)
  end.

(** [mode.CryptBlocks(dst, src)] with [dst := make([]byte, len(src))], as
    both callers have it; the result is the content of [dst]. *)
Definition CryptBlocks
    (loop : cipher_Block -> nat -> list byte -> list byte -> list byte)
    (mode : cipher_BlockMode) (src : list byte) : result (list byte) :=
  let bs := BlockSize (cbc_b mode) in
  if bs =? 0 then Panic "integer divide by zero"
  else if negb (Z.rem (len src) bs =? 0)
  then Panic "crypto/cipher: input not full blocks"
  else Ok (loop (cbc_b mode) (Z.to_nat (len src / bs)) (cbc_iv mode) src).

Definition cbcEncrypter_CryptBlocks := CryptBlocks cbcEncrypt_loop.
Definition cbcDecrypter_CryptBlocks := CryptBlocks cbcDecrypt_loop.

(** ** The operating system *)

(** The type bits of [fs.FileMode]: what kind of file an entry is.
    [ModeRegular] stands for no type bit at all, a regular file. *)
Inductive FileMode : Type :=
  | ModeRegular
  | ModeDir
  | ModeSymlink
  | ModeNamedPipe
  | ModeSocket
  | ModeDevice
  | ModeCharDevice
  | ModeIrregular.

(** An entry of a directory listing ([fs.DirEntry]): its name and its
    type.  A symbolic link is listed as a link, whatever it points to. *)
Record DirEntry : Type := {
  Name : string;
  Type_ : FileMode
}.

(** [file.IsDir()]. *)
Definition IsDir (file : DirEntry) : bool :=
  match Type_ file with
  | ModeDir => true
  | _ => false
  end.

(** [file.Type().IsRegular()], which the program never asks. *)
Definition IsRegular (file : DirEntry) : bool :=
  match Type_ file with
  | ModeRegular => true
  | _ => false
  end.

(** A line of the log. *)
Inductive log_entry : Type :=
  | log_Prompt
  | log_Key (key : list byte)
  | log_Paths (filePaths : list string)
  | log_Error (e : error)
  | log_Fatal (e : option error)
  | log_Done.

(** How [os.WriteFile] fails on a path: the file cannot be opened for
    writing ([fault_open]), or it is opened, which creates it or cuts it
    to no bytes, and after [n] bytes of the data the operation [op]
    ([write], [close]) fails ([fault_after]). *)
Inductive write_fault : Type :=
  | fault_open
  | fault_after (op : string) (n : nat).

(** What of the machine the program can see or change: the content of
    the files by path, the paths that cannot be opened for reading, the
    paths on which writing fails and how, the listing of every directory
    that can be read, the bytes the random device will deliver, the
    token [fmt.Scanln] will deliver from the terminal ([None]: the scan
    fails), and the log written so far.  Files and directories are known
    by the path that the program uses for them: one directory under two
    spellings is two directories here. *)
Record World : Type := {
  files : gmap string (list byte);
  unreadable : gset string;
  write_faults : gmap string write_fault;
  dirs : gmap string (list DirEntry);
  entropy : list byte;
  stdin : option string;
  log : list log_entry
}.

(** The paths that cannot be written: those on which [os.WriteFile]
    fails, in the one way or the other. *)
Definition unwritable (w : World) : gset string := dom (write_faults w).

Definition set_files (f : gmap string (list byte)) (w : World) : World :=
  {| files := f; unreadable := unreadable w; write_faults := write_faults w;
     dirs := dirs w; entropy := entropy w; stdin := stdin w; log := log w |}.

Definition set_dirs (d : gmap string (list DirEntry)) (w : World) : World :=
  {| files := files w; unreadable := unreadable w;
     write_faults := write_faults w;
     dirs := d; entropy := entropy w; stdin := stdin w; log := log w |}.

Definition set_entropy (e : list byte) (w : World) : World :=
  {| files := files w; unreadable := unreadable w;
     write_faults := write_faults w;
     dirs := dirs w; entropy := e; stdin := stdin w; log := log w |}.

Definition add_log (l : log_entry) (w : World) : World :=
  {| files := files w; unreadable := unreadable w;
     write_faults := write_faults w;
     dirs := dirs w; entropy := entropy w; stdin := stdin w;
     log := log w ++ [l] |}.

(** The path up to its last [/], if it has one, and the name after it. *)
Fixpoint path_split (path : string) : option string * string :=
  match path with
  | EmptyString => (None, EmptyString)
  | String c rest =>
      match path_split rest with
      | (Some d, name) => (Some (String c d), name)
      | (None, name) =>
          if String.eqb (String c EmptyString) "/" then (Some EmptyString, name)
          else (None, String c name)
      end
  end.

(** The directory that a path lies in: the path up to its last [/];
    the root for a path whose only [/] is the first character, the
    current directory for a path without [/]. *)
Definition path_dir (path : string) : string :=
  match (path_split path).1 with
  | Some EmptyString => "/"
  | Some d => d
  | None => "."
  end.

Definition path_base (path : string) : string := (path_split path).2.

(** [os.ReadDir] returns the entries sorted by name: a new entry goes
    before the first entry whose name is greater. *)
Fixpoint insert_entry (file : DirEntry) (entries : list DirEntry)
  : list DirEntry :=
  match entries with
  | [] => [file]
  | e :: rest =>
      if String.ltb (Name file) (Name e) then file :: e :: rest
      else e :: insert_entry file rest
  end.

Definition has_entry (name : string) (entries : list DirEntry) : bool :=
  existsb (fun e => String.eqb (Name e) name) entries.

(** What opening a path with [O_CREATE] does to the listings: if its
    directory can be listed and has no entry of that name, it gets one,
    for a regular file.  A directory that cannot be listed stays so. *)
Definition create_entry (path : string) (ds : gmap string (list DirEntry))
  : gmap string (list DirEntry) :=
  match ds !! path_dir path with
  | Some entries =>
      if has_entry (path_base path) entries then ds
      else <[path_dir path :=
               insert_entry {| Name := path_base path; Type_ := ModeRegular |}
                            entries]> ds
  | None => ds
  end.

(** The file at [path] is created if need be, and holds [data]. *)
Definition write_file (path : string) (data : list byte) (w : World) : World :=
  {| files := <[path := data]> (files w); unreadable := unreadable w;
     write_faults := write_faults w;
     dirs := create_entry path (dirs w);
     entropy := entropy w; stdin := stdin w; log := log w |}.

(** A computation in the world: the way it ends and the world it leaves. *)
Definition M (A : Type) : Type := World -> result A * World.

Definition ret {A} (a : A) : M A := fun w => (Ok a, w).

Definition lift {A} (r : result A) : M A := fun w => (r, w).

Definition bind {A B} (m : M A) (k : A -> M B) : M B :=
  fun w =>
    match m w with
    | (Ok a, w') => k a w'
    | (Err e, w') => (Err e, w')
    | (Panic msg, w') => (Panic msg, w')
    | (Exit c, w') => (Exit c, w')
    end.

Notation "'let*' x := m 'in' k" := (bind m (fun x => k))
  (at level 10, x name, m at level 100, k at level 200).

(** [os.ReadFile]. *)
Definition os_ReadFile (path : string) : M (list byte) :=
  fun w =>
    if decide (path ∈ unreadable w) then (Err (fs_PathError "open" path), w)
    else match files w !! path with
         | Some data => (Ok data, w)
         | None => (Err (fs_PathError "open" path), w)
         end.

(** [os.WriteFile(path, data, 0644)]: the file is opened with
    [O_WRONLY|O_CREATE|O_TRUNC], the data is written and the file is
    closed.  When the open fails nothing has changed; when the write or
    the close fails, the file exists and holds what was written until
    then. *)
Definition os_WriteFile (path : string) (data : list byte) : M unit :=
  fun w =>
    match write_faults w !! path with
    | Some fault_open => (Err (fs_PathError "open" path), w)
    | Some (fault_after op n) =>
        (Err (fs_PathError op path), write_file path (take n data) w)
    | None => (Ok tt, write_file path data w)
    end.

(** [os.ReadDir]. *)
Definition os_ReadDir (path : string) : M (list DirEntry) :=
  fun w =>
    match dirs w !! path with
    | Some entries => (Ok entries, w)
    | None => (Err (fs_PathError "open" path), w)
    end.

(** [iv := make([]byte, n)] followed by [rand.Read(iv)]. *)
Definition rand_Read (n : nat) : M (list byte) :=
  fun w =>
    if decide (n <= length (entropy w))%nat
    then (Ok (take n (entropy w)), set_entropy (drop n (entropy w)) w)
    else (Err rand_Error, w).

(** [log.Println]. *)
Definition log_Println (l : log_entry) : M unit :=
  fun w => (Ok tt, add_log l w).

(** [log.Fatal]: the line is logged and the process exits with status 1. *)
Definition log_Fatal_ {A} (e : option error) : M A :=
  fun w => (Exit 1, add_log (log_Fatal e) w).

(** [s[:n]] on a string. *)
Definition string_slice_to (s : string) (n : Z) : result string :=
  if (n <? 0) || (Z.of_nat (String.length s) <? n)
  then Panic "slice bounds out of range"
  else Ok (String.substring 0 (Z.to_nat n) s).

Definition SuffixEncrypted : string := "-encrypted".

(** ** Stand-ins to run the program on examples

    A toy block cipher (the block reversed and xored with the first byte
    of the key) and a toy key derivation (one byte repeated), in place of
    AES and PBKDF2, and the directory tree of the scan scenario. *)

Definition toy_encrypt (key b : list byte) : list byte :=
  (fun x => byte_xor x (List.hd "000"%byte key)) <$> rev b.

Definition toy_decrypt (key b : list byte) : list byte :=
  rev ((fun x => byte_xor x (List.hd "000"%byte key)) <$> b).

Definition toy_Key (password salt : list byte) (iter keyLen : Z) : list byte :=
  replicate (Z.to_nat keyLen) (byte_of_int (len password + len salt + iter)).

Definition scenario_dirs : gmap string (list DirEntry) :=
  {[ "a" := [ {| Name := ".env"; Type_ := ModeRegular |};
              {| Name := ".env-encrypted"; Type_ := ModeRegular |};
              {| Name := "b"; Type_ := ModeDir |};
              {| Name := "notes.txt"; Type_ := ModeRegular |} ];
     "a/b" := [ {| Name := ".env"; Type_ := ModeRegular |} ] ]}.

Definition scenario_world : World :=
  {| files := {[ "a/.env" := String.list_byte_of_string "TOKEN=abc";
                 "a/b/.env" := String.list_byte_of_string "0123456789abcdef";
                 "a/notes.txt" := String.list_byte_of_string "hello" ]};
     unreadable := ∅;
     write_faults := ∅;
     dirs := scenario_dirs;
     entropy := String.list_byte_of_string "fedcba9876543210FEDCBA9876543210";
     stdin := Some "hunter2";
     log := [] |}.

(** A key of 32 zero bytes, and the toy cipher under a key. *)
Definition zero_key : list byte := replicate 32 "000"%byte.

Definition toy_block (key : list byte) : cipher_Block :=
  {| BlockSize := aes_BlockSize;
     Encrypt := toy_encrypt key;
     Decrypt := toy_decrypt key |}.

(** A world whose only file holds 16 bytes: an IV and no ciphertext. *)
Definition iv_only_world : World :=
  {| files := {[ "a/.env-encrypted" := replicate 16 "000"%byte ]};
     unreadable := ∅; write_faults := ∅; dirs := ∅; entropy := [];
     stdin := None; log := [] |}.

(** A world in which the write of [b/.env-encrypted] fails after 20
    bytes. *)
Definition short_write_world : World :=
  {| files := {[ "a/.env" := String.list_byte_of_string "TOKEN=abc";
                 "b/.env" := String.list_byte_of_string "KEY=1" ]};
     unreadable := ∅;
     write_faults := {[ "b/.env-encrypted" := fault_after "write" 20 ]};
     dirs := {[ "a" := [ {| Name := ".env"; Type_ := ModeRegular |} ];
                "b" := [ {| Name := ".env"; Type_ := ModeRegular |} ] ]};
     entropy := String.list_byte_of_string "fedcba9876543210FEDCBA9876543210";
     stdin := None; log := [] |}.

(** A tree whose only entry is a symbolic link with the name [.env]. *)
Definition symlink_world : World :=
  {| files := {[ "target" := String.list_byte_of_string "TOKEN=abc" ]};
     unreadable := ∅; write_faults := ∅;
     dirs := {[ "a" := [ {| Name := ".env"; Type_ := ModeSymlink |} ] ]};
     entropy := []; stdin := None; log := [] |}.

(** A world whose only file is the envelope, under the toy cipher, of a
    block of 16 zero bytes, which does not end in a padding. *)
Definition zero_block_world : World :=
  {| files := {[ "a/.env-encrypted" :=
                   replicate 16 "001"%byte
                   ++ cbcEncrypt_loop (toy_block zero_key) 1
                        (replicate 16 "001"%byte) (replicate 16 "000"%byte) ]};
     unreadable := ∅; write_faults := ∅; dirs := ∅; entropy := [];
     stdin := None; log := [] |}.

(** A tree in which the directory [a/b] is listed in [a] but cannot be
    listed itself. *)
Definition broken_world : World :=
  {| files := {[ "a/.env" := String.list_byte_of_string "TOKEN=abc" ]};
     unreadable := ∅; write_faults := ∅;
     dirs := {[ "a" := [ {| Name := ".env"; Type_ := ModeRegular |};
                         {| Name := "b"; Type_ := ModeDir |} ] ]};
     entropy := []; stdin := Some "hunter2"; log := [] |}.

(** The scenario of the three files to decrypt: a well-formed envelope
    of [TOKEN=abc] under the toy cipher, an envelope cut to 5 bytes, and
    a file that cannot be read. *)
Definition isolation_paths : list string :=
  ["ok/.env-encrypted"; "cut/.env-encrypted"; "deny/.env-encrypted"].

Definition isolation_world : World :=
  {| files :=
       {[ "ok/.env-encrypted" :=
            replicate 16 "001"%byte
            ++ cbcEncrypt_loop (toy_block zero_key) 1 (replicate 16 "001"%byte)
                 (String.list_byte_of_string "TOKEN=abc"
                  ++ replicate 7 "007"%byte);
          "cut/.env-encrypted" := replicate 5 "001"%byte;
          "deny/.env-encrypted" := replicate 32 "001"%byte ]};
     unreadable := {[ "deny/.env-encrypted" ]};
     write_faults := ∅; dirs := ∅; entropy := [];
     stdin := None; log := [] |}.

(** A schedule for three goroutines in which the calls and the sends
    interleave with the loop that starts the goroutines. *)
Definition isolation_schedule : list nat :=
  [0; 1; 0; 2; 0; 0; 3; 1; 3; 2; 2; 1; 3; 0; 0; 0; 0; 0; 0]%nat.

(** A tree to decrypt: [r/.env-encrypted] is the envelope of
    [TOKEN=abc] under the toy cipher and the key that the toy derivation
    gives for the passphrase [hunter2], [r/s/.env-encrypted] is cut to 5
    bytes, and [r/t/.env-encrypted] is listed but cannot be opened. *)
Definition hunter2_key : list byte :=
  toy_Key (String.list_byte_of_string "hunter2")
          (String.list_byte_of_string "somesalt") 4096 32.

Definition decrypt_tree_world : World :=
  {| files :=
       {[ "r/.env-encrypted" :=
            replicate 16 "001"%byte
            ++ cbcEncrypt_loop (toy_block hunter2_key) 1
                 (replicate 16 "001"%byte)
                 (String.list_byte_of_string "TOKEN=abc"
                  ++ replicate 7 "007"%byte);
          "r/s/.env-encrypted" := replicate 5 "001"%byte ]};
     unreadable := ∅; write_faults := ∅;
     dirs := {[ "r" := [ {| Name := ".env-encrypted"; Type_ := ModeRegular |};
                         {| Name := "s"; Type_ := ModeDir |};
                         {| Name := "t"; Type_ := ModeDir |} ];
                "r/s" := [ {| Name := ".env-encrypted"; Type_ := ModeRegular |} ];
                "r/t" := [ {| Name := ".env-encrypted"; Type_ := ModeRegular |} ] ]};
     entropy := []; stdin := Some "hunter2"; log := [] |}.

(** ** The program *)

Section Program.

Set Default Proof Using "Type".
Set Proof Using Clear Unused.

(** [crypto/aes]: the AES permutation on one 16-byte block under a key,
    and its inverse. *)
Variable aes_encrypt aes_decrypt : list byte -> list byte -> list byte.

(** [pbkdf2.Key(password, salt, iter, keyLen, sha256.New)]. *)
Variable pbkdf2_Key : list byte -> list byte -> Z -> Z -> list byte.

(** The key sizes of AES-128, AES-192 and AES-256. *)
Definition aes_key_ok (key : list byte) : bool :=
  let k := len key in (k =? 16) || (k =? 24) || (k =? 32).

(** The [cipher.Block] of AES under a key. *)
Definition aes_block (key : list byte) : cipher_Block :=
  {| BlockSize := aes_BlockSize;
     Encrypt := aes_encrypt key;
     Decrypt := aes_decrypt key |}.

(** [aes.NewCipher]: the key must have 16, 24 or 32 bytes. *)
Definition aes_NewCipher (key : list byte) : result cipher_Block :=
  if aes_key_ok key then Ok (aes_block key)
  else Err (aes_KeySizeError (len key)).

Definition encryptFile (inputPath : string) (key : list byte) : M unit :=
  let* plaintext := os_ReadFile inputPath in
  let* block := lift (aes_NewCipher key) in
  let* iv := rand_Read (Z.to_nat aes_BlockSize) in
  let* padded := lift (pkcs7Pad plaintext aes_BlockSize) in
  let* mode := lift (cipher_NewCBCEncrypter block iv) in
  let* ciphertext := lift (cbcEncrypter_CryptBlocks mode padded) in
  let out := iv ++ ciphertext in
  os_WriteFile (inputPath +:+ SuffixEncrypted) out.

Definition decryptFile (inputPath : string) (key : list byte) : M unit :=
  let* data := os_ReadFile inputPath in
  if len data <? aes_BlockSize then lift (Err io_ErrUnexpectedEOF)
  else
    let* iv := lift (slice_to data aes_BlockSize) in
    let* ciphertext := lift (slice_from data aes_BlockSize) in
    let* block := lift (aes_NewCipher key) in
    if negb (Z.rem (len ciphertext) aes_BlockSize =? 0)
    then lift (Err io_ErrUnexpectedEOF)
    else
      let* mode := lift (cipher_NewCBCDecrypter block iv) in
      let* plaintext := lift (cbcDecrypter_CryptBlocks mode ciphertext) in
      let* unpadded := lift (pkcs7Unpad plaintext) in
      let* outputPath :=
        lift (string_slice_to inputPath
                (Z.of_nat (String.length inputPath)
                 - Z.of_nat (String.length SuffixEncrypted))) in
      os_WriteFile outputPath unpadded.

(** The ciphertext that [encryptFile] computes from a plaintext, and the
    data that [decryptFile] computes from the content of its input file
    before it removes the padding. *)
Definition ciphertext_of (key iv plaintext : list byte) : list byte :=
  let padded :=
    plaintext ++ replicate (Z.to_nat (padLen16 plaintext))
                           (byte_of_int (padLen16 plaintext)) in
  cbcEncrypt_loop (aes_block key) (Z.to_nat (len padded / 16)) iv padded.

Definition decrypted_of (key data : list byte) : list byte :=
  cbcDecrypt_loop (aes_block key) (Z.to_nat ((len data - 16) / 16))
                  (take 16 data) (drop 16 data).

(** The body of [for _, file := range files] in [getDotenvPaths]. *)
Definition scan_entry (currentDir : string) (encrypt : bool)
    (st : list string * list string) (file : DirEntry)
  : list string * list string :=
  let '(stack, filePaths) := st in
  if IsDir file then (stack ++ [currentDir +:+ "/" +:+ Name file], filePaths)
  else if String.eqb (Name file) ".env" && Bool.eqb encrypt true
  then (stack, filePaths ++ [currentDir +:+ "/" +:+ Name file])
  else if String.eqb (Name file) ".env-encrypted" && Bool.eqb encrypt false
  then (stack, filePaths ++ [currentDir +:+ "/" +:+ Name file])
  else (stack, filePaths).

(** [for len(stack) > 0] in [getDotenvPaths]; [fuel] bounds the number of
    directories read, [None] means that it did not suffice. *)
Fixpoint getDotenvPaths_loop (fuel : nat) (encrypt : bool)
    (stack filePaths : list string) (w : World)
  : option (result (list string) * World) :=
  match last stack with
  | None => Some (Ok filePaths, w)
  | Some currentDir =>
      match fuel with
      | O => None
      | S fuel' =>
          let stack := removelast stack in
          match os_ReadDir currentDir w with
          | (Ok files, w') =>
              let '(stack', filePaths') :=
                fold_left (scan_entry currentDir encrypt) files
                          (stack, filePaths) in
              getDotenvPaths_loop fuel' encrypt stack' filePaths' w'
          | (Err e, w') => Some (log_Fatal_ (Some e) w')
          | (Panic m, w') => Some (Panic m, w')
          | (Exit c, w') => Some (Exit c, w')
          end
      end
  end.

Definition getDotenvPaths (fuel : nat) (folder : string) (encrypt : bool)
    (w : World) : option (result (list string) * World) :=
  match getDotenvPaths_loop fuel encrypt [folder] [] w with
  | Some (Ok filePaths, w') =>
      Some (Ok filePaths, add_log (log_Paths filePaths) w')
  | r => r
  end.

(** The constants of the key derivation. *)
Definition salt : list byte := String.list_byte_of_string "somesalt".
Definition iterations : Z := 4096.
Definition keyLen : Z := 32.

(** The derivation of the AES key from the passphrase, the last part of
    [getPassphrase]. *)
Definition deriveKey (passphrase : string) : list byte :=
  pbkdf2_Key (String.list_byte_of_string passphrase) salt iterations keyLen.

Definition getPassphrase : M (list byte) :=
  let* _ := log_Println log_Prompt in
  fun w =>
    match stdin w with
    | None => log_Fatal_ None w
    | Some passphrase =>
        (let key := deriveKey passphrase in
         let* _ := log_Println (log_Key key) in
         ret key) w
    end.

(** *** What the scan is to find *)

(** The name that is looked for: [.env] when encrypting, [.env-encrypted]
    when decrypting. *)
Definition marker (encrypt : bool) : string :=
  if encrypt then ".env" else ".env-encrypted".

(** [below w folder d]: the path [d] is [folder] or is reached from it
    through entries that are directories, one listing after the other. *)
Inductive below (w : World) : string -> string -> Prop :=
  | below_here folder : below w folder folder
  | below_sub folder entries file d :
      dirs w !! folder = Some entries ->
      file ∈ entries -> IsDir file = true ->
      below w (folder +:+ "/" +:+ Name file) d ->
      below w folder d.

(** [candidate w folder encrypt path]: [path] names an entry that is not
    a directory, has the marker name, and is listed in a directory below
    [folder]. *)
Definition candidate (w : World) (folder : string) (encrypt : bool)
    (path : string) : Prop :=
  exists d entries file,
    below w folder d /\ dirs w !! d = Some entries /\ file ∈ entries /\
    IsDir file = false /\ Name file = marker encrypt /\
    path = d +:+ "/" +:+ Name file.

(** The entries of a listing that the scan pushes and those it collects. *)
Definition subdirs (currentDir : string) (files : list DirEntry)
  : list string :=
  (fun file => currentDir +:+ "/" +:+ Name file)
    <$> filter (fun file => IsDir file = true) files.

Definition found (currentDir : string) (encrypt : bool) (files : list DirEntry)
  : list string :=
  (fun file => currentDir +:+ "/" +:+ Name file)
    <$> filter (fun file => IsDir file = false /\ Name file = marker encrypt)
               files.

(** What holds of the stack and of the paths collected so far, each time
    the scan of [folder] is at the head of its loop: the stack holds
    directories below [folder]; the paths collected are candidates; every
    candidate is collected or lies below a directory of the stack; every
    directory below [folder] has been listed or lies below a directory of
    the stack. *)
Definition scan_inv (w : World) (folder : string) (encrypt : bool)
    (stack filePaths : list string) : Prop :=
  (forall s, s ∈ stack -> below w folder s) /\
  (forall p, p ∈ filePaths -> candidate w folder encrypt p) /\
  (forall p, candidate w folder encrypt p ->
             p ∈ filePaths \/
             exists s, s ∈ stack /\ candidate w s encrypt p) /\
  (forall d, below w folder d ->
             is_Some (dirs w !! d) \/ exists s, s ∈ stack /\ below w s d).

(** The length of the longest path that has a listing. *)
Definition path_bound (w : World) : nat :=
  max_list (String.length <$> elements (dom (dirs w))).

(** [runs_through w encrypt cs]: with the directories [cs] on top of any
    stack, the loop, given enough fuel, either exits or gets back to the
    rest of the stack. *)
Definition runs_through (w : World) (encrypt : bool) (cs : list string)
  : Prop :=
  forall rest filePaths,
  exists fuel,
    (exists w', forall m,
        getDotenvPaths_loop (fuel + m) encrypt (rest ++ cs) filePaths w
        = Some (Exit 1, w'))
    \/ (exists filePaths', forall m,
           getDotenvPaths_loop (fuel + m) encrypt (rest ++ cs) filePaths w
           = getDotenvPaths_loop m encrypt rest filePaths' w).

(** *** The batch

    [processDotenvFiles] starts one goroutine per path.  A goroutine
    calls [encryptFile] or [decryptFile], sends the error on the channel
    and, by its [defer], calls [wg.Done()].  The function itself, after
    the loop that starts the goroutines, waits for the counter of the
    [WaitGroup] to be zero, closes the channel and logs the errors that
    it receives.  The goroutines and the function run interleaved: a
    schedule tells who takes the next step, and a call of [encryptFile]
    or of [decryptFile] is one step.  A goroutine whose call panics
    still runs its deferred [wg.Done()] before the runtime ends the
    process, and until then the others go on. *)

(** Where a goroutine is, with its local variables [filePath] and [err]:
    before its call, before the send, before the deferred [wg.Done()],
    at its end; or, when the call has panicked with [msg], before the
    deferred [wg.Done()], and then before the runtime ends the process. *)
Inductive goroutine : Type :=
  | g_call (filePath : string)
  | g_send (filePath : string) (err : option error)
  | g_done (filePath : string) (err : option error)
  | g_exited (filePath : string) (err : option error)
  | g_panicking (filePath : string) (msg : string)
  | g_dying (filePath : string) (msg : string).

(** Where [processDotenvFiles] itself is: in the loop over the paths
    that are left, at [wg.Wait()], at [close(channel)], in the loop over
    the channel, or at its end. *)
Inductive batch_pc : Type :=
  | pc_spawn (rest : list string)
  | pc_wait
  | pc_close
  | pc_range
  | pc_return.

Record batch : Type := {
  pc : batch_pc;
  wg : Z;
  chan_cap : nat;
  channel : list (option error);
  closed : bool;
  goroutines : list goroutine;
  world : World;
  crashed : option string
}.

Definition batch_init (filePaths : list string) (w : World) : batch :=
  {| pc := pc_spawn filePaths; wg := 0; chan_cap := length filePaths;
     channel := []; closed := false; goroutines := []; world := w;
     crashed := None |}.

(** A step of [processDotenvFiles] itself; [None]: it is blocked or done. *)
Definition main_step (s : batch) : option batch :=
  match pc s with
  | pc_spawn (filePath :: rest) =>
      Some {| pc := pc_spawn rest; wg := wg s + 1; chan_cap := chan_cap s;
              channel := channel s; closed := closed s;
              goroutines := goroutines s ++ [g_call filePath];
              world := world s; crashed := crashed s |}
  | pc_spawn [] =>
      Some {| pc := pc_wait; wg := wg s; chan_cap := chan_cap s;
              channel := channel s; closed := closed s;
              goroutines := goroutines s; world := world s;
              crashed := crashed s |}
  | pc_wait =>
      if wg s =? 0
      then Some {| pc := pc_close; wg := wg s; chan_cap := chan_cap s;
                   channel := channel s; closed := closed s;
                   goroutines := goroutines s; world := world s;
                   crashed := crashed s |}
      else None
  | pc_close =>
      Some {| pc := pc_range; wg := wg s; chan_cap := chan_cap s;
              channel := channel s; closed := true;
              goroutines := goroutines s; world := world s;
              crashed := crashed s |}
  | pc_range =>
      match channel s with
      | err :: rest =>
          Some {| pc := pc_range; wg := wg s; chan_cap := chan_cap s;
                  channel := rest; closed := closed s;
                  goroutines := goroutines s;
                  world := match err with
                           | Some e => add_log (log_Error e) (world s)
                           | None => world s
                           end;
                  crashed := crashed s |}
      | [] =>
          if closed s
          then Some {| pc := pc_return; wg := wg s; chan_cap := chan_cap s;
                       channel := channel s; closed := closed s;
                       goroutines := goroutines s; world := world s;
                       crashed := crashed s |}
          else None
      end
  | pc_return => None
  end.

(** A step of the goroutine number [i]. *)
Definition goroutine_step (encrypt : bool) (key : list byte) (i : nat)
    (s : batch) : option batch :=
  match goroutines s !! i with
  | Some (g_call filePath) =>
      match (if encrypt then encryptFile filePath key
             else decryptFile filePath key) (world s) with
      | (Ok _, w') =>
          Some {| pc := pc s; wg := wg s; chan_cap := chan_cap s;
                  channel := channel s; closed := closed s;
                  goroutines := <[i := g_send filePath None]> (goroutines s);
                  world := w'; crashed := crashed s |}
      | (Err e, w') =>
          Some {| pc := pc s; wg := wg s; chan_cap := chan_cap s;
                  channel := channel s; closed := closed s;
                  goroutines := <[i := g_send filePath (Some e)]> (goroutines s);
                  world := w'; crashed := crashed s |}
      | (Panic msg, w') =>
          Some {| pc := pc s; wg := wg s; chan_cap := chan_cap s;
                  channel := channel s; closed := closed s;
                  goroutines := <[i := g_panicking filePath msg]> (goroutines s);
                  world := w'; crashed := crashed s |}
      | (Exit c, w') =>
          Some {| pc := pc s; wg := wg s; chan_cap := chan_cap s;
                  channel := channel s; closed := closed s;
                  goroutines := goroutines s;
                  world := w'; crashed := Some "exit" |}
      end
  | Some (g_send filePath err) =>
      if closed s
      then Some {| pc := pc s; wg := wg s; chan_cap := chan_cap s;
                   channel := channel s; closed := closed s;
                   goroutines := goroutines s; world := world s;
                   crashed := Some "send on closed channel" |}
      else if decide (length (channel s) < chan_cap s)%nat
      then Some {| pc := pc s; wg := wg s; chan_cap := chan_cap s;
                   channel := channel s ++ [err]; closed := closed s;
                   goroutines := <[i := g_done filePath err]> (goroutines s);
                   world := world s; crashed := crashed s |}
      else None
  | Some (g_done filePath err) =>
      if wg s - 1 <? 0
      then Some {| pc := pc s; wg := wg s; chan_cap := chan_cap s;
                   channel := channel s; closed := closed s;
                   goroutines := goroutines s; world := world s;
                   crashed := Some "sync: negative WaitGroup counter" |}
      else Some {| pc := pc s; wg := wg s - 1; chan_cap := chan_cap s;
                   channel := channel s; closed := closed s;
                   goroutines := <[i := g_exited filePath err]> (goroutines s);
                   world := world s; crashed := crashed s |}
  | Some (g_exited _ _) => None
  | Some (g_panicking filePath msg) =>
      if wg s - 1 <? 0
      then Some {| pc := pc s; wg := wg s; chan_cap := chan_cap s;
                   channel := channel s; closed := closed s;
                   goroutines := goroutines s; world := world s;
                   crashed := Some "sync: negative WaitGroup counter" |}
      else Some {| pc := pc s; wg := wg s - 1; chan_cap := chan_cap s;
                   channel := channel s; closed := closed s;
                   goroutines := <[i := g_dying filePath msg]> (goroutines s);
                   world := world s; crashed := crashed s |}
  | Some (g_dying filePath msg) =>
      Some {| pc := pc s; wg := wg s; chan_cap := chan_cap s;
              channel := channel s; closed := closed s;
              goroutines := goroutines s; world := world s;
              crashed := Some msg |}
  | None => None
  end.

(** The step of whom the schedule names: [0] is [processDotenvFiles]
    itself, [S i] the goroutine number [i].  Nobody moves once the
    process has crashed. *)
Definition batch_step (encrypt : bool) (key : list byte) (who : nat)
    (s : batch) : option batch :=
  match crashed s with
  | Some _ => None
  | None =>
      match who with
      | O => main_step s
      | S i => goroutine_step encrypt key i s
      end
  end.

(** A run along a schedule; [None]: the schedule names somebody who
    cannot move. *)
Fixpoint batch_run (encrypt : bool) (key : list byte) (sched : list nat)
    (s : batch) : option batch :=
  match sched with
  | [] => Some s
  | who :: sched' =>
      match batch_step encrypt key who s with
      | Some s' => batch_run encrypt key sched' s'
      | None => None
      end
  end.

(** [processDotenvFiles] along a schedule that runs it to its end. *)
Definition processDotenvFiles (sched : list nat) (filePaths : list string)
    (encrypt : bool) (key : list byte) (w : World)
  : option (result unit * World) :=
  match batch_run encrypt key sched (batch_init filePaths w) with
  | Some s =>
      match crashed s, pc s with
      | Some msg, _ => Some (Panic msg, world s)
      | None, pc_return => Some (Ok tt, world s)
      | None, _ => None
      end
  | None => None
  end.

(** [main], after the flags [encrypt] and [folder] have been parsed. *)
Definition main (fuel : nat) (sched : list nat) (encrypt : bool)
    (folder : string) (w : World) : option (result unit * World) :=
  match getPassphrase w with
  | (Ok key, w1) =>
      match getDotenvPaths fuel folder encrypt w1 with
      | Some (Ok filePaths, w2) =>
          match processDotenvFiles sched filePaths encrypt key w2 with
          | Some (Ok _, w3) => Some (log_Println log_Done w3)
          | r => r
          end
      | Some (Err e, w2) => Some (Err e, w2)
      | Some (Panic msg, w2) => Some (Panic msg, w2)
      | Some (Exit c, w2) => Some (Exit c, w2)
      | None => None
      end
  | (Err e, w1) => Some (Err e, w1)
  | (Panic msg, w1) => Some (Panic msg, w1)
  | (Exit c, w1) => Some (Exit c, w1)
  end.

(** *** What holds during a batch *)

Definition g_path (g : goroutine) : string :=
  match g with
  | g_call p | g_send p _ | g_done p _ | g_exited p _
  | g_panicking p _ | g_dying p _ => p
  end.

(** The error that a goroutine has got from its call, once it has one. *)
Definition g_err (g : goroutine) : option error :=
  match g with
  | g_send _ e | g_done _ e | g_exited _ e => e
  | _ => None
  end.

(** 1 for a goroutine whose call has panicked. *)
Definition g_sick (g : goroutine) : nat :=
  match g with
  | g_panicking _ _ | g_dying _ _ => 1
  | _ => 0
  end.

(** What a goroutine has sent on the channel, once it has sent. *)
Definition g_sent (g : goroutine) : option (option error) :=
  match g with
  | g_done _ e | g_exited _ e => Some e
  | _ => None
  end.

(** 1 for a goroutine that has not called [wg.Done()] yet. *)
Definition g_live (g : goroutine) : nat :=
  match g with
  | g_exited _ _ | g_dying _ _ => 0
  | _ => 1
  end.

Definition pc_rest (p : batch_pc) : list string :=
  match p with
  | pc_spawn rest => rest
  | _ => []
  end.

(** The number of steps that are left. *)
Definition g_measure (g : goroutine) : nat :=
  match g with
  | g_call _ => 4
  | g_send _ _ => 3
  | g_done _ _ => 1
  | g_exited _ _ => 0
  | g_panicking _ _ => 2
  | g_dying _ _ => 1
  end.

Definition pc_measure (p : batch_pc) : nat :=
  match p with
  | pc_spawn rest => 5 * length rest + 4
  | pc_wait => 3
  | pc_close => 2
  | pc_range => 1
  | pc_return => 0
  end.

Definition batch_measure (s : batch) : nat :=
  pc_measure (pc s) + sum_list (g_measure <$> goroutines s)
  + length (channel s).

(** [processDotenvFiles] has passed [wg.Wait()]. *)
Definition past_wait (p : batch_pc) : bool :=
  match p with
  | pc_close | pc_range | pc_return => true
  | _ => false
  end.

(** [processDotenvFiles] is in, or past, the loop that logs the errors. *)
Definition reporting (p : batch_pc) : bool :=
  match p with
  | pc_range | pc_return => true
  | _ => false
  end.

(** The invariant of a batch over [filePaths] that started in [w0], as
    long as no call panics. *)
Definition batch_inv (filePaths : list string) (w0 : World) (s : batch) : Prop :=
  crashed s = None /\
  chan_cap s = length filePaths /\
  (g_path <$> goroutines s) ++ pc_rest (pc s) = filePaths /\
  wg s = Z.of_nat (sum_list (g_live <$> goroutines s)) /\
  (exists received,
      log (world s) = log w0 ++ (log_Error <$> omap id received) /\
      received ++ channel s ≡ₚ omap g_sent (goroutines s) /\
      (reporting (pc s) = false -> received = [])) /\
  (past_wait (pc s) = true -> wg s = 0) /\
  closed s = reporting (pc s) /\
  (pc s = pc_return -> channel s = []) /\
  sum_list (g_sick <$> goroutines s) = 0%nat.

(** *** The recursive walk, to compare the scan with

    The depth-first walk by recursion: the matches of a directory in the
    order of its listing, then what the walk finds in its
    subdirectories, taken from the last listed to the first.  [depth]
    bounds the nesting; [None]: it did not suffice, or a directory
    cannot be listed. *)
Fixpoint walk (depth : nat) (w : World) (encrypt : bool) (d : string)
  : option (list string) :=
  match depth with
  | O => None
  | S depth' =>
      match dirs w !! d with
      | None => None
      | Some files =>
          match mapM (walk depth' w encrypt) (rev (subdirs d files)) with
          | Some deeper => Some (found d encrypt files ++ concat deeper)
          | None => None
          end
      end
  end.

(** *** What a batch keeps

    The path that [decryptFile] writes to,
    [inputPath[:len(inputPath)-len(SuffixEncrypted)]]. *)
Definition decrypted_path (inputPath : string) : string :=
  String.substring 0 (String.length inputPath - 10) inputPath.

(** The error value of a result, if it is one. *)
Definition error_of {A} (r : result A) : option error :=
  match r with
  | Err e => Some e
  | _ => None
  end.

(** The goroutine has made its call of [encryptFile] or [decryptFile]. *)
Definition g_called (g : goroutine) : bool :=
  match g with
  | g_call _ => false
  | _ => true
  end.

(** The world after [written] was written to [path], if anything was. *)
Definition written_to (path : string) (written : option (list byte))
    (w : World) : World :=
  match written with
  | Some content => write_file path content w
  | None => w
  end.

(** The listings that a call on [p] leaves, made in [w0] but with the
    listings [ds]. *)
Definition dirs_after (call : string -> M unit) (w0 : World) (p : string)
    (ds : gmap string (list DirEntry)) : gmap string (list DirEntry) :=
  dirs (call p (set_dirs ds w0)).2.

(** The listings that the calls made so far leave when they are made one
    after the other, from the last goroutine to the first. *)
Definition dirs_of_calls (call : string -> M unit) (w0 : World)
    (gs : list goroutine) : gmap string (list DirEntry) :=
  foldr (fun g ds => if g_called g then dirs_after call w0 (g_path g) ds
                     else ds)
        (dirs w0) gs.

(** Where a batch of decryptions that started in [w0] stands: a
    goroutine that has made its call has the error, and has left the
    output, of the same call made in [w0]; the other files are those of
    [w0]; the listings are those that the calls leave when made one
    after the other. *)
Definition decrypt_inv (key : list byte) (w0 : World) (s : batch) : Prop :=
  unreadable (world s) = unreadable w0 /\
  write_faults (world s) = write_faults w0 /\
  entropy (world s) = entropy w0 /\
  stdin (world s) = stdin w0 /\
  dirs (world s)
  = dirs_of_calls (fun p => decryptFile p key) w0 (goroutines s) /\
  (forall g, g ∈ goroutines s -> g_called g = true ->
             g_err g = error_of (decryptFile (g_path g) key w0).1 /\
             files (world s) !! decrypted_path (g_path g) =
             files (decryptFile (g_path g) key w0).2
               !! decrypted_path (g_path g)) /\
  (forall q, files (world s) !! q = files w0 !! q \/
             exists g, g ∈ goroutines s /\ g_called g = true /\
                       decrypted_path (g_path g) = q).

(** *** What a batch of encryptions keeps *)

(** 1 for a goroutine that has not made its call yet. *)
Definition g_uncalled (g : goroutine) : nat :=
  match g with
  | g_call _ => 1
  | _ => 0
  end.

(** The sixteen random bytes number [k] of a world, counted from 0. *)
Definition iv_chunk (k : nat) (w : World) : list byte :=
  take 16 (drop (16 * k) (entropy w)).

(** The world in which the random bytes before number [16 * k] have
    been read. *)
Definition at_chunk (k : nat) (w : World) : World :=
  set_entropy (drop (16 * k) (entropy w)) w.

(** A call of [encryptFile] on [p] gets to [rand.Read]. *)
Definition reads_random (key : list byte) (w : World) (p : string) : Prop :=
  (p ∉ unreadable w) /\ is_Some (files w !! p) /\ aes_key_ok key = true.

(** Where a batch of encryptions over [filePaths] that started in [w0]
    stands once [m] calls have read their random bytes: there are
    enough random bytes left for the calls to come; a goroutine that has
    made its call has the error of the same call made in [w0], and has
    left the output of the same call made in [w0] with the random bytes
    number [chunk p], which no other goroutine has read; the other
    files are those of [w0]; the listings are those that the calls
    leave when made one after the other. *)
Definition encrypt_inv (key : list byte) (filePaths : list string)
    (w0 : World) (m : nat) (chunk : string -> nat) (s : batch) : Prop :=
  unreadable (world s) = unreadable w0 /\
  write_faults (world s) = write_faults w0 /\
  dirs (world s)
  = dirs_of_calls (fun p => encryptFile p key) w0 (goroutines s) /\
  stdin (world s) = stdin w0 /\
  entropy (world s) = drop (16 * m) (entropy w0) /\
  (m + sum_list (g_uncalled <$> goroutines s) + length (pc_rest (pc s))
   <= length filePaths)%nat /\
  (forall g, g ∈ goroutines s -> g_called g = true ->
             let p := g_path g in
             g_err g = error_of (encryptFile p key w0).1 /\
             (reads_random key w0 p -> (chunk p < m)%nat) /\
             files (world s) !! (p +:+ SuffixEncrypted) =
             files (encryptFile p key (at_chunk (chunk p) w0)).2
               !! (p +:+ SuffixEncrypted)) /\
  (forall g g', g ∈ goroutines s -> g' ∈ goroutines s ->
                g_called g = true -> g_called g' = true ->
                reads_random key w0 (g_path g) ->
                reads_random key w0 (g_path g') ->
                chunk (g_path g) = chunk (g_path g') ->
                g_path g = g_path g') /\
  (forall q, files (world s) !! q = files w0 !! q \/
             exists g, g ∈ goroutines s /\ g_called g = true /\
                       g_path g +:+ SuffixEncrypted = q).

(** What is assumed of AES: on a 16-byte block both directions give a
    16-byte block, and decryption undoes encryption under the same key. *)
Hypothesis aes_encrypt_length :
  forall key b, length b = 16%nat -> length (aes_encrypt key b) = 16%nat.
Hypothesis aes_decrypt_length :
  forall key b, length b = 16%nat -> length (aes_decrypt key b) = 16%nat.
Hypothesis aes_decrypt_encrypt :
  forall key b, length b = 16%nat -> aes_decrypt key (aes_encrypt key b) = b.

(** What is assumed of PBKDF2: the key has the length that was asked for. *)
Hypothesis pbkdf2_Key_length :
  forall password salt iter keyLen,
    0 <= keyLen -> len (pbkdf2_Key password salt iter keyLen) = keyLen.

(** ** Facts on bytes and slices *)

Lemma int_of_byte_range b : 0 <= int_of_byte b <= 255.
Proof.
  unfold int_of_byte. pose proof (Byte.to_N_bounded b). lia.
Qed.

Lemma int_of_byte_of_int z : int_of_byte (byte_of_int z) = z mod 256.
Proof.
  unfold int_of_byte, byte_of_int.
  assert (Hz : 0 <= z mod 256 < 256) by (apply Z.mod_pos_bound; lia).
  destruct (Byte.of_N (Z.to_N (z mod 256))) as [b|] eqn:E.
  - apply Byte.to_of_N in E. rewrite E. lia.
  - apply Byte.of_N_None_iff in E. lia.
Qed.

Lemma byte_of_int_of_byte b : byte_of_int (int_of_byte b) = b.
Proof.
  unfold int_of_byte, byte_of_int.
  pose proof (Byte.to_N_bounded b) as Hb.
  rewrite Z.mod_small by lia.
  rewrite N2Z.id, Byte.of_to_N. reflexivity.
Qed.

Lemma int_wrap_small z : - 2 ^ 63 <= z < 2 ^ 63 -> int_wrap z = z.
Proof.
  intros Hz. unfold int_wrap. rewrite Z.mod_small; lia.
Qed.

Lemma len_app {A} (l k : list A) : len (l ++ k) = len l + len k.
Proof. unfold len. rewrite length_app. lia. Qed.

Lemma len_nonneg {A} (l : list A) : 0 <= len l.
Proof. unfold len. lia. Qed.

Lemma len_replicate {A} n (x : A) : len (replicate n x) = Z.of_nat n.
Proof. unfold len. by rewrite length_replicate. Qed.

Lemma padLen16_range data : 1 <= padLen16 data <= 16.
Proof.
  unfold padLen16, aes_BlockSize.
  pose proof (len_nonneg data).
  pose proof (Z.rem_bound_pos (len data) 16). lia.
Qed.

Lemma pkcs7Pad_16 data :
  pkcs7Pad data aes_BlockSize =
  Ok (data ++ replicate (Z.to_nat (padLen16 data)) (byte_of_int (padLen16 data))).
Proof.
  unfold pkcs7Pad. fold (padLen16 data). simpl (aes_BlockSize =? 0).
  pose proof (padLen16_range data) as Hr.
  rewrite int_wrap_small by lia.
  unfold bytes_Repeat, maxAlloc.
  destruct (padLen16 data <? 0) eqn:E; [lia|].
  destruct (2 ^ 48 <? padLen16 data) eqn:E'; [lia | reflexivity].
Qed.

Lemma pkcs7Unpad_spec data :
  pkcs7Unpad data =
  if decide (data = [] \/ len data < int_of_byte (List.last data "000"%byte))
  then Err io_ErrUnexpectedEOF
  else Ok (take (Z.to_nat (len data - int_of_byte (List.last data "000"%byte)))
                data).
Proof.
  unfold pkcs7Unpad.
  pose proof (int_of_byte_range (List.last data "000"%byte)) as Hb.
  destruct (len data =? 0) eqn:E0.
  - apply Z.eqb_eq in E0. rewrite decide_True; [done|].
    left. destruct data; [done | unfold len in E0; simpl in E0; lia].
  - apply Z.eqb_neq in E0.
    assert (data <> []) by (intros ->; apply E0; reflexivity).
    destruct (int_of_byte (List.last data "000"%byte) >? len data) eqn:E1.
    + rewrite decide_True; [done | right; lia].
    + rewrite decide_False by (intros [?|?]; [done | lia]).
      unfold slice_to.
      destruct (_ || _) eqn:E2; [|done].
      apply orb_true_iff in E2 as [E2|E2]; lia.
Qed.

Lemma last_app_replicate (data : list byte) n b :
  (0 < n)%nat -> List.last (data ++ replicate n b) "000"%byte = b.
Proof.
  intros Hn. destruct n as [|n]; [lia|].
  rewrite replicate_S_end, app_assoc. apply last_last.
Qed.

Lemma pkcs7Unpad_padding (data : list byte) n :
  (1 <= n <= 255)%nat ->
  pkcs7Unpad (data ++ replicate n (byte_of_int (Z.of_nat n))) = Ok data.
Proof.
  intros Hn. rewrite pkcs7Unpad_spec.
  rewrite last_app_replicate by lia.
  rewrite int_of_byte_of_int, Z.mod_small by lia.
  rewrite len_app, len_replicate.
  pose proof (len_nonneg data).
  rewrite decide_False.
  - f_equal. replace (len data + Z.of_nat n - Z.of_nat n) with (len data) by lia.
    unfold len. rewrite Nat2Z.id. by rewrite take_app_length.
  - intros [Hnil|Hlt]; [|lia].
    apply (f_equal length) in Hnil. rewrite length_app, length_replicate in Hnil.
    simpl in Hnil. lia.
Qed.

Lemma pkcs7Unpad_pkcs7Pad data padded :
  pkcs7Pad data aes_BlockSize = Ok padded -> pkcs7Unpad padded = Ok data.
Proof.
  rewrite pkcs7Pad_16. intros [= <-].
  pose proof (padLen16_range data) as Hr.
  rewrite <- (Z2Nat.id (padLen16 data)) at 2 by lia.
  apply pkcs7Unpad_padding. lia.
Qed.

Lemma pkcs7Pad_len data padded :
  pkcs7Pad data aes_BlockSize = Ok padded ->
  len padded = len data + padLen16 data /\ Z.rem (len padded) 16 = 0 /\
  0 < len padded.
Proof.
  rewrite pkcs7Pad_16. intros [= <-].
  pose proof (padLen16_range data) as Hr. pose proof (len_nonneg data) as Hl.
  rewrite len_app, len_replicate, Z2Nat.id by lia.
  split; [done|]. split; [|lia].
  rewrite Z.rem_mod_nonneg by lia.
  unfold padLen16, aes_BlockSize in *.
  rewrite (Z.rem_mod_nonneg (len data)) by lia.
  replace (len data + (16 - len data mod 16))
    with ((len data / 16 + 1) * 16) by (pose proof (Z.div_mod (len data) 16); lia).
  apply Z.mod_mul. lia.
Qed.

(** *** Exclusive or *)

Lemma byte_xor_cancel a b : byte_xor (byte_xor a b) b = a.
Proof.
  unfold byte_xor.
  rewrite <- (Byte.of_bits_to_bits a) at 2.
  destruct (Byte.to_bits a) as (a0 & a1 & a2 & a3 & a4 & a5 & a6 & a7).
  destruct (Byte.to_bits b) as (b0 & b1 & b2 & b3 & b4 & b5 & b6 & b7).
  rewrite Byte.to_bits_of_bits.
  by rewrite !xorb_assoc, !xorb_nilpotent, !xorb_false_r.
Qed.

Lemma XORBytes_length x y :
  length x = length y -> length (subtle_XORBytes x y) = length x.
Proof.
  intros H. unfold subtle_XORBytes. rewrite length_zip_with. lia.
Qed.

Lemma XORBytes_cancel x y :
  length x = length y -> subtle_XORBytes (subtle_XORBytes x y) y = x.
Proof.
  unfold subtle_XORBytes. revert y.
  induction x as [|a x IH]; intros [|b y] Hlen; simpl in *; try done.
  rewrite byte_xor_cancel, IH; [done | lia].
Qed.

(** *** CBC mode over AES *)

Lemma take_drop_16 (src : list byte) n :
  length src = (16 * S n)%nat ->
  length (take 16 src) = 16%nat /\ length (drop 16 src) = (16 * n)%nat.
Proof.
  intros H. rewrite length_take, length_drop. lia.
Qed.

Lemma cbcEncrypt_loop_length key n iv src :
  length iv = 16%nat -> length src = (16 * n)%nat ->
  length (cbcEncrypt_loop (aes_block key) n iv src) = (16 * n)%nat.
Proof using aes_encrypt_length.
  revert iv src. induction n as [|n IH]; intros iv src Hiv Hsrc; [done|].
  cbn [cbcEncrypt_loop aes_block BlockSize Encrypt].
  change (Z.to_nat aes_BlockSize) with 16%nat.
  destruct (take_drop_16 src n Hsrc) as [Ht Hd].
  assert (Hc : length (aes_encrypt key (subtle_XORBytes (take 16 src) iv)) = 16%nat).
  { apply aes_encrypt_length. rewrite XORBytes_length; congruence. }
  rewrite length_app, Hc, IH; [lia | done | done].
Qed.

Lemma cbcDecrypt_loop_length key n iv src :
  length iv = 16%nat -> length src = (16 * n)%nat ->
  length (cbcDecrypt_loop (aes_block key) n iv src) = (16 * n)%nat.
Proof using aes_decrypt_length.
  revert iv src. induction n as [|n IH]; intros iv src Hiv Hsrc; [done|].
  cbn [cbcDecrypt_loop aes_block BlockSize Decrypt].
  change (Z.to_nat aes_BlockSize) with 16%nat.
  destruct (take_drop_16 src n Hsrc) as [Ht Hd].
  rewrite length_app, XORBytes_length, aes_decrypt_length, IH; try done; [lia|].
  rewrite aes_decrypt_length; congruence.
Qed.

Lemma cbcDecrypt_cbcEncrypt key n iv src :
  length iv = 16%nat -> length src = (16 * n)%nat ->
  cbcDecrypt_loop (aes_block key) n iv
    (cbcEncrypt_loop (aes_block key) n iv src) = src.
Proof using aes_encrypt_length aes_decrypt_encrypt.
  revert iv src. induction n as [|n IH]; intros iv src Hiv Hsrc.
  - destruct src; [done | simpl in Hsrc; lia].
  - cbn [cbcDecrypt_loop cbcEncrypt_loop aes_block BlockSize Encrypt Decrypt].
    change (Z.to_nat aes_BlockSize) with 16%nat.
    destruct (take_drop_16 src n Hsrc) as [Ht Hd].
    set (x := subtle_XORBytes (take 16 src) iv).
    assert (Hx : length x = 16%nat)
      by (unfold x; rewrite XORBytes_length; congruence).
    pose proof (aes_encrypt_length key x Hx) as Hc.
    rewrite take_app_length' by done.
    rewrite drop_app_length' by done.
    rewrite aes_decrypt_encrypt by done.
    unfold x at 1. rewrite XORBytes_cancel by congruence.
    fold (aes_block key). rewrite IH by done.
    apply take_drop.
Qed.

(** *** The two file operations, step by step *)

Lemma aes_NewCipher_ok key :
  aes_key_ok key = true -> aes_NewCipher key = Ok (aes_block key).
Proof. unfold aes_NewCipher. by intros ->. Qed.

Lemma os_ReadFile_ok path w data :
  path ∉ unreadable w -> files w !! path = Some data ->
  os_ReadFile path w = (Ok data, w).
Proof.
  intros Hr Hf. unfold os_ReadFile. rewrite decide_False by done. by rewrite Hf.
Qed.

Lemma os_ReadFile_inv path w r w' :
  os_ReadFile path w = (r, w') ->
  w' = w /\
  ((exists data, r = Ok data /\ (path ∉ unreadable w) /\ files w !! path = Some data)
   \/ r = Err (fs_PathError "open" path)).
Proof.
  unfold os_ReadFile. destruct (decide _) as [Hin|Hin].
  - intros [= <- <-]. eauto.
  - destruct (files w !! path) as [data|] eqn:E; intros [= <- <-]; eauto 10.
Qed.

Lemma rand_Read_ok n w :
  (n <= length (entropy w))%nat ->
  rand_Read n w = (Ok (take n (entropy w)), set_entropy (drop n (entropy w)) w).
Proof. intros H. unfold rand_Read. by rewrite decide_True. Qed.

Lemma unwritable_spec path w :
  path ∉ unwritable w <-> write_faults w !! path = None.
Proof. unfold unwritable. apply not_elem_of_dom. Qed.

Lemma os_WriteFile_ok path data w :
  path ∉ unwritable w ->
  os_WriteFile path data w = (Ok tt, write_file path data w).
Proof. intros Hw%unwritable_spec. unfold os_WriteFile. by rewrite Hw. Qed.

Lemma os_WriteFile_inv path data w w' :
  os_WriteFile path data w = (Ok tt, w') ->
  (path ∉ unwritable w) /\ w' = write_file path data w.
Proof.
  unfold os_WriteFile. rewrite unwritable_spec.
  destruct (write_faults w !! path) as [[|op n]|]; [done|done|].
  by intros [= <-].
Qed.

(** How [os.WriteFile] ends when it fails. *)
Lemma os_WriteFile_fails path data w :
  path ∈ unwritable w ->
  os_WriteFile path data w = (Err (fs_PathError "open" path), w) \/
  exists op n,
    write_faults w !! path = Some (fault_after op n) /\
    os_WriteFile path data w
    = (Err (fs_PathError op path), write_file path (take n data) w).
Proof.
  unfold unwritable, os_WriteFile. intros [f Hf]%elem_of_dom. rewrite Hf.
  destruct f as [|op n]; [by left|right; eauto].
Qed.

Lemma os_WriteFile_returns path data w :
  exists r w', os_WriteFile path data w = (r, w') /\
               (r = Ok tt \/ exists e, r = Err e) /\ log w' = log w.
Proof.
  unfold os_WriteFile. destruct (write_faults w !! path) as [[|op n]|];
    eauto 10.
Qed.

Lemma cbcEncrypter_CryptBlocks_ok key iv padded :
  Z.rem (len padded) 16 = 0 ->
  cbcEncrypter_CryptBlocks {| cbc_b := aes_block key; cbc_iv := iv |} padded =
  Ok (cbcEncrypt_loop (aes_block key) (Z.to_nat (len padded / 16)) iv padded).
Proof.
  intros H. unfold cbcEncrypter_CryptBlocks, CryptBlocks.
  cbn [cbc_b cbc_iv aes_block BlockSize]. unfold aes_BlockSize.
  rewrite H. reflexivity.
Qed.

Lemma len_16_blocks {A} (l : list A) :
  Z.rem (len l) 16 = 0 -> length l = (16 * Z.to_nat (len l / 16))%nat.
Proof.
  intros H. pose proof (len_nonneg l) as Hl.
  rewrite Z.rem_mod_nonneg in H by lia.
  pose proof (Z.div_mod (len l) 16). pose proof (Z.div_pos (len l) 16).
  unfold len in *. lia.
Qed.

(** [encryptFile] on a readable file, with a key of a valid size, a
    random device that delivers and an output path that can be written. *)
Lemma encryptFile_ok inputPath key w plaintext :
  inputPath ∉ unreadable w -> files w !! inputPath = Some plaintext ->
  aes_key_ok key = true ->
  (16 <= length (entropy w))%nat ->
  (inputPath +:+ SuffixEncrypted) ∉ unwritable w ->
  let iv := take 16 (entropy w) in
  encryptFile inputPath key w =
  (Ok tt,
   write_file (inputPath +:+ SuffixEncrypted)
              (iv ++ ciphertext_of key iv plaintext)
              (set_entropy (drop 16 (entropy w)) w)).
Proof.
  intros Hr Hf Hk He Hw iv. unfold encryptFile, bind, lift.
  rewrite (os_ReadFile_ok _ _ _ Hr Hf), (aes_NewCipher_ok _ Hk).
  change (Z.to_nat aes_BlockSize) with 16%nat.
  rewrite (rand_Read_ok _ _ He). fold iv.
  rewrite pkcs7Pad_16.
  assert (Hiv : length iv = 16%nat) by (unfold iv; rewrite length_take; lia).
  unfold cipher_NewCBCEncrypter, cipher_NewCBC.
  cbn [aes_block BlockSize]. unfold len at 1. rewrite Hiv.
  change (Z.of_nat 16 =? aes_BlockSize) with true. cbv iota.
  fold (aes_block key).
  destruct (pkcs7Pad_len plaintext _ (pkcs7Pad_16 plaintext)) as (_ & Hrem & _).
  rewrite (cbcEncrypter_CryptBlocks_ok _ _ _ Hrem).
  by rewrite os_WriteFile_ok.
Qed.

(** Every successful [encryptFile] is of that form. *)
Lemma encryptFile_inv inputPath key w w' :
  encryptFile inputPath key w = (Ok tt, w') ->
  exists plaintext,
    (inputPath ∉ unreadable w) /\ files w !! inputPath = Some plaintext /\
    aes_key_ok key = true /\ (16 <= length (entropy w))%nat /\
    (inputPath +:+ SuffixEncrypted) ∉ unwritable w.
Proof.
  unfold encryptFile, bind, lift. intros H.
  destruct (os_ReadFile inputPath w) as [r w1] eqn:ER.
  apply os_ReadFile_inv in ER as [-> [(plaintext & -> & Hr & Hf)| ->]]; [|done].
  exists plaintext. unfold aes_NewCipher in H.
  destruct (aes_key_ok key) eqn:Hk; [|done].
  unfold rand_Read in H. change (Z.to_nat aes_BlockSize) with 16%nat in H.
  destruct (decide (16 <= length (entropy w))%nat) as [He|He]; [|done].
  repeat split; try done.
  rewrite pkcs7Pad_16 in H.
  destruct (cipher_NewCBCEncrypter _ _) as [mode| | |]; try done.
  destruct (cbcEncrypter_CryptBlocks _ _) as [c| | |]; try done.
  by apply os_WriteFile_inv in H as [Hw _].
Qed.

(** [decryptFile] on a readable file of at least 16 bytes whose length
    is a multiple of 16, with a key of a valid size. *)
Lemma decryptFile_aligned inputPath key w data :
  inputPath ∉ unreadable w -> files w !! inputPath = Some data ->
  aes_key_ok key = true ->
  16 <= len data -> Z.rem (len data - 16) 16 = 0 ->
  decryptFile inputPath key w =
  (let* unpadded := lift (pkcs7Unpad (decrypted_of key data)) in
   let* outputPath :=
     lift (string_slice_to inputPath
             (Z.of_nat (String.length inputPath)
              - Z.of_nat (String.length SuffixEncrypted))) in
   os_WriteFile outputPath unpadded) w.
Proof.
  intros Hr Hf Hk Hlen Hrem. unfold decryptFile at 1, bind at 1.
  rewrite (os_ReadFile_ok _ _ _ Hr Hf).
  unfold aes_BlockSize at 1. destruct (len data <? 16) eqn:E; [lia|].
  unfold bind at 1, lift at 1, slice_to, aes_BlockSize.
  destruct ((16 <? 0) || (len data <? 16)) eqn:E1;
    [apply orb_true_iff in E1 as [?|?]; lia|].
  unfold bind at 1, lift at 1, slice_from.
  rewrite E1.
  unfold bind at 1, lift at 1. rewrite (aes_NewCipher_ok _ Hk).
  change (Z.to_nat 16) with 16%nat.
  assert (Hd : len (drop 16 data) = len data - 16).
  { unfold len in *. rewrite length_drop. lia. }
  rewrite Hd, Hrem. cbn [Z.eqb negb].
  unfold bind at 1, lift at 1, cipher_NewCBCDecrypter, cipher_NewCBC.
  cbn [aes_block BlockSize].
  assert (Ht : len (take 16 data) = 16).
  { unfold len in *. rewrite length_take. lia. }
  rewrite Ht. change (16 =? aes_BlockSize) with true. cbv iota.
  unfold bind at 1, lift at 1, cbcDecrypter_CryptBlocks, CryptBlocks.
  cbn [cbc_b cbc_iv BlockSize aes_block]. unfold aes_BlockSize.
  rewrite Hd, Hrem. cbn [Z.leb Z.compare Z.eqb negb].
  reflexivity.
Qed.

Lemma decrypted_of_encrypted key iv X :
  length iv = 16%nat -> Z.rem (len X) 16 = 0 ->
  decrypted_of key
    (iv ++ cbcEncrypt_loop (aes_block key) (Z.to_nat (len X / 16)) iv X) = X.
Proof using aes_encrypt_length aes_decrypt_encrypt.
  intros Hiv Hrem. unfold decrypted_of.
  pose proof (len_16_blocks X Hrem) as HX.
  pose proof (cbcEncrypt_loop_length key _ iv X Hiv HX) as Hc.
  rewrite take_app_length' by done. rewrite drop_app_length' by done.
  rewrite len_app. unfold len at 1 2. rewrite Hiv, Hc.
  replace ((Z.of_nat 16 + Z.of_nat (16 * Z.to_nat (len X / 16)) - 16) / 16)
    with (len X / 16); cycle 1.
  - pose proof (len_nonneg X). pose proof (Z.div_pos (len X) 16).
    rewrite Nat2Z.inj_mul, Z2Nat.id by lia.
    change (Z.of_nat 16) with 16.
    replace (16 + 16 * (len X / 16) - 16)
      with ((len X / 16) * 16) by lia.
    rewrite Z.div_mul; lia.
  - by apply cbcDecrypt_cbcEncrypt.
Qed.

(** *** Paths *)

Lemma string_length_app (s t : string) :
  String.length (s +:+ t) = (String.length s + String.length t)%nat.
Proof. induction s as [|a s IH]; simpl; [done | by rewrite IH]. Qed.

Lemma substring_app_l (s t : string) :
  String.substring 0 (String.length s) (s +:+ t) = s.
Proof.
  induction s as [|a s IH]; simpl.
  - by destruct t.
  - by rewrite IH.
Qed.

Lemma string_slice_to_suffix (P suffix : string) :
  string_slice_to (P +:+ suffix)
    (Z.of_nat (String.length (P +:+ suffix)) - Z.of_nat (String.length suffix))
  = Ok P.
Proof.
  unfold string_slice_to. rewrite string_length_app.
  destruct (_ || _) eqn:E;
    [apply orb_true_iff in E as [E|E]; apply Z.ltb_lt in E; lia|].
  replace (Z.to_nat _) with (String.length P) by lia.
  by rewrite substring_app_l.
Qed.

Lemma deriveKey_len K : len (deriveKey K) = 32.
Proof using pbkdf2_Key_length. unfold deriveKey. by apply pbkdf2_Key_length. Qed.

Lemma deriveKey_ok K : aes_key_ok (deriveKey K) = true.
Proof using pbkdf2_Key_length. unfold aes_key_ok. by rewrite deriveKey_len. Qed.

Lemma ciphertext_of_len key iv plaintext :
  length iv = 16%nat ->
  len (ciphertext_of key iv plaintext) = len plaintext + padLen16 plaintext /\
  Z.rem (len (ciphertext_of key iv plaintext)) 16 = 0.
Proof using aes_encrypt_length.
  intros Hiv. unfold ciphertext_of.
  destruct (pkcs7Pad_len plaintext _ (pkcs7Pad_16 plaintext)) as (Hl & Hrem & _).
  pose proof (len_16_blocks _ Hrem) as HX.
  pose proof (cbcEncrypt_loop_length key _ iv _ Hiv HX) as Hc.
  unfold len at 1 4. rewrite Hc, <- HX. fold (len (plaintext ++
    replicate (Z.to_nat (padLen16 plaintext)) (byte_of_int (padLen16 plaintext)))).
  by rewrite Hrem, Hl.
Qed.

(** [decryptFile] on the envelope of any block-aligned data [X]: the
    padding removal is applied to [X] itself. *)
Lemma decryptFile_envelope inputPath key w iv X :
  inputPath ∉ unreadable w -> aes_key_ok key = true ->
  length iv = 16%nat -> Z.rem (len X) 16 = 0 ->
  files w !! inputPath =
    Some (iv ++ cbcEncrypt_loop (aes_block key) (Z.to_nat (len X / 16)) iv X) ->
  decryptFile inputPath key w =
  (let* unpadded := lift (pkcs7Unpad X) in
   let* outputPath :=
     lift (string_slice_to inputPath
             (Z.of_nat (String.length inputPath)
              - Z.of_nat (String.length SuffixEncrypted))) in
   os_WriteFile outputPath unpadded) w.
Proof using aes_encrypt_length aes_decrypt_encrypt.
  intros Hr Hk Hiv Hrem Hf.
  pose proof (len_16_blocks X Hrem) as HX.
  pose proof (cbcEncrypt_loop_length key _ iv X Hiv HX) as Hc.
  rewrite (decryptFile_aligned _ _ _ _ Hr Hf Hk).
  - by rewrite decrypted_of_encrypted.
  - rewrite len_app. unfold len. lia.
  - rewrite len_app. unfold len at 1. rewrite Hiv.
    replace (Z.of_nat 16 + _ - 16)
      with (len (cbcEncrypt_loop (aes_block key) (Z.to_nat (len X / 16)) iv X))
      by lia.
    unfold len at 1. rewrite Hc, <- HX. exact Hrem.
Qed.

Lemma decryptFile_short inputPath key w data :
  inputPath ∉ unreadable w -> files w !! inputPath = Some data ->
  len data < 16 ->
  decryptFile inputPath key w = (Err io_ErrUnexpectedEOF, w).
Proof.
  intros Hr Hf Hshort.
  unfold decryptFile, bind. rewrite (os_ReadFile_ok _ _ _ Hr Hf).
  unfold aes_BlockSize. destruct (len data <? 16) eqn:E; [done | lia].
Qed.

Lemma decryptFile_misaligned inputPath key w data :
  inputPath ∉ unreadable w -> files w !! inputPath = Some data ->
  aes_key_ok key = true ->
  16 <= len data -> Z.rem (len data - 16) 16 <> 0 ->
  decryptFile inputPath key w = (Err io_ErrUnexpectedEOF, w).
Proof.
  intros Hr Hf Hk Hlong Hmis.
  unfold decryptFile, bind, lift. rewrite (os_ReadFile_ok _ _ _ Hr Hf).
  unfold aes_BlockSize. destruct (len data <? 16) eqn:E; [lia|].
  unfold slice_to, slice_from.
  destruct ((16 <? 0) || (len data <? 16)) eqn:E1;
    [apply orb_true_iff in E1 as [?|?]; lia|].
  rewrite (aes_NewCipher_ok _ Hk).
  assert (Hd : len (drop (Z.to_nat 16) data) = len data - 16).
  { unfold len in *. rewrite length_drop. lia. }
  rewrite Hd. destruct (_ =? 0) eqn:E2; [lia | done].
Qed.

Lemma decryptFile_inv inputPath key w w' :
  decryptFile inputPath key w = (Ok tt, w') ->
  exists unpadded outputPath,
    string_slice_to inputPath
      (Z.of_nat (String.length inputPath)
       - Z.of_nat (String.length SuffixEncrypted)) = Ok outputPath /\
    w' = write_file outputPath unpadded w.
Proof.
  unfold decryptFile, bind, lift. intros H.
  destruct (os_ReadFile inputPath w) as [r w1] eqn:ER.
  apply os_ReadFile_inv in ER as [-> [(data & -> & Hr & Hf)| ->]]; [|done].
  destruct (len data <? aes_BlockSize); [done|].
  destruct (slice_to data aes_BlockSize) as [iv| | |]; try done.
  destruct (slice_from data aes_BlockSize) as [ciphertext| | |]; try done.
  destruct (aes_NewCipher key) as [block| | |]; try done.
  destruct (negb _); [done|].
  destruct (cipher_NewCBCDecrypter block iv) as [mode| | |]; try done.
  destruct (cbcDecrypter_CryptBlocks mode ciphertext) as [plaintext| | |];
    try done.
  destruct (pkcs7Unpad plaintext) as [unpadded| | |]; try done.
  destruct (string_slice_to _ _) as [outputPath| | |]; try done.
  exists unpadded, outputPath. split; [done|].
  by apply os_WriteFile_inv in H as [_ ->].
Qed.

(** ** The claims on padding, envelopes and paths *)

(** C3. For every plaintext the pad length [N] that [pkcs7Pad] uses with
    the AES block size is between 1 and 16 and the padding is the byte
    [N] repeated [N] times, which [pkcs7Unpad] removes again; a plaintext
    whose length is a multiple of 16 gets a whole block of 16 bytes of
    value 16, and [pkcs7Unpad] removes exactly that block. *)
Theorem pkcs7Pad_full_block (data : list byte) :
  (exists N : Z,
     1 <= N <= 16 /\ int_of_byte (byte_of_int N) = N /\
     pkcs7Pad data aes_BlockSize =
       Ok (data ++ replicate (Z.to_nat N) (byte_of_int N)) /\
     pkcs7Unpad (data ++ replicate (Z.to_nat N) (byte_of_int N)) = Ok data) /\
  (Z.rem (len data) 16 = 0 ->
     pkcs7Pad data aes_BlockSize = Ok (data ++ replicate 16 Byte.x10) /\
     pkcs7Unpad (data ++ replicate 16 Byte.x10) = Ok data).
Proof.
  pose proof (padLen16_range data) as Hr.
  pose proof (pkcs7Pad_16 data) as Hp.
  split.
  - exists (padLen16 data). split; [done|]. split.
    + rewrite int_of_byte_of_int. apply Z.mod_small. lia.
    + split; [done|]. by apply pkcs7Unpad_pkcs7Pad.
  - intros Hrem.
    assert (HN : padLen16 data = 16) by (unfold padLen16, aes_BlockSize; lia).
    rewrite HN in Hp. change (Z.to_nat 16) with 16%nat in Hp.
    change (byte_of_int 16) with Byte.x10 in Hp.
    split; [done|]. by apply pkcs7Unpad_pkcs7Pad.
Qed.

(** C5. Whenever [encryptFile] succeeds on a plaintext, the only file it
    writes is the one at the input path followed by the suffix, and its
    whole content is [iv ++ ciphertext]: the IV is the 16 bytes read
    from the random device, the ciphertext has a positive length that is
    a multiple of 16 (the plaintext's length plus the pad length), and
    the envelope has 16 bytes more than the ciphertext. *)
Theorem encryptFile_envelope_layout
    (inputPath : string) (key plaintext : list byte) (w w1 : World) :
  files w !! inputPath = Some plaintext ->
  encryptFile inputPath key w = (Ok tt, w1) ->
  exists iv ciphertext,
    files w1 = <[inputPath +:+ SuffixEncrypted := iv ++ ciphertext]> (files w) /\
    iv = take 16 (entropy w) /\ len iv = 16 /\
    ciphertext = ciphertext_of key iv plaintext /\
    len ciphertext = len plaintext + padLen16 plaintext /\
    0 < len ciphertext /\ Z.rem (len ciphertext) 16 = 0 /\
    len (iv ++ ciphertext) = 16 + len ciphertext.
Proof using aes_encrypt_length.
  intros Hf H.
  destruct (encryptFile_inv _ _ _ _ H) as (P & Hr & Hf' & Hk & He & Hw).
  assert (P = plaintext) as -> by congruence.
  rewrite (encryptFile_ok _ _ _ _ Hr Hf Hk He Hw) in H.
  injection H as <-.
  set (iv := take 16 (entropy w)).
  assert (Hiv : length iv = 16%nat) by (unfold iv; rewrite length_take; lia).
  exists iv, (ciphertext_of key iv plaintext).
  destruct (ciphertext_of_len key iv plaintext Hiv) as [Hl Hrem].
  pose proof (padLen16_range plaintext). pose proof (len_nonneg plaintext).
  repeat split; try done.
  - unfold len. by rewrite Hiv.
  - lia.
  - rewrite len_app. unfold len at 1. rewrite Hiv. lia.
Qed.


(** [decryptFile] on the envelope of a plaintext writes the plaintext to
    the path without the suffix. *)
Lemma decryptFile_restores p key w iv P :
  (p +:+ SuffixEncrypted) ∉ unreadable w -> aes_key_ok key = true ->
  length iv = 16%nat ->
  files w !! (p +:+ SuffixEncrypted) = Some (iv ++ ciphertext_of key iv P) ->
  p ∉ unwritable w ->
  decryptFile (p +:+ SuffixEncrypted) key w = (Ok tt, write_file p P w).
Proof using aes_encrypt_length aes_decrypt_encrypt.
  intros Hr Hk Hiv Hf Hw.
  destruct (pkcs7Pad_len P _ (pkcs7Pad_16 P)) as (_ & Hrem & _).
  pose proof (decryptFile_envelope (p +:+ SuffixEncrypted) key w iv _
                Hr Hk Hiv Hrem Hf) as Hdec.
  unfold bind at 1, lift at 1 in Hdec.
  rewrite (pkcs7Unpad_pkcs7Pad P _ (pkcs7Pad_16 P)) in Hdec.
  unfold bind at 1, lift at 1 in Hdec.
  rewrite string_slice_to_suffix in Hdec.
  by rewrite os_WriteFile_ok in Hdec.
Qed.

(** C1. Under the key derived from any passphrase [K], [encryptFile]
    followed by [decryptFile] of the file it wrote gives back every
    plaintext [P]: the envelope starts with the 16 bytes of the IV, and
    [decryptFile] writes exactly [P] to the original path.  It does so
    whatever the other files hold by then: the plaintext file may have
    been deleted or overwritten in between, what [decryptFile] leaves at
    the original path is [P], read from the envelope alone.  The machine
    is supposed to cooperate: the plaintext can be read, the random
    device delivers 16 bytes, and both paths can be written and read. *)
Theorem encrypt_decrypt_roundtrip
    (P : list byte) (K inputPath : string) (w : World) :
  inputPath ∉ unreadable w -> files w !! inputPath = Some P ->
  (16 <= length (entropy w))%nat ->
  (inputPath +:+ SuffixEncrypted) ∉ unwritable w ->
  (inputPath +:+ SuffixEncrypted) ∉ unreadable w ->
  inputPath ∉ unwritable w ->
  exists w1 w2 iv ciphertext,
    encryptFile inputPath (deriveKey K) w = (Ok tt, w1) /\
    files w1 !! (inputPath +:+ SuffixEncrypted) = Some (iv ++ ciphertext) /\
    len iv = 16 /\
    iv = take 16 (entropy w) /\
    ciphertext = ciphertext_of (deriveKey K) iv P /\
    decryptFile (inputPath +:+ SuffixEncrypted) (deriveKey K) w1 = (Ok tt, w2) /\
    files w2 !! inputPath = Some P /\
    (forall between : gmap string (list byte),
        between !! (inputPath +:+ SuffixEncrypted) = Some (iv ++ ciphertext) ->
        decryptFile (inputPath +:+ SuffixEncrypted) (deriveKey K)
                    (set_files between w1)
        = (Ok tt, write_file inputPath P (set_files between w1)) /\
        files (write_file inputPath P (set_files between w1)) !! inputPath
        = Some P /\
        forall q, q <> inputPath ->
                  files (write_file inputPath P (set_files between w1)) !! q
                  = between !! q).
Proof using aes_encrypt_length aes_decrypt_encrypt pbkdf2_Key_length.
  intros Hr Hf He Hw Hr' Hw'.
  pose proof (deriveKey_ok K) as Hk.
  set (key := deriveKey K) in *.
  set (iv := take 16 (entropy w)).
  assert (Hiv : length iv = 16%nat) by (unfold iv; rewrite length_take; lia).
  pose proof (encryptFile_ok _ _ _ _ Hr Hf Hk He Hw) as Henc. cbv zeta in Henc.
  fold iv in Henc.
  set (w1 := write_file _ _ _) in Henc.
  assert (Hf1 : files w1 !! (inputPath +:+ SuffixEncrypted)
                = Some (iv ++ ciphertext_of key iv P))
    by (unfold w1; cbn [files write_file]; apply lookup_insert_eq).
  exists w1, (write_file inputPath P w1), iv, (ciphertext_of key iv P).
  split; [exact Henc|]. split; [exact Hf1|].
  split; [unfold len; by rewrite Hiv|]. split; [done|]. split; [done|].
  split; [|split].
  - by apply (decryptFile_restores inputPath key w1 iv P).
  - cbn [files write_file]. apply lookup_insert_eq.
  - intros between Hb. split; [|split].
    + by apply (decryptFile_restores inputPath key (set_files between w1) iv P).
    + cbn [files write_file]. apply lookup_insert_eq.
    + intros q Hq. cbn [files write_file set_files].
      by rewrite lookup_insert_ne.
Qed.

(** C2, as amended.  On a readable input and with a key of a valid size,
    [decryptFile] returns [io.ErrUnexpectedEOF] exactly when the input
    has fewer than 16 bytes, or the length after the first 16 bytes is
    not a multiple of 16, or the input has exactly 16 bytes (there is
    nothing to decrypt), or the last byte of the decrypted data exceeds
    the length of the decrypted data; and then the world, hence every
    file, is left as it was. *)
Theorem decryptFile_malformed
    (inputPath : string) (key data : list byte) (w : World) :
  inputPath ∉ unreadable w -> files w !! inputPath = Some data ->
  aes_key_ok key = true ->
  let r := decryptFile inputPath key w in
  let plaintext := decrypted_of key data in
  (r.1 = Err io_ErrUnexpectedEOF <->
   len data < 16 \/ Z.rem (len data - 16) 16 <> 0 \/ len data = 16 \/
   len plaintext < int_of_byte (List.last plaintext "000"%byte)) /\
  (r.1 = Err io_ErrUnexpectedEOF -> r.2 = w).
Proof using aes_decrypt_length.
  intros Hr Hf Hk r plaintext.
  destruct (decide (len data < 16)) as [Hshort|Hlong].
  { assert (Hres : r = (Err io_ErrUnexpectedEOF, w))
      by (by apply (decryptFile_short _ _ _ data)).
    rewrite Hres. split; [split; [tauto | done] | done]. }
  destruct (decide (Z.rem (len data - 16) 16 = 0)) as [Hal|Hmis]; cycle 1.
  { assert (Hres : r = (Err io_ErrUnexpectedEOF, w))
      by (apply (decryptFile_misaligned _ _ _ data); (done || lia)).
    rewrite Hres. split; [split; [tauto | done] | done]. }
  assert (Hn : length (take 16 data) = 16%nat /\
               length (drop 16 data)
               = (16 * Z.to_nat ((len data - 16) / 16))%nat).
  { rewrite length_take, length_drop.
    rewrite Z.rem_mod_nonneg in Hal by lia.
    pose proof (Z.div_mod (len data - 16) 16).
    pose proof (Z.div_pos (len data - 16) 16). unfold len in *. lia. }
  destruct Hn as [Ht Hd].
  pose proof (cbcDecrypt_loop_length key _ _ _ Ht Hd) as Hpl.
  fold (decrypted_of key data) in Hpl. fold plaintext in Hpl.
  assert (Hempty : plaintext = [] <-> len data = 16).
  { rewrite Z.rem_mod_nonneg in Hal by lia.
    pose proof (Z.div_mod (len data - 16) 16).
    pose proof (Z.div_pos (len data - 16) 16).
    split.
    - intros E. rewrite E in Hpl. simpl in Hpl. lia.
    - intros E. apply length_zero_iff_nil. lia. }
  unfold r. rewrite (decryptFile_aligned _ _ _ _ Hr Hf Hk) by (done || lia).
  fold plaintext. unfold bind at 1, lift at 1.
  rewrite pkcs7Unpad_spec.
  destruct (decide (plaintext = [] \/ _)) as [Hbad|Hgood].
  - cbn [fst snd]. split; [|done]. split; [intros _|done].
    destruct Hbad as [E|E]; [right; right; left; by apply Hempty | tauto].
  - assert (Hne : forall x : result unit * World,
               (exists m w0, x = (Panic m, w0)) \/
               (exists op p w0, x = (Err (fs_PathError op p), w0)) \/
               (exists w0, x = (Ok tt, w0)) ->
               x.1 <> Err io_ErrUnexpectedEOF).
    { intros x [(m & w0 & ->)|[(op & p & w0 & ->)|(w0 & ->)]]; done. }
    match goal with
    | |- (?x.1 = _ <-> _) /\ _ =>
        assert (Hx : x.1 <> Err io_ErrUnexpectedEOF)
    end.
    { apply Hne. unfold bind, lift.
      destruct (string_slice_to _ _) as [out|e|m|c] eqn:Es.
      - unfold os_WriteFile.
        destruct (write_faults w !! out) as [[|op n]|]; eauto 10.
      - unfold string_slice_to in Es. by destruct (_ || _).
      - eauto.
      - unfold string_slice_to in Es. by destruct (_ || _). }
    split; [|done]. split; [done|].
    intros [?|[?|[E|E]]]; [lia | lia | |].
    + exfalso. apply Hgood. left. by apply Hempty.
    + exfalso. apply Hgood. by right.
Qed.

(** C10. [pkcs7Unpad] succeeds exactly on the non-empty inputs whose
    last byte [N] is at most the length [L], and then returns the first
    [L - N] bytes: all of the data when [N = 0], fewer than [L - 16]
    bytes when [16 < N]; the bytes before the last one are never looked
    at.  Hence [decryptFile], given the envelope of any such data of a
    block-aligned length, succeeds and writes those [L - N] bytes,
    whether or not the data ends in a padding of the prescribed form. *)
Theorem pkcs7Unpad_checks_length_only (data : list byte) :
  let L := len data in
  let N := int_of_byte (List.last data "000"%byte) in
  ((exists out, pkcs7Unpad data = Ok out) <-> data <> [] /\ N <= L) /\
  (data <> [] -> N <= L ->
   pkcs7Unpad data = Ok (take (Z.to_nat (L - N)) data)) /\
  (data <> [] -> N = 0 -> pkcs7Unpad data = Ok data) /\
  (16 < N <= L ->
   exists out, pkcs7Unpad data = Ok out /\ len out = L - N /\ len out < L - 16) /\
  (forall (front : list byte) (b : byte),
     pkcs7Unpad (front ++ [b]) =
     if decide (len front + 1 < int_of_byte b) then Err io_ErrUnexpectedEOF
     else Ok (take (Z.to_nat (len front + 1 - int_of_byte b)) (front ++ [b]))) /\
  (forall (key iv : list byte) (inputPath outputPath : string) (w : World),
     data <> [] -> N <= L -> Z.rem L 16 = 0 ->
     aes_key_ok key = true -> length iv = 16%nat ->
     inputPath ∉ unreadable w ->
     files w !! inputPath =
       Some (iv ++ cbcEncrypt_loop (aes_block key) (Z.to_nat (L / 16)) iv data) ->
     string_slice_to inputPath
       (Z.of_nat (String.length inputPath)
        - Z.of_nat (String.length SuffixEncrypted)) = Ok outputPath ->
     outputPath ∉ unwritable w ->
     decryptFile inputPath key w =
     (Ok tt, write_file outputPath (take (Z.to_nat (L - N)) data) w)).
Proof using aes_encrypt_length aes_decrypt_encrypt.
  intros L N. pose proof (int_of_byte_range (List.last data "000"%byte)) as HN.
  fold N in HN.
  assert (Hok : data <> [] -> N <= L ->
                pkcs7Unpad data = Ok (take (Z.to_nat (L - N)) data)).
  { intros Hne Hle. rewrite pkcs7Unpad_spec. fold N L.
    rewrite decide_False; [done | intros [?|?]; [done | lia]]. }
  split; [|split; [exact Hok|split; [|split; [|split]]]].
  - split.
    + intros [out Hout]. rewrite pkcs7Unpad_spec in Hout. fold N L in Hout.
      destruct (decide _) as [?|Hn]; [done|].
      split; [tauto | lia].
    + intros [Hne Hle]. rewrite Hok by done. eauto.
  - intros Hne H0. rewrite Hok by (done || (pose proof (len_nonneg data); lia)).
    rewrite H0, Z.sub_0_r. unfold L, len. rewrite Nat2Z.id. by rewrite firstn_all.
  - intros [H16 Hle].
    assert (Hne : data <> []).
    { intros ->. unfold L, len in Hle. simpl in Hle. lia. }
    rewrite Hok by done. eexists. split; [done|].
    assert (Hlen : len (take (Z.to_nat (L - N)) data) = L - N)
      by (unfold len; rewrite length_take; unfold L, len in *; lia).
    lia.
  - intros front b. rewrite pkcs7Unpad_spec, last_last, len_app.
    change (len [b]) with 1.
    destruct (decide (len front + 1 < int_of_byte b)) as [Hlt|Hge].
    + rewrite decide_True; [done | by right].
    + rewrite decide_False; [done|].
      intros [Hnil|?]; [|done]. by destruct front.
  - intros key iv inputPath outputPath w Hne Hle Hrem Hk Hiv Hr Hf Hs Hw.
    rewrite (decryptFile_envelope _ _ _ _ _ Hr Hk Hiv Hrem Hf).
    unfold bind at 1, lift at 1. rewrite Hok by done.
    unfold bind at 1, lift at 1. rewrite Hs.
    by rewrite os_WriteFile_ok.
Qed.

(** ** The scan *)

Lemma scan_entry_spec currentDir encrypt stack filePaths file :
  scan_entry currentDir encrypt (stack, filePaths) file =
  (stack ++ subdirs currentDir [file],
   filePaths ++ found currentDir encrypt [file]).
Proof.
  unfold scan_entry, subdirs, found, marker.
  rewrite !filter_cons, !filter_nil.
  destruct (IsDir file) eqn:Ed.
  - rewrite decide_True by done. rewrite decide_False by (by intros [? _]).
    simpl. by rewrite app_nil_r.
  - rewrite decide_False by done. simpl (_ <$> []). rewrite app_nil_r.
    destruct encrypt; simpl (Bool.eqb _ _); rewrite ?andb_true_r, ?andb_false_r.
    + destruct (String.eqb_spec (Name file) ".env") as [E|E].
      * rewrite decide_True by done. done.
      * rewrite decide_False by (by intros [_ ?]). simpl. by rewrite app_nil_r.
    + destruct (String.eqb_spec (Name file) ".env-encrypted") as [E|E].
      * rewrite decide_True by done. done.
      * rewrite decide_False by (by intros [_ ?]). simpl. by rewrite app_nil_r.
Qed.

Lemma scan_entries_spec currentDir encrypt files stack filePaths :
  fold_left (scan_entry currentDir encrypt) files (stack, filePaths) =
  (stack ++ subdirs currentDir files,
   filePaths ++ found currentDir encrypt files).
Proof.
  revert stack filePaths.
  induction files as [|file files IH]; intros stack filePaths.
  - simpl. unfold subdirs, found. simpl. by rewrite !app_nil_r.
  - cbn [fold_left]. rewrite scan_entry_spec, IH.
    unfold subdirs, found.
    rewrite (filter_cons _ file files), (filter_cons _ file files).
    rewrite !filter_cons, !filter_nil.
    destruct (decide (IsDir file = true));
      destruct (decide (IsDir file = false /\ _)); simpl;
      by rewrite <- ?app_assoc.
Qed.

Lemma elem_of_subdirs currentDir files s :
  s ∈ subdirs currentDir files <->
  exists file, file ∈ files /\ IsDir file = true /\
               s = currentDir +:+ "/" +:+ Name file.
Proof.
  unfold subdirs. rewrite list_elem_of_fmap. split.
  - intros (file & -> & Hin). apply list_elem_of_filter in Hin as [? ?]. eauto.
  - intros (file & Hin & Hd & ->). exists file. split; [done|].
    by apply list_elem_of_filter.
Qed.

Lemma elem_of_found currentDir encrypt files p :
  p ∈ found currentDir encrypt files <->
  exists file, file ∈ files /\ IsDir file = false /\
               Name file = marker encrypt /\
               p = currentDir +:+ "/" +:+ Name file.
Proof.
  unfold found. rewrite list_elem_of_fmap. split.
  - intros (file & -> & Hin). apply list_elem_of_filter in Hin as [[? ?] ?].
    eauto 10.
  - intros (file & Hin & Hd & Hn & ->). exists file. split; [done|].
    by apply list_elem_of_filter.
Qed.

Lemma below_trans w a b c : below w a b -> below w b c -> below w a c.
Proof.
  induction 1 as [|folder entries file d Hl Hin Hd Hb IH]; [done|].
  intros Hc. eapply below_sub; eauto.
Qed.

Lemma below_child w folder entries file :
  dirs w !! folder = Some entries -> file ∈ entries -> IsDir file = true ->
  below w folder (folder +:+ "/" +:+ Name file).
Proof. intros. eapply below_sub; eauto. apply below_here. Qed.

Lemma getDotenvPaths_loop_nil fuel encrypt filePaths w :
  getDotenvPaths_loop fuel encrypt [] filePaths w = Some (Ok filePaths, w).
Proof. by destruct fuel. Qed.

Lemma getDotenvPaths_loop_snoc fuel encrypt rest d filePaths w :
  getDotenvPaths_loop (S fuel) encrypt (rest ++ [d]) filePaths w =
  match dirs w !! d with
  | Some files =>
      getDotenvPaths_loop fuel encrypt (rest ++ subdirs d files)
                          (filePaths ++ found d encrypt files) w
  | None => Some (Exit 1, add_log (log_Fatal (Some (fs_PathError "open" d))) w)
  end.
Proof.
  cbn [getDotenvPaths_loop]. rewrite last_snoc, removelast_last.
  unfold os_ReadDir. destruct (dirs w !! d) as [files|]; [|done].
  by rewrite scan_entries_spec.
Qed.

Lemma getDotenvPaths_loop_out_of_fuel encrypt rest d filePaths w :
  getDotenvPaths_loop 0 encrypt (rest ++ [d]) filePaths w = None.
Proof. cbn [getDotenvPaths_loop]. by rewrite last_snoc. Qed.

Lemma scan_inv_init w folder encrypt : scan_inv w folder encrypt [folder] [].
Proof.
  repeat split.
  - intros s ->%list_elem_of_singleton. apply below_here.
  - intros p Hp. by apply not_elem_of_nil in Hp.
  - intros p Hp. right. exists folder. split; [apply list_elem_of_here | done].
  - intros d Hd. right. exists folder. split; [apply list_elem_of_here | done].
Qed.

Lemma scan_inv_step w folder encrypt rest d files filePaths :
  dirs w !! d = Some files ->
  scan_inv w folder encrypt (rest ++ [d]) filePaths ->
  scan_inv w folder encrypt (rest ++ subdirs d files)
           (filePaths ++ found d encrypt files).
Proof.
  intros Hd (I1 & I2 & I3 & I4).
  assert (Hbd : below w folder d) by (apply I1; set_solver).
  repeat split.
  - intros s [Hs|Hs]%elem_of_app; [apply I1; set_solver|].
    apply elem_of_subdirs in Hs as (file & Hin & Hdir & ->).
    eapply below_trans; [exact Hbd|]. by eapply below_child.
  - intros p [Hp|Hp]%elem_of_app; [by apply I2|].
    apply elem_of_found in Hp as (file & Hin & Hdir & Hn & ->).
    exists d, files, file. done.
  - intros p Hp. destruct (I3 p Hp) as [Hin|(s & Hs & Hc)]; [left; set_solver|].
    apply elem_of_app in Hs as [Hs|Hs]; [right; exists s; set_solver|].
    apply list_elem_of_singleton in Hs as ->.
    destruct Hc as (dd & entries & file & Hb & Hl & Hin & Hdir & Hn & ->).
    inversion Hb as [|? entries' sub ? Hl' Hin' Hdir' Hb']; subst.
    + left. apply elem_of_app. right. apply elem_of_found.
      assert (entries = files) as -> by congruence. eauto 10.
    + right. exists (d +:+ "/" +:+ Name sub). split.
      * apply elem_of_app. right. apply elem_of_subdirs.
        assert (entries' = files) as -> by congruence. eauto.
      * exists dd, entries, file. done.
  - intros x Hx. destruct (I4 x Hx) as [?|(s & Hs & Hb)]; [by left|].
    apply elem_of_app in Hs as [Hs|Hs]; [right; exists s; set_solver|].
    apply list_elem_of_singleton in Hs as ->.
    inversion Hb as [|? entries' sub ? Hl' Hin' Hdir' Hb']; subst.
    + left. eauto.
    + right. exists (d +:+ "/" +:+ Name sub). split; [|done].
      apply elem_of_app. right. apply elem_of_subdirs.
      assert (entries' = files) as -> by congruence. eauto.
Qed.

(** Whatever fuel was given, a scan that returns paths returns all the
    candidates and has listed every directory; one that exits has met a
    directory that cannot be listed. *)
Lemma getDotenvPaths_loop_sound w folder encrypt fuel :
  forall stack filePaths r w',
    scan_inv w folder encrypt stack filePaths ->
    getDotenvPaths_loop fuel encrypt stack filePaths w = Some (r, w') ->
    (exists paths, r = Ok paths /\ w' = w /\ scan_inv w folder encrypt [] paths)
    \/ (exists d, r = Exit 1 /\ below w folder d /\ dirs w !! d = None /\
                  w' = add_log (log_Fatal (Some (fs_PathError "open" d))) w).
Proof.
  induction fuel as [|fuel IH]; intros stack filePaths r w' Hinv Hrun.
  - destruct stack as [|s stack _] using rev_ind.
    + rewrite getDotenvPaths_loop_nil in Hrun. injection Hrun as <- <-. eauto.
    + by rewrite getDotenvPaths_loop_out_of_fuel in Hrun.
  - destruct stack as [|d rest _] using rev_ind.
    + rewrite getDotenvPaths_loop_nil in Hrun. injection Hrun as <- <-. eauto.
    + rewrite getDotenvPaths_loop_snoc in Hrun.
      destruct (dirs w !! d) as [files|] eqn:Hd.
      * eapply IH; [|exact Hrun]. by apply scan_inv_step.
      * injection Hrun as <- <-. right. exists d.
        destruct Hinv as (I1 & _). repeat split; try done.
        apply I1. set_solver.
Qed.

Lemma getDotenvPaths_loop_more_fuel encrypt fuel :
  forall stack filePaths w r k,
    getDotenvPaths_loop fuel encrypt stack filePaths w = Some r ->
    getDotenvPaths_loop (fuel + k) encrypt stack filePaths w = Some r.
Proof.
  induction fuel as [|fuel IH]; intros stack filePaths w r k Hrun.
  - destruct stack as [|s stack _] using rev_ind.
    + rewrite getDotenvPaths_loop_nil in *. done.
    + by rewrite getDotenvPaths_loop_out_of_fuel in Hrun.
  - destruct stack as [|d rest _] using rev_ind.
    + rewrite getDotenvPaths_loop_nil in *. done.
    + change (S fuel + k)%nat with (S (fuel + k)).
      rewrite getDotenvPaths_loop_snoc in *.
      destruct (dirs w !! d) as [files|]; [by apply IH | done].
Qed.

(** *** The scan ends *)

Lemma dirs_path_bound w d files :
  dirs w !! d = Some files -> (String.length d <= path_bound w)%nat.
Proof.
  intros Hd. unfold path_bound. apply max_list_elem_of_le.
  apply list_elem_of_fmap. exists d. split; [done|].
  apply elem_of_elements, elem_of_dom. eauto.
Qed.

Lemma runs_through_list w encrypt cs :
  (forall c, c ∈ cs -> runs_through w encrypt [c]) ->
  runs_through w encrypt cs.
Proof.
  induction cs as [|c cs IH] using rev_ind; intros Hall rest filePaths.
  - exists 0%nat. right. exists filePaths. intros m. by rewrite app_nil_r.
  - destruct (Hall c ltac:(set_solver) (rest ++ cs) filePaths)
      as (fuel1 & [(w' & H1)|(fp1 & H1)]).
    + exists fuel1. left. exists w'. intros m. rewrite app_assoc. apply H1.
    + destruct (IH ltac:(intros; apply Hall; set_solver) rest fp1)
        as (fuel2 & [(w' & H2)|(fp2 & H2)]).
      * exists (fuel1 + fuel2)%nat. left. exists w'. intros m.
        rewrite app_assoc, <- Nat.add_assoc, H1. apply H2.
      * exists (fuel1 + fuel2)%nat. right. exists fp2. intros m.
        rewrite app_assoc, <- Nat.add_assoc, H1. apply H2.
Qed.

Lemma runs_through_dir w encrypt n :
  forall d, (path_bound w + 1 - String.length d <= n)%nat ->
            runs_through w encrypt [d].
Proof.
  induction n as [|n IH]; intros d Hn rest filePaths.
  - exists 1%nat. left. eexists. intros m.
    change (1 + m)%nat with (S m). rewrite getDotenvPaths_loop_snoc.
    destruct (dirs w !! d) as [files|] eqn:Hd; [|done].
    apply dirs_path_bound in Hd. lia.
  - destruct (dirs w !! d) as [files|] eqn:Hd.
    + assert (Hsub : runs_through w encrypt (subdirs d files)).
      { apply runs_through_list. intros c Hc.
        apply elem_of_subdirs in Hc as (file & _ & _ & ->).
        apply IH. apply dirs_path_bound in Hd.
        rewrite !string_length_app. simpl. lia. }
      destruct (Hsub rest (filePaths ++ found d encrypt files))
        as (fuel & [(w' & H)|(fp' & H)]).
      * exists (S fuel). left. exists w'. intros m.
        change (S fuel + m)%nat with (S (fuel + m)).
        rewrite getDotenvPaths_loop_snoc, Hd. apply H.
      * exists (S fuel). right. exists fp'. intros m.
        change (S fuel + m)%nat with (S (fuel + m)).
        rewrite getDotenvPaths_loop_snoc, Hd. apply H.
    + exists 1%nat. left. eexists. intros m.
      change (1 + m)%nat with (S m).
      by rewrite getDotenvPaths_loop_snoc, Hd.
Qed.

(** With enough fuel the scan of any folder in any world comes to an
    end: it returns paths or it exits with status 1. *)
Lemma getDotenvPaths_loop_terminates w folder encrypt :
  exists fuel r w',
    getDotenvPaths_loop fuel encrypt [folder] [] w = Some (r, w') /\
    ((exists paths, r = Ok paths) \/ r = Exit 1).
Proof.
  destruct (runs_through_dir w encrypt _ folder (Nat.le_refl _) [] [])
    as (fuel & [(w' & H)|(fp' & H)]).
  - exists fuel, (Exit 1), w'. specialize (H 0%nat).
    rewrite Nat.add_0_r in H. eauto.
  - exists fuel, (Ok fp'), w. specialize (H 0%nat).
    rewrite Nat.add_0_r in H. simpl app in H.
    rewrite getDotenvPaths_loop_nil in H. eauto.
Qed.

Lemma getDotenvPaths_loop_fuel_irrelevant encrypt fuel1 fuel2 stack fp w r1 r2 :
  getDotenvPaths_loop fuel1 encrypt stack fp w = Some r1 ->
  getDotenvPaths_loop fuel2 encrypt stack fp w = Some r2 ->
  r1 = r2.
Proof.
  intros H1 H2.
  apply (getDotenvPaths_loop_more_fuel _ _ _ _ _ _ fuel2) in H1.
  apply (getDotenvPaths_loop_more_fuel _ _ _ _ _ _ fuel1) in H2.
  rewrite (Nat.add_comm fuel2 fuel1) in H2. congruence.
Qed.

Lemma getDotenvPaths_of_loop fuel folder encrypt w r w' :
  getDotenvPaths_loop fuel encrypt [folder] [] w = Some (r, w') ->
  getDotenvPaths fuel folder encrypt w =
  Some (r, match r with
           | Ok filePaths => add_log (log_Paths filePaths) w'
           | _ => w'
           end).
Proof. unfold getDotenvPaths. intros ->. by destruct r. Qed.

Lemma getDotenvPaths_inv fuel folder encrypt w r w' :
  getDotenvPaths fuel folder encrypt w = Some (r, w') ->
  exists w0, getDotenvPaths_loop fuel encrypt [folder] [] w = Some (r, w0) /\
             w' = match r with
                  | Ok filePaths => add_log (log_Paths filePaths) w0
                  | _ => w0
                  end.
Proof.
  unfold getDotenvPaths.
  destruct (getDotenvPaths_loop _ _ _ _ _) as [[[paths|e|m|c] w0]|];
    intros [= <- <-]; eauto.
Qed.

(** C6. In a tree whose directories can all be listed, the scan of a
    folder, given enough fuel, returns paths, and a path is returned
    exactly when it names an entry that is not a directory, is listed in
    a directory at any depth below the folder, and has the name [.env]
    when encrypting and [.env-encrypted] when decrypting.  The entry
    need not be a regular file: a symbolic link, a pipe, a socket or a
    device with the name is returned as well.  In a tree in which the
    entries with the name that are no directories are regular files, the
    paths returned are exactly those of the regular files with the
    name. *)
Theorem getDotenvPaths_exactly_markers
    (w : World) (folder : string) (encrypt : bool) :
  (forall d, below w folder d -> is_Some (dirs w !! d)) ->
  exists fuel filePaths,
    (forall k, getDotenvPaths (fuel + k) folder encrypt w
               = Some (Ok filePaths, add_log (log_Paths filePaths) w)) /\
    (forall p, p ∈ filePaths <->
       exists d entries file,
         below w folder d /\ dirs w !! d = Some entries /\ file ∈ entries /\
         IsDir file = false /\
         Name file = (if encrypt then ".env" else ".env-encrypted") /\
         p = d +:+ "/" +:+ Name file) /\
    (forall p, p ∈ filePaths <->
       exists d entries file,
         below w folder d /\ dirs w !! d = Some entries /\ file ∈ entries /\
         Type_ file <> ModeDir /\
         Name file = (if encrypt then ".env" else ".env-encrypted") /\
         p = d +:+ "/" +:+ Name file) /\
    ((forall d entries file,
         below w folder d -> dirs w !! d = Some entries -> file ∈ entries ->
         Name file = (if encrypt then ".env" else ".env-encrypted") ->
         IsDir file = false -> IsRegular file = true) ->
     forall p, p ∈ filePaths <->
       exists d entries file,
         below w folder d /\ dirs w !! d = Some entries /\ file ∈ entries /\
         IsRegular file = true /\
         Name file = (if encrypt then ".env" else ".env-encrypted") /\
         p = d +:+ "/" +:+ Name file).
Proof.
  intros Hall.
  destruct (getDotenvPaths_loop_terminates w folder encrypt)
    as (fuel & r & w' & Hrun & _).
  destruct (getDotenvPaths_loop_sound w folder encrypt fuel _ _ _ _
              (scan_inv_init w folder encrypt) Hrun)
    as [(paths & -> & -> & (_ & I2 & I3 & _))|(d & _ & Hb & Hd & _)].
  - assert (Hiff : forall p, p ∈ paths <->
               exists d entries file,
                 below w folder d /\ dirs w !! d = Some entries /\
                 file ∈ entries /\ IsDir file = false /\
                 Name file = (if encrypt then ".env" else ".env-encrypted") /\
                 p = d +:+ "/" +:+ Name file).
    { intros p. split; [apply I2|].
      intros Hc. destruct (I3 p Hc) as [?|(s & Hs & _)]; [done|].
      by apply not_elem_of_nil in Hs. }
    exists fuel, paths. split; [|split; [done|split]].
    + intros k.
      apply (getDotenvPaths_loop_more_fuel _ _ _ _ _ _ k) in Hrun.
      by rewrite (getDotenvPaths_of_loop _ _ _ _ _ _ Hrun).
    + intros p. rewrite Hiff. split.
      * intros (d & entries & file & Hb & Hd & Hin & Hdir & Hn & Hp).
        exists d, entries, file. repeat split; try done.
        intros Ht. unfold IsDir in Hdir. by rewrite Ht in Hdir.
      * intros (d & entries & file & Hb & Hd & Hin & Hdir & Hn & Hp).
        exists d, entries, file. repeat split; try done.
        unfold IsDir. by destruct (Type_ file).
    + intros Hreg p. rewrite Hiff. split.
      * intros (d & entries & file & Hb & Hd & Hin & Hdir & Hn & Hp).
        exists d, entries, file. repeat split; try done.
        by apply (Hreg d entries file).
      * intros (d & entries & file & Hb & Hd & Hin & Hdir & Hn & Hp).
        exists d, entries, file. repeat split; try done.
        unfold IsRegular in Hdir. unfold IsDir. by destruct (Type_ file).
  - destruct (Hall d Hb) as [? Hsome]. congruence.
Qed.

Lemma below_same_dirs w1 w2 folder d :
  dirs w1 = dirs w2 -> below w1 folder d -> below w2 folder d.
Proof.
  intros Hd. induction 1 as [|folder entries file d Hl Hin Hdir Hb IH].
  - apply below_here.
  - eapply below_sub; eauto. by rewrite <- Hd.
Qed.

Lemma getDotenvPaths_fatal w folder encrypt d :
  below w folder d -> dirs w !! d = None ->
  (exists fuel d',
      dirs w !! d' = None /\
      forall k, getDotenvPaths (fuel + k) folder encrypt w
                = Some (Exit 1,
                        add_log (log_Fatal (Some (fs_PathError "open" d'))) w)) /\
  (forall fuel r w', getDotenvPaths fuel folder encrypt w = Some (r, w') ->
                     r = Exit 1 /\ files w' = files w).
Proof.
  intros Hb Hd.
  assert (Hno : forall fuel r w',
             getDotenvPaths_loop fuel encrypt [folder] [] w = Some (r, w') ->
             exists d', r = Exit 1 /\ dirs w !! d' = None /\
               w' = add_log (log_Fatal (Some (fs_PathError "open" d'))) w).
  { intros fuel r w' Hrun.
    destruct (getDotenvPaths_loop_sound w folder encrypt fuel _ _ _ _
                (scan_inv_init w folder encrypt) Hrun)
      as [(paths & -> & -> & (_ & _ & _ & I4))|(d' & -> & _ & Hd' & ->)].
    - destruct (I4 d Hb) as [[? Hsome]|(s & Hs & _)]; [congruence|].
      by apply not_elem_of_nil in Hs.
    - eauto. }
  split.
  - destruct (getDotenvPaths_loop_terminates w folder encrypt)
      as (fuel & r & w' & Hrun & _).
    destruct (Hno _ _ _ Hrun) as (d' & -> & Hd' & ->).
    exists fuel, d'. split; [done|]. intros k.
    apply (getDotenvPaths_loop_more_fuel _ _ _ _ _ _ k) in Hrun.
    by rewrite (getDotenvPaths_of_loop _ _ _ _ _ _ Hrun).
  - intros fuel r w' Hrun.
    apply getDotenvPaths_inv in Hrun as (w0 & Hrun & ->).
    destruct (Hno _ _ _ Hrun) as (d' & -> & _ & ->). done.
Qed.

Lemma getPassphrase_spec w :
  getPassphrase w =
  match stdin w with
  | None => (Exit 1, add_log (log_Fatal None) (add_log log_Prompt w))
  | Some K => (Ok (deriveKey K),
               add_log (log_Key (deriveKey K)) (add_log log_Prompt w))
  end.
Proof.
  unfold getPassphrase, bind, log_Println, log_Fatal_, ret. cbn [stdin add_log].
  by destruct (stdin w).
Qed.

(** C9. If a directory that the scan of a folder comes to (the folder
    itself or a directory below it) cannot be listed, then the scan,
    given enough fuel, ends the process with status 1, and with no
    amount of fuel does it return paths; [main] then ends with status 1
    as well, whatever the schedule, and leaves every file as it was. *)
Theorem getDotenvPaths_unreadable_is_fatal
    (w : World) (folder d : string) (encrypt : bool) :
  below w folder d -> dirs w !! d = None ->
  (exists fuel w',
      files w' = files w /\
      forall k, getDotenvPaths (fuel + k) folder encrypt w = Some (Exit 1, w')) /\
  (forall fuel r w', getDotenvPaths fuel folder encrypt w = Some (r, w') ->
                     r = Exit 1) /\
  (exists fuel w',
      files w' = files w /\
      forall k sched, main (fuel + k) sched encrypt folder w = Some (Exit 1, w')) /\
  (forall fuel sched r w',
      main fuel sched encrypt folder w = Some (r, w') ->
      r = Exit 1 /\ files w' = files w).
Proof.
  intros Hb Hd.
  destruct (getDotenvPaths_fatal w folder encrypt d Hb Hd)
    as [(fuel & d' & Hd' & Hrun) Hall].
  split; [|split; [|split]].
  - exists fuel. eexists. split; [|exact Hrun]. done.
  - intros fuel' r w' H. by destruct (Hall _ _ _ H).
  - unfold main. rewrite getPassphrase_spec.
    destruct (stdin w) as [K|].
    + set (w1 := add_log _ (add_log _ w)).
      assert (Hb1 : below w1 folder d) by (by apply (below_same_dirs w)).
      destruct (getDotenvPaths_fatal w1 folder encrypt d Hb1 Hd)
        as [(fuel1 & d1 & _ & Hrun1) _].
      exists fuel1. eexists. split; [|intros k sched; by rewrite Hrun1]. done.
    + exists 0%nat. eexists. split; [|done]. done.
  - intros fuel' sched r w'. unfold main. rewrite getPassphrase_spec.
    destruct (stdin w) as [K|]; [|by intros [= <- <-]].
    set (w1 := add_log _ (add_log _ w)).
    assert (Hb1 : below w1 folder d) by (by apply (below_same_dirs w)).
    destruct (getDotenvPaths_fatal w1 folder encrypt d Hb1 Hd) as [_ Hall1].
    destruct (getDotenvPaths fuel' folder encrypt w1) as [[r1 w2]|] eqn:E;
      [|done].
    destruct (Hall1 _ _ _ E) as [-> Hf]. by intros [= <- <-].
Qed.

(** C4. The key that [getPassphrase] returns depends on the passphrase
    alone: in any two worlds in which the same passphrase [K] is typed
    it returns the same key, the result of PBKDF2 on [K] with the salt
    [somesalt], 4096 iterations (at least 1000) and a key length of 32;
    the key has exactly 32 bytes. *)
Theorem getPassphrase_deterministic (K : string) (w1 w2 : World) :
  stdin w1 = Some K -> stdin w2 = Some K ->
  exists key,
    (getPassphrase w1).1 = Ok key /\ (getPassphrase w2).1 = Ok key /\
    key = pbkdf2_Key (String.list_byte_of_string K)
                     (String.list_byte_of_string "somesalt") iterations 32 /\
    len key = 32 /\ iterations = 4096 /\ 1000 <= iterations.
Proof using pbkdf2_Key_length.
  intros H1 H2. exists (deriveKey K).
  rewrite !getPassphrase_spec, H1, H2.
  repeat split; try done. apply deriveKey_len.
Qed.

(** ** The batch *)

(** Neither file operation stops the process or touches the log, as long
    as the path given to [decryptFile] is not shorter than the suffix. *)
Lemma encryptFile_returns inputPath key w :
  exists r w', encryptFile inputPath key w = (r, w') /\
               (r = Ok tt \/ exists e, r = Err e) /\ log w' = log w.
Proof.
  unfold encryptFile, bind, lift.
  destruct (os_ReadFile inputPath w) as [r w1] eqn:ER.
  apply os_ReadFile_inv in ER as [-> [(plaintext & -> & Hr & Hf)| ->]];
    [|eauto 10].
  unfold aes_NewCipher. destruct (aes_key_ok key); [|eauto 10].
  unfold rand_Read. change (Z.to_nat aes_BlockSize) with 16%nat.
  destruct (decide (16 <= length (entropy w))%nat) as [He|He]; [|eauto 10].
  rewrite pkcs7Pad_16.
  set (iv := take 16 (entropy w)).
  assert (Hiv : length iv = 16%nat) by (unfold iv; rewrite length_take; lia).
  unfold cipher_NewCBCEncrypter, cipher_NewCBC.
  cbn [aes_block BlockSize]. unfold len at 1. rewrite Hiv.
  change (Z.of_nat 16 =? aes_BlockSize) with true. cbv iota.
  fold (aes_block key).
  destruct (pkcs7Pad_len plaintext _ (pkcs7Pad_16 plaintext)) as (_ & Hrem & _).
  rewrite (cbcEncrypter_CryptBlocks_ok _ _ _ Hrem).
  match goal with
  | |- context [os_WriteFile ?p ?d ?v] =>
      destruct (os_WriteFile_returns p d v) as (r & w' & -> & ? & ?)
  end.
  eauto 10.
Qed.

Lemma decryptFile_returns inputPath key w :
  (10 <= String.length inputPath)%nat ->
  exists r w', decryptFile inputPath key w = (r, w') /\
               (r = Ok tt \/ exists e, r = Err e) /\ log w' = log w.
Proof.
  intros Hp.
  destruct (decide (inputPath ∈ unreadable w \/ files w !! inputPath = None))
    as [Hno|Hyes].
  { unfold decryptFile, bind.
    destruct (os_ReadFile inputPath w) as [r w1] eqn:ER.
    apply os_ReadFile_inv in ER as [-> [(data & -> & Hr & Hf)| ->]];
      [|eauto 10].
    destruct Hno; [done | congruence]. }
  assert (Hr : inputPath ∉ unreadable w) by tauto.
  destruct (files w !! inputPath) as [data|] eqn:Hf; [|tauto].
  destruct (decide (len data < 16)) as [Hshort|Hlong].
  { rewrite (decryptFile_short _ _ _ data) by done. eauto 10. }
  destruct (aes_key_ok key) eqn:Hk; cycle 1.
  { unfold decryptFile, bind, lift. rewrite (os_ReadFile_ok _ _ _ Hr Hf).
    unfold aes_BlockSize. destruct (len data <? 16) eqn:E; [lia|].
    unfold slice_to, slice_from.
    destruct ((16 <? 0) || (len data <? 16)) eqn:E1;
      [apply orb_true_iff in E1 as [?|?]; lia|].
    unfold aes_NewCipher. rewrite Hk. eauto 10. }
  destruct (decide (Z.rem (len data - 16) 16 = 0)) as [Hal|Hmis]; cycle 1.
  { rewrite (decryptFile_misaligned _ _ _ data) by (done || lia). eauto 10. }
  rewrite (decryptFile_aligned _ _ _ _ Hr Hf Hk) by (done || lia).
  unfold bind, lift. rewrite pkcs7Unpad_spec.
  destruct (decide _); [eauto 10|].
  unfold string_slice_to. change (String.length SuffixEncrypted) with 10%nat.
  destruct (_ || _) eqn:E;
    [apply orb_true_iff in E as [E|E]; apply Z.ltb_lt in E; lia|].
  match goal with
  | |- context [os_WriteFile ?p ?d ?v] =>
      destruct (os_WriteFile_returns p d v) as (r & w' & -> & ? & ?)
  end.
  eauto 10.
Qed.

Lemma call_returns encrypt filePath key w :
  (encrypt = false -> (10 <= String.length filePath)%nat) ->
  exists r w',
    (if encrypt then encryptFile filePath key else decryptFile filePath key) w
    = (r, w') /\
    (r = Ok tt \/ exists e, r = Err e) /\ log w' = log w.
Proof.
  intros Hp. destruct encrypt.
  - apply encryptFile_returns.
  - apply decryptFile_returns. by apply Hp.
Qed.

(** *** Lists of goroutines *)

Lemma goroutines_split (gs : list goroutine) i g g' :
  gs !! i = Some g ->
  exists l1 l2, gs = l1 ++ g :: l2 /\ <[i := g']> gs = l1 ++ g' :: l2.
Proof.
  intros Hg. exists (take i gs), (drop (S i) gs). split.
  - by rewrite take_drop_middle.
  - apply lookup_lt_Some in Hg as Hlt. by rewrite insert_take_drop.
Qed.

Lemma sum_live_zero (gs : list goroutine) g :
  sum_list (g_sick <$> gs) = 0%nat ->
  sum_list (g_live <$> gs) = 0%nat -> g ∈ gs -> exists p e, g = g_exited p e.
Proof.
  induction gs as [|g0 gs IH]; intros Hk Hs Hin;
    [by apply not_elem_of_nil in Hin|].
  rewrite fmap_cons in Hs, Hk. simpl in Hs, Hk.
  apply elem_of_cons in Hin as [->|Hin].
  - destruct g0; simpl in Hs, Hk; try lia. eauto.
  - apply IH; [lia | lia | done].
Qed.

Lemma sum_sick_zero (gs : list goroutine) i g :
  sum_list (g_sick <$> gs) = 0%nat -> gs !! i = Some g -> g_sick g = 0%nat.
Proof.
  intros Hk Hg. destruct (goroutines_split gs i g g Hg) as (l1 & l2 & -> & _).
  rewrite sum_list_with_app in Hk || rewrite fmap_app, sum_list_with_app in Hk.
  rewrite fmap_cons in Hk. simpl in Hk. lia.
Qed.

Lemma length_omap_sent (gs : list goroutine) :
  (length (omap g_sent gs) + sum_list ((fun g => match g_sent g with
                                                 | Some _ => 0
                                                 | None => 1
                                                 end) <$> gs)
   = length gs)%nat.
Proof.
  induction gs as [|g gs IH]; [done|].
  rewrite fmap_cons. cbn [omap list_omap sum_list sum_list_with]. 
  destruct (g_sent g); simpl in *; lia.
Qed.

Lemma sum_list_fmap_app {A} (f : A -> nat) (l k : list A) :
  sum_list (f <$> (l ++ k)) = (sum_list (f <$> l) + sum_list (f <$> k))%nat.
Proof. by rewrite fmap_app, sum_list_with_app. Qed.

Lemma sum_list_fmap_cons {A} (f : A -> nat) (x : A) (l : list A) :
  sum_list (f <$> (x :: l)) = (f x + sum_list (f <$> l))%nat.
Proof. done. Qed.

(** Splits an instance of [batch_inv] and closes what is immediate. *)
Ltac split_inv :=
  repeat match goal with
         | |- _ /\ _ => split
         end;
  try done; try lia.

Lemma batch_main_step_inv filePaths w0 s s' :
  batch_inv filePaths w0 s -> main_step s = Some s' ->
  batch_inv filePaths w0 s' /\ batch_measure s = S (batch_measure s').
Proof.
  intros (Hc & Hcap & Hsp & Hwg & (received & Hlog & Hperm & Hrec)
          & Hpw & Hcl & Hret & Hnp).
  unfold main_step, batch_inv, batch_measure.
  destruct (pc s) as [[|p rest]| | | |] eqn:Epc;
    cbn [pc_rest past_wait reporting pc_measure] in *.
  - (* end of the loop that starts the goroutines *)
    intros [= <-]. cbn. split_inv.
    exists received. split_inv.
  - (* wg.Add(1) and go *)
    intros [= <-]. cbn.
    rewrite !sum_list_fmap_app, !sum_list_fmap_cons, fmap_app, omap_app. cbn.
    split_inv.
    + by rewrite <- app_assoc.
    + exists received. rewrite app_nil_r. split_inv.
  - (* wg.Wait() *)
    destruct (wg s =? 0) eqn:E0; [|done]. intros [= <-]. cbn.
    split_inv.
    exists received. split_inv.
  - (* close(channel) *)
    intros [= <-]. cbn. split_inv.
    exists received. split_inv.
  - (* for err := range channel *)
    destruct (channel s) as [|err rest] eqn:Ech.
    + rewrite Hcl. intros [= <-]. cbn. split_inv.
      exists received. split_inv.
    + intros [= <-]. cbn. split_inv.
      exists (received ++ [err]). split_inv.
      * rewrite omap_app, fmap_app. destruct err as [e|]; cbn.
        -- by rewrite Hlog, <- app_assoc.
        -- by rewrite app_nil_r.
      * by rewrite <- app_assoc.
  - done.
Qed.

Lemma live_goroutine_before_wait filePaths w0 s i g :
  batch_inv filePaths w0 s -> goroutines s !! i = Some g -> g_live g = 1%nat ->
  past_wait (pc s) = false /\ closed s = false /\
  (length (omap g_sent (goroutines s)) + (match g_sent g with
                                          | Some _ => 0
                                          | None => 1
                                          end)
   <= length filePaths)%nat /\
  1 <= wg s /\ g_path g ∈ filePaths.
Proof.
  intros (Hc & Hcap & Hsp & Hwg & _ & Hpw & Hcl & Hret & Hnp) Hg Hlive.
  destruct (goroutines_split _ _ _ g Hg) as (l1 & l2 & Hgs & _).
  assert (Hw1 : 1 <= wg s).
  { rewrite Hwg, Hgs, sum_list_fmap_app, sum_list_fmap_cons, Hlive. lia. }
  assert (Hbefore : past_wait (pc s) = false).
  { destruct (past_wait (pc s)) eqn:E; [|done]. specialize (Hpw eq_refl). lia. }
  split; [done|]. split.
  { rewrite Hcl. by destruct (pc s). }
  split; [|split; [done|]].
  - pose proof (length_omap_sent (goroutines s)) as Hlen.
    assert (Hsum : (match g_sent g with Some _ => 0 | None => 1 end
                    <= sum_list ((fun g => match g_sent g with
                                           | Some _ => 0
                                           | None => 1
                                           end) <$> goroutines s))%nat).
    { rewrite Hgs, sum_list_fmap_app, sum_list_fmap_cons. lia. }
    assert (Hn : (length (goroutines s) <= length filePaths)%nat).
    { rewrite <- Hsp, length_app, length_fmap. lia. }
    lia.
  - rewrite <- Hsp, Hgs. set_solver.
Qed.

(** Replaces the list of goroutines by its parts around the one that
    moves from [g] to [g']. *)
Ltac split_goroutines Hg g' :=
  let l1 := fresh "l1" in
  let l2 := fresh "l2" in
  let Hgs := fresh "Hgs" in
  let Hins := fresh "Hins" in
  destruct (goroutines_split _ _ _ g' Hg) as (l1 & l2 & Hgs & Hins);
  rewrite Hins; clear Hins Hg; rewrite Hgs in *; clear Hgs;
  rewrite ?sum_list_fmap_app, ?sum_list_fmap_cons, ?fmap_app, ?fmap_cons,
    ?omap_app in *;
  cbn [omap list_omap g_path g_live g_sent g_measure g_sick] in *.

Lemma batch_goroutine_step_inv filePaths w0 encrypt key i s s' :
  (encrypt = false ->
   Forall (fun p => (10 <= String.length p)%nat) filePaths) ->
  batch_inv filePaths w0 s -> goroutine_step encrypt key i s = Some s' ->
  batch_inv filePaths w0 s' /\ batch_measure s = S (batch_measure s').
Proof.
  intros Hpaths Hinv.
  pose proof Hinv as
    (Hc & Hcap & Hsp & Hwg & (received & Hlog & Hperm & Hrec) & Hpw & Hcl & Hret & Hnp).
  unfold goroutine_step, batch_inv, batch_measure.
  destruct (goroutines s !! i) as [g|] eqn:Hg; [|done].
  pose proof (sum_sick_zero _ _ _ Hnp Hg) as Hsick.
  destruct g as [p|p e|p e|p e|p m|p m]; [| | |done|done|done].
  - (* the call *)
    destruct (live_goroutine_before_wait _ _ _ _ _ Hinv Hg eq_refl)
      as (Hbefore & _ & _ & _ & Hin).
    destruct (call_returns encrypt p key (world s)) as (r & w' & -> & Hr & Hl).
    { intros ->. specialize (Hpaths eq_refl).
      rewrite Forall_forall in Hpaths. by apply Hpaths. }
    destruct Hr as [->|[e ->]]; intros [= <-]; cbn.
    + split_goroutines Hg (g_send p None). split_inv.
      exists received. rewrite Hl. split_inv.
    + split_goroutines Hg (g_send p (Some e)). split_inv.
      exists received. rewrite Hl. split_inv.
  - (* the send *)
    destruct (live_goroutine_before_wait _ _ _ _ _ Hinv Hg eq_refl)
      as (Hbefore & Hopen & Hroom & _ & Hin).
    rewrite Hopen.
    apply Permutation_length in Hperm as Hlen. rewrite length_app in Hlen.
    cbn [g_sent] in Hroom.
    rewrite decide_True by lia. intros [= <-]. cbn.
    split_goroutines Hg (g_done p e). rewrite length_app. cbn [length].
    split_inv.
    + exists received. split_inv.
      rewrite app_assoc, Hperm, <- app_assoc.
      apply Permutation_app_head. symmetry. apply Permutation_cons_append.
    + congruence.
    + intros Hpc. by rewrite Hpc in Hbefore.
  - (* wg.Done() *)
    destruct (live_goroutine_before_wait _ _ _ _ _ Hinv Hg eq_refl)
      as (Hbefore & Hopen & _ & Hw1 & Hin).
    destruct (wg s - 1 <? 0) eqn:E; [lia|]. intros [= <-]. cbn.
    split_goroutines Hg (g_exited p e). split_inv.
    + exists received. split_inv.
    + rewrite Hbefore. done.
Qed.

Lemma batch_step_inv filePaths w0 encrypt key who s s' :
  (encrypt = false ->
   Forall (fun p => (10 <= String.length p)%nat) filePaths) ->
  batch_inv filePaths w0 s -> batch_step encrypt key who s = Some s' ->
  batch_inv filePaths w0 s' /\ batch_measure s = S (batch_measure s').
Proof.
  intros Hpaths Hinv. unfold batch_step.
  destruct Hinv as [Hc Hrest]. rewrite Hc.
  destruct who as [|i].
  - by apply batch_main_step_inv.
  - by apply batch_goroutine_step_inv.
Qed.

Lemma batch_inv_init filePaths w : batch_inv filePaths w (batch_init filePaths w).
Proof.
  unfold batch_inv, batch_init. cbn. split_inv.
  exists []. cbn. split_inv. by rewrite app_nil_r.
Qed.

Lemma batch_run_inv filePaths w0 encrypt key sched :
  (encrypt = false ->
   Forall (fun p => (10 <= String.length p)%nat) filePaths) ->
  forall s s',
    batch_inv filePaths w0 s -> batch_run encrypt key sched s = Some s' ->
    batch_inv filePaths w0 s' /\
    (length sched + batch_measure s')%nat = batch_measure s.
Proof.
  intros Hpaths. induction sched as [|who sched IH]; intros s s' Hinv Hrun.
  - injection Hrun as <-. done.
  - cbn [batch_run] in Hrun.
    destruct (batch_step encrypt key who s) as [s1|] eqn:Hstep; [|done].
    destruct (batch_step_inv _ _ _ _ _ _ _ Hpaths Hinv Hstep) as [Hinv1 Hm].
    destruct (IH _ _ Hinv1 Hrun) as [Hinv' Hm'].
    split; [done|]. cbn [length]. lia.
Qed.


Lemma exists_live (gs : list goroutine) :
  sum_list (g_live <$> gs) <> 0%nat ->
  exists i g, gs !! i = Some g /\ g_live g = 1%nat.
Proof.
  induction gs as [|g gs IH]; [done|].
  rewrite sum_list_fmap_cons. intros Hs.
  destruct (g_live g) as [|[|n]] eqn:E.
  - destruct IH as (i & g' & Hi & Hl); [lia|]. by exists (S i), g'.
  - by exists 0%nat, g.
  - by destruct g.
Qed.

(** Unless [processDotenvFiles] is at its end, somebody can move. *)
Lemma batch_progress filePaths w0 encrypt key s :
  batch_inv filePaths w0 s -> pc s <> pc_return ->
  exists who s', batch_step encrypt key who s = Some s'.
Proof.
  intros Hinv Hpc.
  pose proof Hinv as
    (Hc & Hcap & Hsp & Hwg & (received & Hlog & Hperm & Hrec) & Hpw & Hcl & Hret & Hnp).
  unfold batch_step. rewrite Hc.
  assert (Hmain : is_Some (main_step s) ->
                  exists who s', match who with
                                 | O => main_step s
                                 | S i => goroutine_step encrypt key i s
                                 end = Some s').
  { intros [s' Hs]. by exists 0%nat, s'. }
  destruct (pc s) as [[|p rest]| | | |] eqn:Epc; [| | | | |done].
  - apply Hmain. unfold main_step. rewrite Epc. eauto.
  - apply Hmain. unfold main_step. rewrite Epc. eauto.
  - destruct (decide (wg s = 0)) as [H0|Hn].
    { apply Hmain. unfold main_step. rewrite Epc, H0. eauto. }
    destruct (exists_live (goroutines s)) as (i & g & Hg & Hlive); [lia|].
    destruct (live_goroutine_before_wait _ _ _ _ _ Hinv Hg Hlive)
      as (_ & Hopen & Hroom & Hw1 & _).
    exists (S i). unfold goroutine_step. rewrite Hg.
    destruct g as [p|p e|p e|p e|p m|p m]; [| | |done| |].
    + destruct encrypt;
        [destruct (encryptFile p key (world s)) as [[?|?|?|?] w']
        |destruct (decryptFile p key (world s)) as [[?|?|?|?] w']]; eauto.
    + rewrite Hopen. cbn [g_sent] in Hroom.
      apply Permutation_length in Hperm. rewrite length_app in Hperm.
      rewrite decide_True by lia. eauto.
    + destruct (wg s - 1 <? 0) eqn:E; [lia | eauto].
    + destruct (wg s - 1 <? 0); eauto.
    + eauto.
  - apply Hmain. unfold main_step. rewrite Epc. eauto.
  - apply Hmain. unfold main_step. rewrite Epc, Hcl. cbn.
    destruct (channel s); eauto.
Qed.

(** From wherever a batch is, some schedule takes it to its end. *)
Lemma batch_completes filePaths w0 encrypt key :
  (encrypt = false ->
   Forall (fun p => (10 <= String.length p)%nat) filePaths) ->
  forall n s,
    batch_measure s = n -> batch_inv filePaths w0 s ->
    exists sched s',
      batch_run encrypt key sched s = Some s' /\ pc s' = pc_return.
Proof.
  intros Hpaths. induction n as [|n IH]; intros s Hm Hinv.
  - exists [], s. split; [done|].
    unfold batch_measure in Hm. destruct (pc s); cbn in Hm; (done || lia).
  - assert (pc s = pc_return \/ pc s <> pc_return) as [Hret|Hnot]
      by (destruct (pc s); (by left) || (by right)).
    { by exists [], s. }
    destruct (batch_progress _ _ encrypt key _ Hinv Hnot) as (who & s1 & Hstep).
    destruct (batch_step_inv _ _ _ _ _ _ _ Hpaths Hinv Hstep) as [Hinv1 Hm1].
    destruct (IH s1 ltac:(lia) Hinv1) as (sched & s' & Hrun & Hend).
    exists (who :: sched), s'. cbn [batch_run]. by rewrite Hstep.
Qed.

Lemma omap_sent_exited (gs : list goroutine) :
  (forall g, g ∈ gs -> exists p e, g = g_exited p e) ->
  omap id (omap g_sent gs) = omap g_err gs.
Proof.
  induction gs as [|g gs IH]; intros Hall; [done|].
  destruct (Hall g ltac:(set_solver)) as (p & e & ->).
  cbn. rewrite IH by (intros; apply Hall; set_solver). done.
Qed.





(** The paths that a scan returns are never shorter than the suffix. *)
Lemma getDotenvPaths_long_paths fuel folder encrypt w filePaths w' :
  getDotenvPaths fuel folder encrypt w = Some (Ok filePaths, w') ->
  encrypt = false ->
  Forall (fun p => (10 <= String.length p)%nat) filePaths.
Proof.
  intros Hrun ->. apply getDotenvPaths_inv in Hrun as (w0 & Hrun & _).
  destruct (getDotenvPaths_loop_sound w folder false fuel _ _ _ _
              (scan_inv_init w folder false) Hrun)
    as [(paths & [= <-] & _ & (_ & I2 & _))|(d & ? & _)]; [|done].
  apply Forall_forall. intros p Hp.
  destruct (I2 p Hp) as (d & entries & file & _ & _ & _ & _ & Hn & ->).
  rewrite !string_length_app, Hn. simpl. lia.
Qed.
(** ** Further properties of the padding *)

Lemma pkcs7Pad_positive data blockSize :
  0 < blockSize <= maxAlloc ->
  let padLen := blockSize - Z.rem (len data) blockSize in
  1 <= padLen <= blockSize /\
  pkcs7Pad data blockSize =
    Ok (data ++ replicate (Z.to_nat padLen) (byte_of_int padLen)).
Proof.
  intros Hb padLen. unfold maxAlloc in Hb.
  pose proof (len_nonneg data) as Hl.
  pose proof (Z.rem_bound_pos (len data) blockSize ltac:(lia) ltac:(lia)) as Hr.
  assert (Hp : 1 <= padLen <= blockSize) by (unfold padLen; lia).
  split; [done|].
  unfold pkcs7Pad. destruct (blockSize =? 0) eqn:E0; [lia|].
  fold padLen. rewrite int_wrap_small by lia.
  unfold bytes_Repeat, maxAlloc. destruct (padLen <? 0) eqn:E1; [lia|].
  destruct (2 ^ 48 <? padLen) eqn:E2; [lia | done].
Qed.

(** A block size so large that the padding cannot be allocated. *)
Lemma pkcs7Pad_huge data blockSize :
  maxAlloc + len data < blockSize < 2 ^ 63 ->
  exists msg, pkcs7Pad data blockSize = Panic msg.
Proof.
  intros Hb. unfold maxAlloc in Hb. pose proof (len_nonneg data) as Hl.
  unfold pkcs7Pad. destruct (blockSize =? 0) eqn:E0; [lia|].
  rewrite Z.rem_small by lia. rewrite int_wrap_small by lia.
  unfold bytes_Repeat, maxAlloc.
  destruct (blockSize - len data <? 0) eqn:E1; [lia|].
  destruct (2 ^ 48 <? blockSize - len data) eqn:E2; [|lia].
  cbn. eauto.
Qed.

(** X1. For every block size from 1 to [2 ^ 20], [pkcs7Pad] appends
    [padLen] bytes with [1 <= padLen <= blockSize] and makes the length
    a multiple of the block size.  The pad byte is [byte(padLen)], which
    keeps the low 8 bits only: [pkcs7Unpad] removes [padLen mod 256]
    bytes, so it gives the data back exactly when [padLen <= 255], which
    is always so for a block size of at most 255.  For a block size
    beyond the length of the data by more than the allocator hands out,
    the allocation of the padding panics and nothing is returned. *)
Theorem pkcs7Pad_any_block_size (data : list byte) (blockSize : Z) :
  (0 < blockSize <= 2 ^ 20 ->
   exists padLen padded,
     1 <= padLen <= blockSize /\
     pkcs7Pad data blockSize = Ok padded /\
     padded = data ++ replicate (Z.to_nat padLen) (byte_of_int padLen) /\
     Z.rem (len padded) blockSize = 0 /\
     pkcs7Unpad padded
     = Ok (take (Z.to_nat (len padded - padLen mod 256)) padded) /\
     (pkcs7Unpad padded = Ok data <-> padLen <= 255) /\
     (blockSize <= 255 -> pkcs7Unpad padded = Ok data)) /\
  (maxAlloc + len data < blockSize < 2 ^ 63 ->
   exists msg, pkcs7Pad data blockSize = Panic msg).
Proof.
  split; [|apply pkcs7Pad_huge].
  intros Hb.
  destruct (pkcs7Pad_positive data blockSize) as [Hp Hpad];
    [unfold maxAlloc; lia|].
  set (padLen := blockSize - Z.rem (len data) blockSize) in *.
  set (padded := data ++ replicate (Z.to_nat padLen) (byte_of_int padLen)).
  pose proof (len_nonneg data) as Hl.
  assert (Hlen : len padded = len data + padLen).
  { unfold padded. rewrite len_app, len_replicate. lia. }
  assert (Hmod : 0 <= padLen mod 256 < 256) by (apply Z.mod_pos_bound; lia).
  assert (Hle : padLen mod 256 <= padLen) by (apply Z.mod_le; lia).
  assert (Hun : pkcs7Unpad padded
                = Ok (take (Z.to_nat (len padded - padLen mod 256)) padded)).
  { rewrite pkcs7Unpad_spec.
    assert (Hlast : List.last padded "000"%byte = byte_of_int padLen)
      by (apply last_app_replicate; lia).
    rewrite Hlast, int_of_byte_of_int.
    rewrite decide_False; [done|].
    intros [Hnil|Hlt]; [|lia].
    apply (f_equal len) in Hnil. change (len []) with 0 in Hnil. lia. }
  assert (Hiff : pkcs7Unpad padded = Ok data <-> padLen <= 255).
  { rewrite Hun. split.
    - intros [= Ht]. apply (f_equal len) in Ht.
      unfold len at 1 in Ht. rewrite length_take in Ht.
      fold (len padded) in Ht. unfold len in *. 
      destruct (decide (padLen < 256)) as [?|Hbig]; [lia|].
      exfalso. assert (padLen mod 256 = padLen) by lia.
      rewrite Z.mod_small_iff in H by lia. lia.
    - intros Hsmall. rewrite Z.mod_small by lia. f_equal.
      rewrite Hlen. replace (len data + padLen - padLen) with (len data) by lia.
      unfold len, padded. rewrite Nat2Z.id. by rewrite take_app_length. }
  exists padLen, padded. repeat split; try done; try lia.
  - rewrite Hlen. clear Hun Hiff Hpad Hlen padded Hmod Hle.
    unfold padLen in *. rewrite Z.rem_mod_nonneg by lia.
    rewrite (Z.rem_mod_nonneg (len data)) in * by lia.
    replace (len data + (blockSize - len data mod blockSize))
      with ((len data / blockSize + 1) * blockSize)
      by (pose proof (Z.div_mod (len data) blockSize); lia).
    apply Z.mod_mul. lia.
  - apply Hiff.
  - apply Hiff.
  - intros Hsmall. apply Hiff. lia.
Qed.

(** X2. For a block size of zero or less, [pkcs7Pad] panics: on the
    division for zero, and in [bytes.Repeat] on the negative pad length
    otherwise. *)
Theorem pkcs7Pad_nonpositive_block_size (data : list byte) (blockSize : Z) :
  - 2 ^ 62 <= blockSize <= 0 ->
  exists msg, pkcs7Pad data blockSize = Panic msg.
Proof.
  intros Hb. unfold pkcs7Pad.
  destruct (blockSize =? 0) eqn:E0; [eauto|].
  apply Z.eqb_neq in E0.
  pose proof (len_nonneg data) as Hl.
  assert (Hr : 0 <= Z.rem (len data) blockSize < - blockSize).
  { replace (Z.rem (len data) blockSize)
      with (Z.rem (len data) (- blockSize))
      by (apply Z.rem_opp_r; lia).
    apply Z.rem_bound_pos; lia. }
  rewrite int_wrap_small by lia.
  unfold bytes_Repeat.
  destruct (blockSize - Z.rem (len data) blockSize <? 0) eqn:E1; [|lia].
  cbn. eauto.
Qed.

(** ** Further properties of the two file operations *)

Lemma string_app_length_ne (s t : string) :
  t <> EmptyString -> s +:+ t <> s.
Proof.
  intros Ht Heq. apply (f_equal String.length) in Heq.
  rewrite string_length_app in Heq. destruct t; [done|]. simpl in Heq. lia.
Qed.

(** Splits a statement on the outcome of a file operation into its
    parts and closes them from the case at hand. *)
Ltac outcome_cases :=
  repeat split; intros;
  try (tauto || done || lia || (by eauto));
  try by (repeat match goal with
             | H : _ /\ _ |- _ => destruct H
             | H : exists _, _ |- _ => destruct H
             end;
      (done || lia || congruence || eauto 10)).

(** *** Listings *)

Lemma create_entry_other path ds d :
  d <> path_dir path -> create_entry path ds !! d = ds !! d.
Proof.
  intros Hd. unfold create_entry.
  destruct (ds !! path_dir path) as [entries|]; [|done].
  destruct (has_entry _ _); [done|]. by rewrite lookup_insert_ne.
Qed.

Lemma elem_of_insert_entry file entries e :
  e ∈ insert_entry file entries <-> e = file \/ e ∈ entries.
Proof.
  induction entries as [|e0 rest IH]; cbn [insert_entry].
  - rewrite list_elem_of_singleton. split; [by left|].
    intros [?|H]; [done | by apply not_elem_of_nil in H].
  - destruct (String.ltb _ _).
    + rewrite !elem_of_cons. tauto.
    + rewrite !elem_of_cons, IH. tauto.
Qed.

(** What [create_entry] does to the listing of the directory of the
    path: nothing if the name is listed, else the entry of a regular
    file of that name is added. *)
Lemma create_entry_dir path ds entries :
  ds !! path_dir path = Some entries ->
  exists entries',
    create_entry path ds !! path_dir path = Some entries' /\
    (has_entry (path_base path) entries = true -> entries' = entries) /\
    (forall e, e ∈ entries' <->
               e ∈ entries \/
               (has_entry (path_base path) entries = false /\
                e = {| Name := path_base path; Type_ := ModeRegular |})).
Proof.
  intros Hd. unfold create_entry. rewrite Hd.
  destruct (has_entry _ _) eqn:Hh.
  - exists entries. split; [done|]. split; [done|]. intros e. split; [tauto|].
    by intros [?|[? _]].
  - eexists. rewrite lookup_insert_eq. split; [done|]. split; [done|].
    intros e. rewrite elem_of_insert_entry. tauto.
Qed.

(** The directory and the name of a path that was put together as the
    scan does it. *)
Lemma path_split_join (d name : string) :
  path_split name = (None, name) ->
  path_split (d +:+ "/" +:+ name) = (Some d, name).
Proof.
  intros Hn. induction d as [|c d IH].
  - let t := eval cbv in ("" +:+ "/" +:+ name) in
    change ("" +:+ "/" +:+ name) with t.
    cbn [path_split]. by rewrite Hn.
  - change (String c d +:+ "/" +:+ name) with (String c (d +:+ "/" +:+ name)).
    cbn [path_split]. by rewrite IH.
Qed.

Lemma path_dir_join (d name : string) :
  d <> EmptyString -> path_split name = (None, name) ->
  path_dir (d +:+ "/" +:+ name) = d /\ path_base (d +:+ "/" +:+ name) = name.
Proof.
  intros Hd Hn. unfold path_dir, path_base. rewrite (path_split_join _ _ Hn).
  by destruct d.
Qed.

(** *** The two operations, check by check *)

Lemma encryptFile_cases inputPath key w :
  encryptFile inputPath key w =
  if decide (inputPath ∈ unreadable w \/ files w !! inputPath = None)
  then (Err (fs_PathError "open" inputPath), w)
  else if negb (aes_key_ok key) then (Err (aes_KeySizeError (len key)), w)
  else if decide (length (entropy w) < 16)%nat then (Err rand_Error, w)
  else
    let output := inputPath +:+ SuffixEncrypted in
    let envelope :=
      take 16 (entropy w)
      ++ ciphertext_of key (take 16 (entropy w))
           (default [] (files w !! inputPath)) in
    let w1 := set_entropy (drop 16 (entropy w)) w in
    match write_faults w !! output with
    | Some fault_open => (Err (fs_PathError "open" output), w1)
    | Some (fault_after op n) =>
        (Err (fs_PathError op output), write_file output (take n envelope) w1)
    | None => (Ok tt, write_file output envelope w1)
    end.
Proof.
  destruct (decide _) as [Hno|Hyes].
  { unfold encryptFile, bind.
    destruct (os_ReadFile inputPath w) as [r w1] eqn:ER.
    apply os_ReadFile_inv in ER as [-> [(data & -> & Hr & Hf)| ->]]; [|done].
    destruct Hno; [done | congruence]. }
  assert (Hr : inputPath ∉ unreadable w) by tauto.
  destruct (files w !! inputPath) as [plaintext|] eqn:Hf; [|tauto].
  destruct (aes_key_ok key) eqn:Hk; cbn [negb]; cycle 1.
  { unfold encryptFile, bind, lift. rewrite (os_ReadFile_ok _ _ _ Hr Hf).
    unfold aes_NewCipher. by rewrite Hk. }
  destruct (decide (length (entropy w) < 16)%nat) as [He|He].
  { unfold encryptFile, bind, lift. rewrite (os_ReadFile_ok _ _ _ Hr Hf).
    rewrite (aes_NewCipher_ok _ Hk). unfold rand_Read.
    change (Z.to_nat aes_BlockSize) with 16%nat.
    rewrite decide_False by lia. done. }
  cbv zeta. change (default [] (Some plaintext)) with plaintext.
  unfold encryptFile, bind, lift.
  rewrite (os_ReadFile_ok _ _ _ Hr Hf), (aes_NewCipher_ok _ Hk).
  change (Z.to_nat aes_BlockSize) with 16%nat.
  rewrite (rand_Read_ok 16 w) by lia.
  rewrite pkcs7Pad_16.
  set (iv := take 16 (entropy w)).
  assert (Hiv : length iv = 16%nat) by (unfold iv; rewrite length_take; lia).
  unfold cipher_NewCBCEncrypter, cipher_NewCBC.
  cbn [aes_block BlockSize]. unfold len at 1. rewrite Hiv.
  change (Z.of_nat 16 =? aes_BlockSize) with true. cbv iota.
  fold (aes_block key).
  destruct (pkcs7Pad_len plaintext _ (pkcs7Pad_16 plaintext))
    as (_ & Hrem & _).
  rewrite (cbcEncrypter_CryptBlocks_ok _ _ _ Hrem).
  unfold os_WriteFile. cbn [write_faults set_entropy].
  fold (ciphertext_of key iv plaintext).
  by destruct (write_faults w !! _) as [[|op n]|].
Qed.

(** X3. [encryptFile] never panics.  It succeeds exactly when the input
    can be read, the key has 16, 24 or 32 bytes, the random device
    delivers 16 bytes and the output path can be written; the checks are
    made in this order and the first that fails gives the error.  No
    file other than the output is ever changed.  A call that fails
    before the write leaves the world as it was; one whose write fails
    has used up 16 random bytes, and has left the output as it was if it
    could not be opened, but holding the first bytes of the envelope, as
    many as were written, if it failed after the open. *)
Theorem encryptFile_outcome (inputPath : string) (key : list byte) (w : World) :
  let r := (encryptFile inputPath key w).1 in
  let w' := (encryptFile inputPath key w).2 in
  let readable :=
    (inputPath ∉ unreadable w) /\ is_Some (files w !! inputPath) in
  let output := inputPath +:+ SuffixEncrypted in
  let envelope :=
    take 16 (entropy w)
    ++ ciphertext_of key (take 16 (entropy w))
         (default [] (files w !! inputPath)) in
  (r = Ok tt \/ exists e, r = Err e) /\
  (r = Ok tt <->
   readable /\ aes_key_ok key = true /\ (16 <= length (entropy w))%nat /\
   output ∉ unwritable w) /\
  (forall q, q <> output -> files w' !! q = files w !! q) /\
  (r <> Ok tt ->
   (forall op n, write_faults w !! output <> Some (fault_after op n)) ->
   files w' = files w /\ dirs w' = dirs w) /\
  (~ readable -> r = Err (fs_PathError "open" inputPath) /\ w' = w) /\
  (readable -> aes_key_ok key = false ->
   r = Err (aes_KeySizeError (len key)) /\ w' = w) /\
  (readable -> aes_key_ok key = true -> (length (entropy w) < 16)%nat ->
   r = Err rand_Error /\ w' = w) /\
  (readable -> aes_key_ok key = true -> (16 <= length (entropy w))%nat ->
   write_faults w !! output = Some fault_open ->
   r = Err (fs_PathError "open" output) /\
   w' = set_entropy (drop 16 (entropy w)) w) /\
  (readable -> aes_key_ok key = true -> (16 <= length (entropy w))%nat ->
   forall op n,
     write_faults w !! output = Some (fault_after op n) ->
     r = Err (fs_PathError op output) /\
     w' = write_file output (take n envelope)
            (set_entropy (drop 16 (entropy w)) w)).
Proof.
  intros r w' readable output envelope. unfold r, w'.
  rewrite encryptFile_cases. cbv zeta. fold output envelope.
  assert (Hrd : readable <->
                ~ (inputPath ∈ unreadable w \/ files w !! inputPath = None)).
  { unfold readable. rewrite <- not_eq_None_Some. tauto. }
  rewrite unwritable_spec.
  destruct (decide _) as [Hno|Hyes]; cbn [fst snd].
  { outcome_cases. }
  assert (Hread : readable) by tauto.
  pose proof Hread as [Hr1 Hr2].
  destruct (aes_key_ok key) eqn:Hk; cbn [negb fst snd]; cycle 1.
  { outcome_cases. }
  destruct (decide (length (entropy w) < 16)%nat) as [He|He]; cbn [fst snd].
  { outcome_cases. }
  destruct (write_faults w !! output) as [[|op n]|] eqn:Hw; cbn [fst snd].
  - outcome_cases.
  - split; [by eauto|]. split; [by split; [|intros (_ & _ & _ & ?)]|].
    split; [by intros q Hq; cbn; rewrite lookup_insert_ne|].
    split; [by intros _ Hnot; destruct (Hnot op n)|].
    outcome_cases.
  - split; [by left|].
    split; [split; [intros _; repeat split; (done || lia) | done]|].
    split; [by intros q Hq; cbn; rewrite lookup_insert_ne|].
    outcome_cases.
Qed.

(** X4. A successful [encryptFile] leaves the plaintext file and every
    file other than its output as they were, replaces whatever the
    output path held by the envelope, and takes exactly the first 16
    bytes off the random stream.  The file may be new: if the directory
    of the output path has a listing without that name, the listing
    gets an entry for it; no other listing changes.  Nothing else in
    the world changes. *)
Theorem encryptFile_keeps_input
    (inputPath : string) (key : list byte) (w w' : World) :
  encryptFile inputPath key w = (Ok tt, w') ->
  let output := inputPath +:+ SuffixEncrypted in
  files w' !! inputPath = files w !! inputPath /\
  (forall q, q <> output -> files w' !! q = files w !! q) /\
  is_Some (files w' !! output) /\
  entropy w' = drop 16 (entropy w) /\
  unreadable w' = unreadable w /\ unwritable w' = unwritable w /\
  write_faults w' = write_faults w /\
  dirs w' = create_entry output (dirs w) /\
  (forall d, d <> path_dir output -> dirs w' !! d = dirs w !! d) /\
  (forall entries,
      dirs w !! path_dir output = Some entries ->
      exists entries',
        dirs w' !! path_dir output = Some entries' /\
        (has_entry (path_base output) entries = true -> entries' = entries) /\
        forall e, e ∈ entries' <->
                  e ∈ entries \/
                  (has_entry (path_base output) entries = false /\
                   e = {| Name := path_base output; Type_ := ModeRegular |})) /\
  stdin w' = stdin w /\ log w' = log w.
Proof.
  intros H output.
  destruct (encryptFile_inv _ _ _ _ H) as (P & Hr & Hf & Hk & He & Hw).
  rewrite (encryptFile_ok _ _ _ _ Hr Hf Hk He Hw) in H.
  injection H as <-. unfold unwritable.
  cbn [files write_file set_entropy entropy unreadable write_faults dirs
       stdin log]. fold output.
  repeat split; try done.
  - apply lookup_insert_ne. by apply string_app_length_ne.
  - intros q Hq. by apply lookup_insert_ne.
  - rewrite lookup_insert_eq. eauto.
  - intros d Hd. by apply create_entry_other.
  - intros entries Hd. by apply create_entry_dir.
Qed.

Lemma substring_length (s : string) n :
  (n <= String.length s)%nat -> String.length (String.substring 0 n s) = n.
Proof.
  revert n. induction s as [|a s IH]; intros [|n] Hn; simpl in *; try done.
  - lia.
  - rewrite IH; [done | lia].
Qed.

(** The path that [decryptFile] writes to. *)
Lemma string_slice_to_cut (inputPath : string) :
  string_slice_to inputPath
    (Z.of_nat (String.length inputPath)
     - Z.of_nat (String.length SuffixEncrypted))
  = if decide (String.length inputPath < 10)%nat
    then Panic "slice bounds out of range"
    else Ok (String.substring 0 (String.length inputPath - 10) inputPath).
Proof.
  unfold string_slice_to. change (String.length SuffixEncrypted) with 10%nat.
  destruct (decide _) as [Hs|Hl].
  - destruct (_ || _) eqn:E; [done|].
    apply orb_false_iff in E as [E _]. apply Z.ltb_ge in E. lia.
  - destruct (_ || _) eqn:E;
      [apply orb_true_iff in E as [E|E]; apply Z.ltb_lt in E; lia|].
    do 2 f_equal. lia.
Qed.

(** [decryptFile], check by check. *)
Lemma decryptFile_cases inputPath key w :
  decryptFile inputPath key w =
  if decide (inputPath ∈ unreadable w \/ files w !! inputPath = None)
  then (Err (fs_PathError "open" inputPath), w)
  else
    let data := default [] (files w !! inputPath) in
    if len data <? 16 then (Err io_ErrUnexpectedEOF, w)
    else if negb (aes_key_ok key) then (Err (aes_KeySizeError (len key)), w)
    else if negb (Z.rem (len data - 16) 16 =? 0)
    then (Err io_ErrUnexpectedEOF, w)
    else
      match pkcs7Unpad (decrypted_of key data) with
      | Ok unpadded =>
          if decide (String.length inputPath < 10)%nat
          then (Panic "slice bounds out of range", w)
          else
            let outputPath :=
              String.substring 0 (String.length inputPath - 10) inputPath in
            match write_faults w !! outputPath with
            | Some fault_open => (Err (fs_PathError "open" outputPath), w)
            | Some (fault_after op n) =>
                (Err (fs_PathError op outputPath),
                 write_file outputPath (take n unpadded) w)
            | None => (Ok tt, write_file outputPath unpadded w)
            end
      | Err e => (Err e, w)
      | Panic msg => (Panic msg, w)
      | Exit c => (Exit c, w)
      end.
Proof.
  destruct (decide _) as [Hno|Hyes].
  { unfold decryptFile, bind.
    destruct (os_ReadFile inputPath w) as [r w1] eqn:ER.
    apply os_ReadFile_inv in ER as [-> [(data & -> & Hr & Hf)| ->]]; [|done].
    destruct Hno; [done | congruence]. }
  assert (Hr : inputPath ∉ unreadable w) by tauto.
  destruct (files w !! inputPath) as [data|] eqn:Hf; [|tauto].
  cbv zeta. change (default [] (Some data)) with data.
  destruct (len data <? 16) eqn:Hlen.
  { apply (decryptFile_short _ _ _ data); (done || lia). }
  destruct (aes_key_ok key) eqn:Hk; cbn [negb]; cycle 1.
  { unfold decryptFile, bind, lift. rewrite (os_ReadFile_ok _ _ _ Hr Hf).
    unfold aes_BlockSize. rewrite Hlen.
    unfold slice_to, slice_from.
    destruct ((16 <? 0) || (len data <? 16)) eqn:E1;
      [apply orb_true_iff in E1 as [?|?]; lia|].
    unfold aes_NewCipher. by rewrite Hk. }
  destruct (Z.rem (len data - 16) 16 =? 0) eqn:Hal; cbn [negb]; cycle 1.
  { apply (decryptFile_misaligned _ _ _ data); (done || lia). }
  rewrite (decryptFile_aligned _ _ _ _ Hr Hf Hk) by lia.
  unfold bind at 1, lift at 1.
  destruct (pkcs7Unpad (decrypted_of key data)) as [unpadded|e|msg|c]; try done.
  unfold bind, lift. rewrite string_slice_to_cut.
  destruct (decide (String.length inputPath < 10)%nat); [done|].
  unfold os_WriteFile. by destruct (write_faults w !! _) as [[|? ?]|].
Qed.

(** X5. [decryptFile] succeeds exactly when the input can be read, has
    at least 16 bytes and a whole number of blocks after them, the key
    has a valid size, the padding removal accepts the decrypted data,
    the input path has at least the 10 characters of the suffix, and
    the path without them can be written; it then holds the data
    without the padding.  With a shorter path it panics instead, and
    only after everything else has been found in order, so that a bad
    file under a short path is an error, not a panic.  A key of an
    invalid size is noticed only after the length check.  A call that
    does not succeed leaves the world as it was, unless the write failed
    after the open: then the output file holds the bytes that were
    written until then. *)
Theorem decryptFile_outcome (inputPath : string) (key : list byte) (w : World) :
  let r := (decryptFile inputPath key w).1 in
  let w' := (decryptFile inputPath key w).2 in
  let data := default [] (files w !! inputPath) in
  let readable :=
    (inputPath ∉ unreadable w) /\ is_Some (files w !! inputPath) in
  let decodes :=
    readable /\ 16 <= len data /\ aes_key_ok key = true /\
    Z.rem (len data - 16) 16 = 0 /\
    exists unpadded, pkcs7Unpad (decrypted_of key data) = Ok unpadded in
  let outputPath :=
    String.substring 0 (String.length inputPath - 10) inputPath in
  (r = Ok tt <->
   decodes /\ (10 <= String.length inputPath)%nat /\
   outputPath ∉ unwritable w) /\
  ((exists msg, r = Panic msg) <->
   decodes /\ (String.length inputPath < 10)%nat) /\
  (forall c, r <> Exit c) /\
  (r <> Ok tt ->
   (forall op n, write_faults w !! outputPath <> Some (fault_after op n)) ->
   w' = w) /\
  (readable -> len data < 16 -> r = Err io_ErrUnexpectedEOF) /\
  (readable -> 16 <= len data -> aes_key_ok key = false ->
   r = Err (aes_KeySizeError (len key))) /\
  (forall unpadded,
      decodes -> pkcs7Unpad (decrypted_of key data) = Ok unpadded ->
      (10 <= String.length inputPath)%nat ->
      match write_faults w !! outputPath with
      | None => r = Ok tt /\ w' = write_file outputPath unpadded w
      | Some fault_open =>
          r = Err (fs_PathError "open" outputPath) /\ w' = w
      | Some (fault_after op n) =>
          r = Err (fs_PathError op outputPath) /\
          w' = write_file outputPath (take n unpadded) w
      end).
Proof.
  intros r w' data readable decodes outputPath.
  unfold r, w'. rewrite decryptFile_cases. fold data. cbv zeta.
  fold outputPath.
  assert (Hrd : readable <->
                ~ (inputPath ∈ unreadable w \/ files w !! inputPath = None)).
  { unfold readable. rewrite <- not_eq_None_Some. tauto. }
  unfold decodes. rewrite unwritable_spec.
  destruct (decide _) as [Hno|Hyes]; cbn [fst snd].
  { outcome_cases. }
  assert (Hread : readable) by tauto.
  pose proof Hread as [Hr1 Hr2].
  destruct (len data <? 16) eqn:Hlen; cbn [fst snd].
  { apply Z.ltb_lt in Hlen.
    outcome_cases. }
  apply Z.ltb_ge in Hlen.
  destruct (aes_key_ok key) eqn:Hk; cbn [negb fst snd]; cycle 1.
  { outcome_cases. }
  destruct (Z.rem (len data - 16) 16 =? 0) eqn:Hal; cbn [negb fst snd];
    cycle 1.
  { apply Z.eqb_neq in Hal.
    outcome_cases. }
  apply Z.eqb_eq in Hal.
  destruct (pkcs7Unpad (decrypted_of key data)) as [unpadded|e|msg|c] eqn:Hun.
  - destruct (decide (String.length inputPath < 10)%nat) as [Hs|Hl];
      cbn [fst snd].
    { outcome_cases. }
    destruct (write_faults w !! outputPath) as [[|op n]|] eqn:Hw;
      cbn [fst snd].
    + do 6 (split; [outcome_cases|]). by intros u _ [= <-] _.
    + split; [by split; [|intros (_ & _ & ?)]|].
      split; [by split; [intros [? ?]|intros [_ ?]; lia]|].
      split; [done|].
      split; [by intros _ Hnot; destruct (Hnot op n)|].
      do 2 (split; [outcome_cases|]). by intros u _ [= <-] _.
    + split; [split; [intros _; repeat split; (done || lia || eauto) | done]|].
      split; [by split; [intros [? ?]|intros [_ ?]; lia]|].
      do 4 (split; [outcome_cases|]). by intros u _ [= <-] _.
  - cbn [fst snd].
    outcome_cases.
  - exfalso. rewrite pkcs7Unpad_spec in Hun. by destruct (decide _).
  - exfalso. rewrite pkcs7Unpad_spec in Hun. by destruct (decide _).
Qed.

(** X6. Whatever its outcome, [decryptFile] leaves its input file and
    every file other than its output as they were, and changes neither
    the random stream nor the log nor what can be read and written.  Of
    the listings only that of the directory of the output path can
    change, by an entry for the output when the file is new. *)
Theorem decryptFile_keeps_input
    (inputPath : string) (key : list byte) (w : World) :
  let w' := (decryptFile inputPath key w).2 in
  let outputPath :=
    String.substring 0 (String.length inputPath - 10) inputPath in
  files w' !! inputPath = files w !! inputPath /\
  (forall q, q <> outputPath -> files w' !! q = files w !! q) /\
  entropy w' = entropy w /\
  unreadable w' = unreadable w /\ unwritable w' = unwritable w /\
  write_faults w' = write_faults w /\
  (dirs w' = dirs w \/ dirs w' = create_entry outputPath (dirs w)) /\
  (forall d, d <> path_dir outputPath -> dirs w' !! d = dirs w !! d) /\
  stdin w' = stdin w /\ log w' = log w.
Proof.
  intros w' outputPath. unfold w'. rewrite decryptFile_cases. cbv zeta.
  fold outputPath. unfold unwritable.
  repeat match goal with
         | |- context [if ?c then _ else _] => destruct c
         | |- context [match ?c with Ok _ => _ | _ => _ end] => destruct c
         | |- context [match ?c with Some _ => _ | None => _ end] =>
             destruct c as [[|? ?]|]
         end; cbn [fst snd]; try (by repeat split; auto);
    cbn [files write_file entropy unreadable write_faults dirs stdin log].
  - repeat split; try done; auto.
    + apply lookup_insert_ne. intros Heq.
      apply (f_equal String.length) in Heq. unfold outputPath in Heq.
      rewrite substring_length in Heq by lia. lia.
    + intros q Hq. by apply lookup_insert_ne.
    + intros d Hd. by apply create_entry_other.
  - repeat split; try done; auto.
    + apply lookup_insert_ne. intros Heq.
      apply (f_equal String.length) in Heq. unfold outputPath in Heq.
      rewrite substring_length in Heq by lia. lia.
    + intros q Hq. by apply lookup_insert_ne.
    + intros d Hd. by apply create_entry_other.
Qed.

(** ** Where the two functions write *)

(** C8. [encryptFile] writes to the input path followed by [-encrypted]
    and nowhere else, whether it succeeds or not; when the input can be
    read, the key has a valid size, sixteen random bytes are delivered
    and the output path can be written, it succeeds and that path holds
    the envelope; and when it succeeds that path is what it has written.
    [decryptFile] writes to the input path without its last 10
    characters (the length of the suffix) and nowhere else; when the
    input is readable, well formed and not shorter than the suffix, the
    key has a valid size and the output path can be written, it succeeds
    and that path holds the unpadded data; and when it succeeds that
    path is what it has written.  Cutting the suffix's length off a path
    that was extended with the suffix gives the path back. *)
Theorem output_path_suffix
    (inputPath : string) (key : list byte) (w : World) :
  (forall q, q <> inputPath +:+ "-encrypted" ->
             files (encryptFile inputPath key w).2 !! q = files w !! q) /\
  (forall plaintext,
      inputPath ∉ unreadable w -> files w !! inputPath = Some plaintext ->
      aes_key_ok key = true -> (16 <= length (entropy w))%nat ->
      (inputPath +:+ "-encrypted") ∉ unwritable w ->
      (encryptFile inputPath key w).1 = Ok tt /\
      files (encryptFile inputPath key w).2 !! (inputPath +:+ "-encrypted")
      = Some (take 16 (entropy w)
              ++ ciphertext_of key (take 16 (entropy w)) plaintext)) /\
  (forall w', encryptFile inputPath key w = (Ok tt, w') ->
              exists out,
                files w' = <[inputPath +:+ "-encrypted" := out]> (files w) /\
                files w' !! (inputPath +:+ "-encrypted") = Some out) /\
  (forall q, q <> String.substring 0 (String.length inputPath - 10) inputPath ->
             files (decryptFile inputPath key w).2 !! q = files w !! q) /\
  (forall data unpadded,
      inputPath ∉ unreadable w -> files w !! inputPath = Some data ->
      16 <= len data -> aes_key_ok key = true ->
      Z.rem (len data - 16) 16 = 0 ->
      pkcs7Unpad (decrypted_of key data) = Ok unpadded ->
      (10 <= String.length inputPath)%nat ->
      String.substring 0 (String.length inputPath - 10) inputPath
        ∉ unwritable w ->
      (decryptFile inputPath key w).1 = Ok tt /\
      files (decryptFile inputPath key w).2
        !! String.substring 0 (String.length inputPath - 10) inputPath
      = Some unpadded) /\
  (forall w', decryptFile inputPath key w = (Ok tt, w') ->
              (10 <= String.length inputPath)%nat /\
              exists out,
                files w' =
                <[String.substring 0 (String.length inputPath - 10) inputPath
                  := out]> (files w) /\
                files w'
                  !! String.substring 0 (String.length inputPath - 10) inputPath
                = Some out) /\
  string_slice_to (inputPath +:+ "-encrypted")
    (Z.of_nat (String.length (inputPath +:+ "-encrypted"))
     - Z.of_nat (String.length SuffixEncrypted)) = Ok inputPath /\
  String.substring 0 (String.length (inputPath +:+ "-encrypted") - 10)
    (inputPath +:+ "-encrypted") = inputPath.
Proof.
  split; [|split; [|split; [|split; [|split; [|split; [|split]]]]]].
  - intros q Hq. rewrite encryptFile_cases.
    destruct (decide _); [done|]. destruct (negb _); [done|].
    destruct (decide _); [done|]. cbv zeta.
    destruct (write_faults w !! _) as [[|? ?]|]; cbn; try done;
      by rewrite lookup_insert_ne.
  - intros plaintext Hr Hf Hk He Hw.
    rewrite (encryptFile_ok _ _ _ _ Hr Hf Hk He Hw). cbn.
    by rewrite lookup_insert_eq.
  - intros w' H.
    destruct (encryptFile_inv _ _ _ _ H) as (P & Hr & Hf & Hk & He & Hw).
    rewrite (encryptFile_ok _ _ _ _ Hr Hf Hk He Hw) in H.
    injection H as <-. eexists. cbn. split; [reflexivity|].
    by rewrite lookup_insert_eq.
  - intros q Hq. rewrite decryptFile_cases.
    destruct (decide _); [done|]. cbv zeta. destruct (_ <? _); [done|].
    destruct (negb _); [done|]. destruct (negb _); [done|].
    destruct (pkcs7Unpad _); try done. destruct (decide _); [done|].
    destruct (write_faults w !! _) as [[|? ?]|]; cbn; try done;
      by rewrite lookup_insert_ne.
  - intros data unpadded Hr Hf Hlen Hk Hrem Hun Hlong Hw.
    apply unwritable_spec in Hw.
    rewrite decryptFile_cases. rewrite decide_False by (rewrite Hf; intros [?|?]; done).
    cbv zeta. rewrite Hf. change (default [] (Some data)) with data.
    replace (len data <? 16) with false by (symmetry; apply Z.ltb_ge; lia).
    rewrite Hk. cbn [negb]. rewrite Hrem. cbn [Z.eqb negb]. rewrite Hun.
    rewrite decide_False by lia. rewrite Hw. cbn.
    by rewrite lookup_insert_eq.
  - intros w' H.
    destruct (decryptFile_inv _ _ _ _ H) as (unpadded & out & Hs & ->).
    unfold string_slice_to in Hs.
    change (String.length SuffixEncrypted) with 10%nat in Hs.
    destruct (_ || _) eqn:E; [done|].
    apply orb_false_iff in E as [E1 E2].
    apply Z.ltb_ge in E1, E2. split; [lia|].
    injection Hs as <-. exists unpadded.
    replace (Z.to_nat (Z.of_nat (String.length inputPath) - Z.of_nat 10))
      with (String.length inputPath - 10)%nat by lia.
    cbn. split; [reflexivity|]. by rewrite lookup_insert_eq.
  - apply string_slice_to_suffix.
  - rewrite string_length_app.
    replace (String.length inputPath + String.length "-encrypted" - 10)%nat
      with (String.length inputPath) by (cbn; lia).
    apply substring_app_l.
Qed.

Lemma byte_xor_comm a b : byte_xor a b = byte_xor b a.
Proof.
  unfold byte_xor.
  destruct (Byte.to_bits a) as (a0 & a1 & a2 & a3 & a4 & a5 & a6 & a7).
  destruct (Byte.to_bits b) as (b0 & b1 & b2 & b3 & b4 & b5 & b6 & b7).
  by rewrite (xorb_comm a0), (xorb_comm a1), (xorb_comm a2), (xorb_comm a3),
    (xorb_comm a4), (xorb_comm a5), (xorb_comm a6), (xorb_comm a7).
Qed.

Lemma XORBytes_inj_r x y y' :
  length y = length x -> length y' = length x ->
  subtle_XORBytes x y = subtle_XORBytes x y' -> y = y'.
Proof.
  unfold subtle_XORBytes. revert y y'.
  induction x as [|a x IH]; intros [|b y] [|b' y'] Hy Hy' Heq;
    simpl in *; try done.
  injection Heq as Hb Hrest.
  f_equal.
  - rewrite <- (byte_xor_cancel b a), <- (byte_xor_cancel b' a).
    by rewrite (byte_xor_comm b), (byte_xor_comm b'), Hb.
  - apply IH; (done || lia).
Qed.

Lemma ciphertext_of_first_block key iv plaintext :
  exists n x rest,
    length x = 16%nat /\
    ciphertext_of key iv plaintext
    = aes_encrypt key (subtle_XORBytes x iv)
      ++ cbcEncrypt_loop (aes_block key) n
           (aes_encrypt key (subtle_XORBytes x iv)) rest /\
    x = take 16 (plaintext ++ replicate (Z.to_nat (padLen16 plaintext))
                                        (byte_of_int (padLen16 plaintext))).
Proof.
  unfold ciphertext_of.
  destruct (pkcs7Pad_len plaintext _ (pkcs7Pad_16 plaintext))
    as (_ & Hrem & Hpos).
  set (padded := plaintext ++ _) in *.
  pose proof (len_16_blocks padded Hrem) as Hlen.
  destruct (Z.to_nat (len padded / 16)) as [|n] eqn:En.
  { unfold len in Hpos. lia. }
  exists n, (take 16 padded), (drop 16 padded).
  split; [rewrite length_take; lia|]. split; [|done].
  reflexivity.
Qed.

(** X7. Two encryptions of the same plaintext under the same key that
    get different bytes from the random device write envelopes that
    differ in the IV and also in the first block of the ciphertext. *)
Theorem encryptFile_iv_changes_ciphertext
    (inputPath : string) (key plaintext : list byte) (w1 w2 w1' w2' : World) :
  files w1 !! inputPath = Some plaintext ->
  files w2 !! inputPath = Some plaintext ->
  encryptFile inputPath key w1 = (Ok tt, w1') ->
  encryptFile inputPath key w2 = (Ok tt, w2') ->
  take 16 (entropy w1) <> take 16 (entropy w2) ->
  exists iv1 c1 iv2 c2,
    files w1' !! (inputPath +:+ SuffixEncrypted) = Some (iv1 ++ c1) /\
    files w2' !! (inputPath +:+ SuffixEncrypted) = Some (iv2 ++ c2) /\
    length iv1 = 16%nat /\ length iv2 = 16%nat /\
    iv1 <> iv2 /\ take 16 c1 <> take 16 c2.
Proof using aes_encrypt_length aes_decrypt_encrypt.
  intros Hf1 Hf2 H1 H2 Hne.
  destruct (encryptFile_inv _ _ _ _ H1) as (P1 & Hr1 & Hf1' & Hk & He1 & Hw1).
  destruct (encryptFile_inv _ _ _ _ H2) as (P2 & Hr2 & Hf2' & _ & He2 & Hw2).
  rewrite (encryptFile_ok _ _ _ _ Hr1 Hf1 Hk He1 Hw1) in H1.
  rewrite (encryptFile_ok _ _ _ _ Hr2 Hf2 Hk He2 Hw2) in H2.
  injection H1 as <-. injection H2 as <-.
  set (iv1 := take 16 (entropy w1)) in *.
  set (iv2 := take 16 (entropy w2)) in *.
  assert (Hiv1 : length iv1 = 16%nat) by (unfold iv1; rewrite length_take; lia).
  assert (Hiv2 : length iv2 = 16%nat) by (unfold iv2; rewrite length_take; lia).
  exists iv1, (ciphertext_of key iv1 plaintext),
         iv2, (ciphertext_of key iv2 plaintext).
  cbn [files write_file set_entropy]. rewrite !lookup_insert_eq.
  repeat split; try done.
  destruct (ciphertext_of_first_block key iv1 plaintext)
    as (n1 & x & rest1 & Hx & -> & Hx1).
  destruct (ciphertext_of_first_block key iv2 plaintext)
    as (n2 & x' & rest2 & _ & -> & Hx2).
  assert (x' = x) as -> by congruence.
  assert (Hl1 : length (subtle_XORBytes x iv1) = 16%nat)
    by (rewrite XORBytes_length; congruence).
  assert (Hl2 : length (subtle_XORBytes x iv2) = 16%nat)
    by (rewrite XORBytes_length; congruence).
  rewrite !take_app_length' by (by rewrite aes_encrypt_length).
  intros Heq. apply Hne.
  apply (f_equal (aes_decrypt key)) in Heq.
  rewrite !aes_decrypt_encrypt in Heq by done.
  apply (XORBytes_inj_r x); congruence.
Qed.

(** ** Further properties of the scan *)

Lemma walk_loop w encrypt depth :
  forall d paths,
    walk depth w encrypt d = Some paths ->
    forall rest filePaths,
    exists fuel, forall m,
      getDotenvPaths_loop (fuel + m) encrypt (rest ++ [d]) filePaths w
      = getDotenvPaths_loop m encrypt rest (filePaths ++ paths) w.
Proof.
  induction depth as [|depth IH]; intros d paths Hwalk rest filePaths;
    [done|].
  cbn [walk] in Hwalk.
  destruct (dirs w !! d) as [files|] eqn:Hd; [|done].
  destruct (mapM _ _) as [deeper|] eqn:Hdeep; [|done].
  injection Hwalk as <-.
  assert (Hlist : forall cs pss,
             mapM (walk depth w encrypt) (rev cs) = Some pss ->
             forall rest filePaths,
             exists fuel, forall m,
               getDotenvPaths_loop (fuel + m) encrypt (rest ++ cs) filePaths w
               = getDotenvPaths_loop m encrypt rest
                   (filePaths ++ concat pss) w).
  { clear -IH. intros cs.
    induction cs as [|c cs IHcs] using rev_ind; intros pss Hm rest filePaths.
    - injection Hm as <-. exists 0%nat. intros m.
      by rewrite !app_nil_r.
    - rewrite rev_app_distr in Hm. cbn [rev app mapM] in Hm.
      destruct (walk depth w encrypt c) as [ps|] eqn:Hc; [|done].
      cbn in Hm.
      destruct (mapM (walk depth w encrypt) (rev cs)) as [pss'|] eqn:Hcs;
        [|done].
      injection Hm as <-.
      destruct (IH c ps Hc (rest ++ cs) filePaths) as (fuel1 & H1).
      destruct (IHcs pss' eq_refl rest (filePaths ++ ps)) as (fuel2 & H2).
      exists (fuel1 + fuel2)%nat. intros m.
      rewrite app_assoc, <- Nat.add_assoc, H1, H2.
      cbn [concat]. by rewrite app_assoc. }
  destruct (Hlist _ _ Hdeep rest (filePaths ++ found d encrypt files))
    as (fuel & H).
  exists (S fuel). intros m. change (S fuel + m)%nat with (S (fuel + m)).
  rewrite getDotenvPaths_loop_snoc, Hd, H. by rewrite app_assoc.
Qed.

Lemma walk_total w encrypt depth :
  forall d,
    (forall x, below w d x -> is_Some (dirs w !! x)) ->
    (path_bound w + 2 - String.length d <= depth)%nat ->
    is_Some (walk depth w encrypt d).
Proof.
  induction depth as [|depth IH]; intros d Hall Hdepth.
  - destruct (Hall d (below_here w d)) as [files Hd].
    apply dirs_path_bound in Hd. lia.
  - cbn [walk].
    destruct (Hall d (below_here w d)) as [files Hd]. rewrite Hd.
    assert (Hsub : is_Some (mapM (walk depth w encrypt)
                                 (rev (subdirs d files)))).
    { apply mapM_is_Some, Forall_forall. intros c Hc.
      apply list_elem_of_In, in_rev, list_elem_of_In in Hc.
      apply elem_of_subdirs in Hc as (file & Hin & Hdir & ->).
      apply IH.
      - intros x Hx. apply Hall. by eapply below_sub.
      - apply dirs_path_bound in Hd.
        rewrite !string_length_app. simpl. lia. }
    destruct Hsub as [deeper ->]. eauto.
Qed.

(** X8. The scan with its explicit stack returns what the depth-first
    walk by recursion returns, in the same order: for each directory
    its own matches in the order of the listing, then those of its
    subdirectories from the last listed to the first. *)
Theorem getDotenvPaths_depth_first
    (w : World) (folder : string) (encrypt : bool) (paths : list string) :
  (exists depth, walk depth w encrypt folder = Some paths) <->
  (exists fuel,
      getDotenvPaths fuel folder encrypt w
      = Some (Ok paths, add_log (log_Paths paths) w)).
Proof.
  split.
  - intros (depth & Hwalk).
    destruct (walk_loop w encrypt depth folder paths Hwalk [] [])
      as (fuel & H).
    exists fuel. specialize (H 0%nat).
    rewrite Nat.add_0_r, getDotenvPaths_loop_nil in H.
    by rewrite (getDotenvPaths_of_loop _ _ _ _ _ _ H).
  - intros (fuel & Hrun).
    apply getDotenvPaths_inv in Hrun as (w0 & Hrun & _).
    destruct (getDotenvPaths_loop_sound w folder encrypt fuel _ _ _ _
                (scan_inv_init w folder encrypt) Hrun)
      as [(paths' & [= <-] & -> & (_ & _ & _ & I4))|(d & ? & _)]; [|done].
    assert (Hall : forall x, below w folder x -> is_Some (dirs w !! x)).
    { intros x Hx. destruct (I4 x Hx) as [?|(s & Hs & _)]; [done|].
      by apply not_elem_of_nil in Hs. }
    destruct (walk_total w encrypt _ folder Hall (Nat.le_refl _))
      as [paths' Hwalk].
    eexists. rewrite Hwalk. f_equal.
    destruct (walk_loop w encrypt _ folder paths' Hwalk [] []) as (fuel' & H).
    specialize (H 0%nat).
    rewrite Nat.add_0_r, getDotenvPaths_loop_nil in H.
    cbn [app] in H.
    pose proof (getDotenvPaths_loop_fuel_irrelevant _ _ _ _ _ _ _ _ H Hrun).
    congruence.
Qed.

Lemma string_app_nil_r (s : string) : s +:+ "" = s.
Proof.
  induction s as [|a s IH]; [done|].
  change (String a s +:+ "") with (String a (s +:+ "")). by rewrite IH.
Qed.

Lemma string_app_assoc (s t u : string) : (s +:+ t) +:+ u = s +:+ (t +:+ u).
Proof.
  induction s as [|a s IH]; [done|].
  change (String a ((s +:+ t) +:+ u) = String a (s +:+ (t +:+ u))).
  by rewrite IH.
Qed.

Lemma below_extends w folder d :
  below w folder d -> exists sub, d = folder +:+ sub.
Proof.
  induction 1 as [folder|folder entries file d Hl Hin Hdir Hb [sub ->]].
  - exists "". by rewrite string_app_nil_r.
  - exists ("/" +:+ Name file +:+ sub). by rewrite !string_app_assoc.
Qed.

(** X9. Every path that a scan returns is the folder, followed by the
    names of the directories gone through, followed by [/.env] when
    encrypting and [/.env-encrypted] when decrypting.  So the path that
    [encryptFile] writes for a path of the encrypting scan has the form
    that the decrypting scan returns, and for a path of the decrypting
    scan the cut that [decryptFile] makes removes exactly the suffix and
    leaves the path of the [.env] file beside it. *)
Theorem getDotenvPaths_path_form
    (fuel : nat) (folder : string) (encrypt : bool) (w w' : World)
    (filePaths : list string) (p : string) :
  getDotenvPaths fuel folder encrypt w = Some (Ok filePaths, w') ->
  p ∈ filePaths ->
  exists sub,
    p = folder +:+ sub +:+ "/" +:+ (if encrypt then ".env" else ".env-encrypted") /\
    (encrypt = true ->
     p +:+ SuffixEncrypted = folder +:+ sub +:+ "/.env-encrypted") /\
    (encrypt = false ->
     string_slice_to p
       (Z.of_nat (String.length p) - Z.of_nat (String.length SuffixEncrypted))
     = Ok (folder +:+ sub +:+ "/.env")).
Proof.
  intros Hrun Hp. apply getDotenvPaths_inv in Hrun as (w0 & Hrun & _).
  destruct (getDotenvPaths_loop_sound w folder encrypt fuel _ _ _ _
              (scan_inv_init w folder encrypt) Hrun)
    as [(paths & [= <-] & _ & (_ & I2 & _))|(d & ? & _)]; [|done].
  destruct (I2 p Hp) as (d & entries & file & Hb & _ & _ & _ & Hn & ->).
  destruct (below_extends _ _ _ Hb) as [sub ->].
  exists sub. rewrite Hn. unfold marker.
  split; [by rewrite !string_app_assoc|]. split.
  - intros ->. by rewrite !string_app_assoc.
  - intros ->.
    replace ((folder +:+ sub) +:+ "/" +:+ ".env-encrypted")
      with ((folder +:+ sub +:+ "/.env") +:+ SuffixEncrypted)
      by (by rewrite !string_app_assoc).
    apply string_slice_to_suffix.
Qed.

(** ** Properties of [main] *)

Lemma below_same_dirs_iff w1 w2 folder d :
  dirs w1 = dirs w2 -> below w1 folder d <-> below w2 folder d.
Proof. intros Hd. split; by apply below_same_dirs. Qed.

(** What a run of [main] has gone through when it ends. *)
Lemma main_inv fuel sched encrypt folder w r w' :
  main fuel sched encrypt folder w = Some (r, w') ->
  (stdin w = None /\ r = Exit 1 /\
   w' = add_log (log_Fatal None) (add_log log_Prompt w)) \/
  (exists K,
      stdin w = Some K /\
      let w1 := add_log (log_Key (deriveKey K)) (add_log log_Prompt w) in
      (exists d,
          below w folder d /\ dirs w !! d = None /\ r = Exit 1 /\
          w' = add_log (log_Fatal (Some (fs_PathError "open" d))) w1) \/
      (exists filePaths s,
          getDotenvPaths fuel folder encrypt w1
          = Some (Ok filePaths, add_log (log_Paths filePaths) w1) /\
          batch_run encrypt (deriveKey K) sched
            (batch_init filePaths (add_log (log_Paths filePaths) w1)) = Some s /\
          batch_inv filePaths (add_log (log_Paths filePaths) w1) s /\
          pc s = pc_return /\ r = Ok tt /\
          w' = add_log log_Done (world s) /\
          (forall d, below w folder d -> is_Some (dirs w !! d)))).
Proof.
  unfold main. rewrite getPassphrase_spec.
  destruct (stdin w) as [K|]; [|intros [= <- <-]; by left].
  intros Hrun. right. exists K. split; [done|]. cbv zeta.
  set (w1 := add_log (log_Key (deriveKey K)) (add_log log_Prompt w)) in *.
  destruct (getDotenvPaths fuel folder encrypt w1) as [[r1 w2]|] eqn:Hscan;
    [|done].
  pose proof Hscan as Hscan'.
  apply getDotenvPaths_inv in Hscan' as (w0 & Hloop & Hw2).
  destruct (getDotenvPaths_loop_sound w1 folder encrypt fuel _ _ _ _
              (scan_inv_init w1 folder encrypt) Hloop)
    as [(paths & -> & -> & (_ & _ & _ & I4))|(d & -> & Hb & Hd & ->)].
  - right. subst w2.
    assert (Hpaths : encrypt = false ->
                     Forall (fun p => (10 <= String.length p)%nat) paths)
      by (by eapply getDotenvPaths_long_paths).
    unfold processDotenvFiles in Hrun.
    destruct (batch_run _ _ _ _) as [s|] eqn:Hbatch; [|done].
    destruct (batch_run_inv _ _ _ _ _ Hpaths _ _
                (batch_inv_init paths (add_log (log_Paths paths) w1)) Hbatch)
      as [Hinv _].
    pose proof Hinv as (Hc & _). rewrite Hc in Hrun.
    exists paths, s.
    destruct (pc s) eqn:Hpc; try done.
    injection Hrun as <- <-.
    split; [done|]. do 5 (split; [done|]).
    intros d Hd. apply (below_same_dirs w w1) in Hd; [|done].
    destruct (I4 d Hd) as [?|(x & Hx & _)]; [done|].
    by apply not_elem_of_nil in Hx.
  - left. subst w2. injection Hrun as <- <-.
    exists d. repeat split; try done. by apply (below_same_dirs w1 w).
Qed.

(** X10. [main] never panics and never ends with an error value: a run
    that ends has either returned, and then the passphrase was read,
    every directory below the folder could be listed and the last line
    logged is [Done.], or it has ended the process with status 1, and
    then the passphrase could not be read or some directory could not be
    listed, and no file was changed.  With enough fuel and a schedule
    that lets everybody finish, a run does end. *)
Theorem main_outcomes (encrypt : bool) (folder : string) (w : World) :
  (forall fuel sched r w',
      main fuel sched encrypt folder w = Some (r, w') ->
      (r = Ok tt /\ last (log w') = Some log_Done /\ is_Some (stdin w) /\
       forall d, below w folder d -> is_Some (dirs w !! d))
      \/ (r = Exit 1 /\ files w' = files w /\
          (stdin w = None \/
           exists d, below w folder d /\ dirs w !! d = None))) /\
  (exists fuel sched r w',
      main fuel sched encrypt folder w = Some (r, w')).
Proof.
  split.
  - intros fuel sched r w' Hrun.
    destruct (main_inv _ _ _ _ _ _ _ Hrun)
      as [(Hin & -> & ->)|(K & Hin & [(d & Hb & Hd & -> & ->)
                                    |(paths & s & _ & _ & _ & _ & -> & -> & Hall)])].
    + right. eauto.
    + right. eauto 10.
    + left. split; [done|]. split; [|by eauto].
      cbn [log add_log]. apply last_snoc.
  - unfold main. rewrite getPassphrase_spec.
    destruct (stdin w) as [K|]; [|by exists 0%nat, [], (Exit 1); eexists].
    set (w1 := add_log (log_Key (deriveKey K)) (add_log log_Prompt w)).
    destruct (getDotenvPaths_loop_terminates w1 folder encrypt)
      as (fuel & r1 & w2 & Hloop & _).
    exists fuel.
    rewrite (getDotenvPaths_of_loop _ _ _ _ _ _ Hloop).
    destruct (getDotenvPaths_loop_sound w1 folder encrypt fuel _ _ _ _
                (scan_inv_init w1 folder encrypt) Hloop)
      as [(paths & -> & -> & _)|(d & -> & _)]; [|by exists []; eexists _, _].
    set (w2 := add_log (log_Paths paths) w1).
    assert (Hpaths : encrypt = false ->
                     Forall (fun p => (10 <= String.length p)%nat) paths).
    { eapply getDotenvPaths_long_paths.
      apply (getDotenvPaths_of_loop _ _ _ _ _ _ Hloop). }
    destruct (batch_completes paths w2 encrypt (deriveKey K) Hpaths _ _ eq_refl
                (batch_inv_init paths w2)) as (sched & s & Hbatch & Hend).
    destruct (batch_run_inv _ _ _ _ _ Hpaths _ _ (batch_inv_init paths w2)
                Hbatch) as [(Hc & _) _].
    exists sched. unfold processDotenvFiles. rewrite Hbatch, Hc, Hend.
    by eexists _, _.
Qed.

(** X11. A run of [main] in which a passphrase is read leaves the AES
    key derived from it in the log, right after the prompt, however the
    run goes on; the lines that the log had before stay. *)
Theorem main_logs_key
    (fuel : nat) (sched : list nat) (encrypt : bool) (folder K : string)
    (w w' : World) (r : result unit) :
  stdin w = Some K ->
  main fuel sched encrypt folder w = Some (r, w') ->
  exists more,
    log w' = log w ++ log_Prompt :: log_Key (deriveKey K) :: more.
Proof.
  intros Hin Hrun.
  destruct (main_inv _ _ _ _ _ _ _ Hrun)
    as [(Hno & _)|(K' & Hin' & [(d & _ & _ & _ & ->)
                              |(paths & s & _ & _ & Hinv & _ & _ & -> & _)])];
    [congruence| |].
  - assert (K' = K) as -> by congruence.
    eexists. cbn [log add_log]. by rewrite <- !app_assoc.
  - assert (K' = K) as -> by congruence.
    destruct Hinv as (_ & _ & _ & _ & (received & Hlog & _) & _).
    eexists. cbn [log add_log] in *. rewrite Hlog. cbn [log add_log].
    by rewrite <- !app_assoc.
Qed.

(** ** Listings and the order of writes *)

Lemma ltb_total (x y : string) :
  x <> y -> String.ltb x y = negb (String.ltb y x).
Proof.
  intros Hne. unfold String.ltb. rewrite (String.compare_antisym x y).
  destruct (String.compare y x) eqn:E; try done.
  apply String.compare_eq_iff in E. congruence.
Qed.

Lemma ltb_trans (x y z : string) :
  String.ltb x y = true -> String.ltb y z = true -> String.ltb x z = true.
Proof.
  unfold String.ltb. intros Hxy Hyz.
  assert (Hlt : forall a b, match String.compare a b with
                            | Lt => true
                            | _ => false
                            end = true ->
                            OrderedTypeEx.String_as_OT.lt a b).
  { intros a b H. apply OrderedTypeEx.String_as_OT.cmp_lt.
    change (OrderedTypeEx.String_as_OT.cmp a b) with (String.compare a b).
    by destruct (String.compare a b). }
  pose proof (OrderedTypeEx.String_as_OT.lt_trans _ _ _ (Hlt _ _ Hxy) (Hlt _ _ Hyz))
    as Hxz.
  apply OrderedTypeEx.String_as_OT.cmp_lt in Hxz.
  change (OrderedTypeEx.String_as_OT.cmp x z) with (String.compare x z) in Hxz.
  by rewrite Hxz.
Qed.

Lemma insert_entry_comm (f g : DirEntry) (l : list DirEntry) :
  Name f <> Name g ->
  insert_entry f (insert_entry g l) = insert_entry g (insert_entry f l).
Proof.
  intros Hne. pose proof (ltb_total _ _ Hne) as Hfg.
  assert (Hgf : String.ltb (Name g) (Name f) = negb (String.ltb (Name f) (Name g)))
    by (rewrite Hfg; by destruct (String.ltb (Name g) (Name f))).
  induction l as [|e l IH]; cbn [insert_entry].
  - rewrite Hgf. by destruct (String.ltb (Name f) (Name g)).
  - destruct (String.ltb (Name g) (Name e)) eqn:Ege,
             (String.ltb (Name f) (Name e)) eqn:Efe; cbn [insert_entry];
      rewrite ?Ege, ?Efe.
    + rewrite Hgf. by destruct (String.ltb (Name f) (Name g)).
    + destruct (String.ltb (Name f) (Name g)) eqn:E; [|done].
      by rewrite (ltb_trans _ _ _ E Ege) in Efe.
    + destruct (String.ltb (Name g) (Name f)) eqn:E; [|done].
      by rewrite (ltb_trans _ _ _ E Efe) in Ege.
    + by rewrite IH.
Qed.

Lemma has_entry_insert (n : string) (f : DirEntry) (l : list DirEntry) :
  has_entry n (insert_entry f l) = String.eqb (Name f) n || has_entry n l.
Proof.
  unfold has_entry. induction l as [|e l IH]; cbn [insert_entry existsb].
  - done.
  - destruct (String.ltb _ _); cbn [existsb]; [done|].
    rewrite IH. by destruct (String.eqb (Name e) n), (String.eqb (Name f) n).
Qed.

(** Two files can be created in the one order or in the other. *)
Lemma create_entry_comm (p q : string) (ds : gmap string (list DirEntry)) :
  create_entry p (create_entry q ds) = create_entry q (create_entry p ds).
Proof.
  destruct (decide (path_dir p = path_dir q)) as [Hd|Hd].
  - unfold create_entry. rewrite <- Hd.
    destruct (ds !! path_dir p) as [entries|] eqn:Hl; [|by rewrite Hl].
    destruct (has_entry (path_base p) entries) eqn:Hp,
             (has_entry (path_base q) entries) eqn:Hq;
      rewrite ?Hl, ?lookup_insert_eq, ?Hp, ?Hq, ?has_entry_insert;
      cbn [Name]; rewrite ?Hp, ?Hq, ?orb_true_r; try done.
    destruct (decide (path_base p = path_base q)) as [Hb|Hb].
    + rewrite Hb, String.eqb_refl. done.
    + assert (E1 : String.eqb (path_base q) (path_base p) = false)
        by (apply String.eqb_neq; congruence).
      assert (E2 : String.eqb (path_base p) (path_base q) = false)
        by (by apply String.eqb_neq).
      rewrite E1, E2. cbn [orb]. rewrite !insert_insert_eq.
      by rewrite insert_entry_comm.
  - assert (Hd' : path_dir q <> path_dir p) by congruence.
    unfold create_entry at 1 3.
    rewrite !create_entry_other by done.
    unfold create_entry.
    destruct (ds !! path_dir p) as [ep|] eqn:Hp;
      destruct (ds !! path_dir q) as [eq|] eqn:Hq; try done;
      destruct (has_entry (path_base p) ep) eqn:Hhp; try done;
      destruct (has_entry (path_base q) eq) eqn:Hhq; try done;
      rewrite ?lookup_insert_ne, ?Hp, ?Hq, ?Hhp, ?Hhq by done; try done.
    by apply insert_insert_ne.
Qed.

Section Calls.

(** The calls of a batch, and what they do to the listings: each one
    creates a file of its own, or none. *)
Variable call : string -> M unit.
Variable w0 : World.

Hypothesis call_effect :
  forall p, exists (b : bool) (out : string),
    forall ds, dirs_after call w0 p ds
               = if b then create_entry out ds else ds.

Lemma dirs_after_comm p q ds :
  dirs_after call w0 p (dirs_after call w0 q ds)
  = dirs_after call w0 q (dirs_after call w0 p ds).
Proof using call_effect.
  destruct (call_effect p) as (bp & op & Hp).
  destruct (call_effect q) as (bq & oq & Hq).
  rewrite !Hp, !Hq. destruct bp, bq; try done. apply create_entry_comm.
Qed.

Lemma dirs_after_foldr p gs ds :
  dirs_after call w0 p
    (foldr (fun g ds => if g_called g then dirs_after call w0 (g_path g) ds
                        else ds) ds gs)
  = foldr (fun g ds => if g_called g then dirs_after call w0 (g_path g) ds
                       else ds) (dirs_after call w0 p ds) gs.
Proof using call_effect.
  induction gs as [|g gs IH]; [done|]. cbn [foldr].
  destruct (g_called g); [|done]. by rewrite dirs_after_comm, IH.
Qed.

(** The call of a goroutine, in whatever order it comes. *)
Lemma dirs_of_calls_call gs i p g' :
  gs !! i = Some (g_call p) -> g_called g' = true -> g_path g' = p ->
  dirs_of_calls call w0 (<[i := g']> gs)
  = dirs_after call w0 p (dirs_of_calls call w0 gs).
Proof using call_effect.
  intros Hg Hc Hp.
  destruct (goroutines_split gs i _ g' Hg) as (l1 & l2 & -> & ->).
  unfold dirs_of_calls. rewrite !foldr_app. cbn [foldr g_called].
  rewrite Hc, Hp. symmetry. apply dirs_after_foldr.
Qed.

Lemma dirs_of_calls_replace gs i g g' :
  gs !! i = Some g -> g_called g' = g_called g -> g_path g' = g_path g ->
  dirs_of_calls call w0 (<[i := g']> gs) = dirs_of_calls call w0 gs.
Proof.
  intros Hg Hc Hp.
  destruct (goroutines_split gs i _ g' Hg) as (l1 & l2 & -> & ->).
  unfold dirs_of_calls. rewrite !foldr_app. cbn [foldr]. by rewrite Hc, Hp.
Qed.

Lemma dirs_of_calls_spawn gs p :
  dirs_of_calls call w0 (gs ++ [g_call p]) = dirs_of_calls call w0 gs.
Proof. unfold dirs_of_calls. by rewrite foldr_app. Qed.

Lemma dirs_of_calls_all gs :
  (forall g, g ∈ gs -> g_called g = true) ->
  dirs_of_calls call w0 gs
  = foldr (dirs_after call w0) (dirs w0) (g_path <$> gs).
Proof.
  unfold dirs_of_calls. induction gs as [|g gs IH]; intros Hall; [done|].
  rewrite fmap_cons. cbn [foldr].
  rewrite (Hall g (list_elem_of_here _ _)), IH; [done|].
  intros g' Hg'. apply Hall. by apply list_elem_of_further.
Qed.

End Calls.

(** ** Further properties of the batch *)

(** What a write leaves. *)
Lemma written_to_lookup out written w1 w2 :
  files w1 !! out = files w2 !! out ->
  files (written_to out written w1) !! out
  = files (written_to out written w2) !! out.
Proof.
  intros H. destruct written as [content|]; [|done].
  cbn. by rewrite !lookup_insert_eq.
Qed.

Lemma written_to_other out written w q :
  q <> out -> files (written_to out written w) !! q = files w !! q.
Proof.
  intros H. destruct written as [content|]; [|done].
  cbn. by rewrite lookup_insert_ne.
Qed.

Lemma written_to_rest out written w :
  unreadable (written_to out written w) = unreadable w /\
  write_faults (written_to out written w) = write_faults w /\
  entropy (written_to out written w) = entropy w /\
  stdin (written_to out written w) = stdin w /\
  log (written_to out written w) = log w.
Proof. by destruct written. Qed.

Lemma written_to_dirs out written w :
  dirs (written_to out written w)
  = if bool_decide (is_Some written) then create_entry out (dirs w)
    else dirs w.
Proof.
  destruct written as [content|].
  - by rewrite bool_decide_true.
  - rewrite bool_decide_false; [done|]. by intros [? ?].
Qed.

(** [decryptFile] looks at its input file and at the access rights only,
    and changes the output file only. *)
Lemma decryptFile_local p key w0 :
  exists r written,
    forall w1, files w1 !! p = files w0 !! p ->
               unreadable w1 = unreadable w0 ->
               write_faults w1 = write_faults w0 ->
               decryptFile p key w1
               = (r, written_to (decrypted_path p) written w1).
Proof.
  assert (Hnone : forall r : result unit,
             (forall w1, files w1 !! p = files w0 !! p ->
                         unreadable w1 = unreadable w0 ->
                         write_faults w1 = write_faults w0 ->
                         decryptFile p key w1 = (r, w1)) ->
             exists r written,
               forall w1, files w1 !! p = files w0 !! p ->
                          unreadable w1 = unreadable w0 ->
                          write_faults w1 = write_faults w0 ->
                          decryptFile p key w1
                          = (r, written_to (decrypted_path p) written w1)).
  { intros r H. exists r, None. intros w1 Hf Hr Hw. by apply H. }
  destruct (decide (p ∈ unreadable w0 \/ files w0 !! p = None)) as [Hno|Hyes].
  { apply (Hnone (Err (fs_PathError "open" p))). intros w1 Hf Hr Hw.
    rewrite decryptFile_cases, Hf, Hr. by rewrite decide_True. }
  destruct (len (default [] (files w0 !! p)) <? 16) eqn:Hlen.
  { apply (Hnone (Err io_ErrUnexpectedEOF)). intros w1 Hf Hr Hw.
    rewrite decryptFile_cases, Hf, Hr. rewrite decide_False by done.
    cbv zeta. by rewrite Hlen. }
  destruct (aes_key_ok key) eqn:Hk; cycle 1.
  { apply (Hnone (Err (aes_KeySizeError (len key)))). intros w1 Hf Hr Hw.
    rewrite decryptFile_cases, Hf, Hr. rewrite decide_False by done.
    cbv zeta. by rewrite Hlen, Hk. }
  destruct (Z.rem (len (default [] (files w0 !! p)) - 16) 16 =? 0) eqn:Hrem;
    cycle 1.
  { apply (Hnone (Err io_ErrUnexpectedEOF)). intros w1 Hf Hr Hw.
    rewrite decryptFile_cases, Hf, Hr. rewrite decide_False by done.
    cbv zeta. by rewrite Hlen, Hk, Hrem. }
  destruct (pkcs7Unpad (decrypted_of key (default [] (files w0 !! p))))
    as [unpadded|e|msg|c] eqn:Hun.
  - destruct (decide (String.length p < 10)%nat) as [Hshort|Hlong].
    { apply (Hnone (Panic "slice bounds out of range")). intros w1 Hf Hr Hw.
      rewrite decryptFile_cases, Hf, Hr. rewrite decide_False by done.
      cbv zeta. rewrite Hlen, Hk, Hrem, Hun. by rewrite decide_True. }
    destruct (write_faults w0 !! decrypted_path p) as [[|op n]|] eqn:Hfault.
    + apply (Hnone (Err (fs_PathError "open" (decrypted_path p)))).
      intros w1 Hf Hr Hw.
      rewrite decryptFile_cases, Hf, Hr. rewrite decide_False by done.
      cbv zeta. rewrite Hlen, Hk, Hrem, Hun. rewrite decide_False by done.
      fold (decrypted_path p). by rewrite Hw, Hfault.
    + exists (Err (fs_PathError op (decrypted_path p))), (Some (take n unpadded)).
      intros w1 Hf Hr Hw.
      rewrite decryptFile_cases, Hf, Hr. rewrite decide_False by done.
      cbv zeta. rewrite Hlen, Hk, Hrem, Hun. rewrite decide_False by done.
      fold (decrypted_path p). by rewrite Hw, Hfault.
    + exists (Ok tt), (Some unpadded). intros w1 Hf Hr Hw.
      rewrite decryptFile_cases, Hf, Hr. rewrite decide_False by done.
      cbv zeta. rewrite Hlen, Hk, Hrem, Hun. rewrite decide_False by done.
      fold (decrypted_path p). by rewrite Hw, Hfault.
  - apply (Hnone (Err e)). intros w1 Hf Hr Hw.
    rewrite decryptFile_cases, Hf, Hr. rewrite decide_False by done.
    cbv zeta. by rewrite Hlen, Hk, Hrem, Hun.
  - apply (Hnone (Panic msg)). intros w1 Hf Hr Hw.
    rewrite decryptFile_cases, Hf, Hr. rewrite decide_False by done.
    cbv zeta. by rewrite Hlen, Hk, Hrem, Hun.
  - apply (Hnone (Exit c)). intros w1 Hf Hr Hw.
    rewrite decryptFile_cases, Hf, Hr. rewrite decide_False by done.
    cbv zeta. by rewrite Hlen, Hk, Hrem, Hun.
Qed.

(** A call of [decryptFile] creates its output file, or none. *)
Lemma decrypt_call_effect key w0 p :
  exists (b : bool) (out : string),
    out = decrypted_path p /\
    forall ds, dirs_after (fun p => decryptFile p key) w0 p ds
               = if b then create_entry out ds else ds.
Proof.
  destruct (decryptFile_local p key w0) as (r & written & H).
  exists (bool_decide (is_Some written)), (decrypted_path p).
  split; [done|]. intros ds. unfold dirs_after.
  rewrite (H (set_dirs ds w0)) by done. cbn [snd].
  by rewrite written_to_dirs.
Qed.

Lemma decrypt_call_effect' key w0 p :
  exists (b : bool) (out : string),
    forall ds, dirs_after (fun p => decryptFile p key) w0 p ds
               = if b then create_entry out ds else ds.
Proof.
  destruct (decrypt_call_effect key w0 p) as (b & out & _ & H). eauto.
Qed.

Lemma elem_of_insert_goroutine (gs : list goroutine) i g0 g' g :
  gs !! i = Some g0 ->
  (g ∈ <[i := g']> gs -> g = g' \/ g ∈ gs) /\
  (g ∈ gs -> g = g0 \/ g ∈ <[i := g']> gs).
Proof.
  intros Hg. destruct (goroutines_split gs i g0 g' Hg) as (l1 & l2 & -> & ->).
  rewrite !elem_of_app, !elem_of_cons. tauto.
Qed.

Lemma decrypt_inv_init key filePaths w0 :
  decrypt_inv key w0 (batch_init filePaths w0).
Proof.
  unfold decrypt_inv, batch_init. cbn. repeat split; try done.
  - by apply not_elem_of_nil in H.
  - by apply not_elem_of_nil in H.
  - by left.
Qed.

(** A step that is no call and writes no file keeps the invariant. *)
Lemma decrypt_inv_frame key w0 s s' :
  files (world s') = files (world s) ->
  unreadable (world s') = unreadable (world s) ->
  write_faults (world s') = write_faults (world s) ->
  dirs (world s') = dirs (world s) ->
  entropy (world s') = entropy (world s) ->
  stdin (world s') = stdin (world s) ->
  dirs_of_calls (fun p => decryptFile p key) w0 (goroutines s')
  = dirs_of_calls (fun p => decryptFile p key) w0 (goroutines s) ->
  (forall g, g ∈ goroutines s' -> g_called g = true ->
             exists g0, g0 ∈ goroutines s /\ g_called g0 = true /\
                        g_path g0 = g_path g /\ g_err g0 = g_err g) ->
  (forall g0, g0 ∈ goroutines s -> g_called g0 = true ->
              exists g, g ∈ goroutines s' /\ g_called g = true /\
                        g_path g = g_path g0) ->
  decrypt_inv key w0 s -> decrypt_inv key w0 s'.
Proof.
  intros Hf Hr Hw Hd He Hs Hdc Hback Hforth (J1 & J2 & J3 & J4 & J5 & J6 & J7).
  unfold decrypt_inv. rewrite Hf, Hr, Hw, Hd, He, Hs, Hdc.
  do 5 (split; [done|]). split.
  - intros g Hg Hc. destruct (Hback g Hg Hc) as (g0 & Hg0 & Hc0 & <- & <-).
    by apply J6.
  - intros q. destruct (J7 q) as [?|(g0 & Hg0 & Hc0 & <-)]; [by left|].
    destruct (Hforth g0 Hg0 Hc0) as (g & Hg & Hc & <-). right. eauto.
Qed.

Lemma decrypt_main_step_inv key w0 s s' :
  decrypt_inv key w0 s -> main_step s = Some s' -> decrypt_inv key w0 s'.
Proof.
  intros Hinv Hstep. unfold main_step in Hstep.
  destruct (pc s) as [[|filePath rest]| | | |].
  - injection Hstep as <-. by apply (decrypt_inv_frame key w0 s); eauto.
  - injection Hstep as <-. apply (decrypt_inv_frame key w0 s); cbn; try done.
    + apply dirs_of_calls_spawn.
    + intros g [Hg|Hg]%elem_of_app Hc; [by eauto|].
      apply list_elem_of_singleton in Hg as ->. done.
    + intros g0 Hg0 Hc0. exists g0. split; [|done]. apply elem_of_app. by left.
  - destruct (wg s =? 0); [|done]. injection Hstep as <-.
    by apply (decrypt_inv_frame key w0 s); eauto.
  - injection Hstep as <-. by apply (decrypt_inv_frame key w0 s); eauto.
  - destruct (channel s) as [|[e|] rest].
    + destruct (closed s); [|done]. injection Hstep as <-.
      by apply (decrypt_inv_frame key w0 s); eauto.
    + injection Hstep as <-. by apply (decrypt_inv_frame key w0 s); eauto.
    + injection Hstep as <-. by apply (decrypt_inv_frame key w0 s); eauto.
  - done.
Qed.

(** A goroutine that goes on after its call keeps the invariant. *)
Lemma decrypt_inv_replace key w0 s s' i g g' :
  goroutines s !! i = Some g ->
  goroutines s' = <[i := g']> (goroutines s) ->
  world s' = world s ->
  g_path g' = g_path g -> g_err g' = g_err g ->
  g_called g = true -> g_called g' = true ->
  decrypt_inv key w0 s -> decrypt_inv key w0 s'.
Proof.
  intros Hg Hgs Hw Hp He Hc Hc'.
  apply decrypt_inv_frame; rewrite ?Hw, ?Hgs; try done.
  - apply (dirs_of_calls_replace _ _ _ _ g); [done|congruence|done].
  - intros g1 Hg1 Hc1.
    apply (elem_of_insert_goroutine _ _ _ _ _ Hg) in Hg1 as [->|Hg1].
    + exists g. split; [by eapply list_elem_of_lookup_2|done].
    + by exists g1.
  - intros g0 Hg0 Hc0.
    apply (elem_of_insert_goroutine _ _ _ g' _ Hg) in Hg0 as [->|Hg0].
    + exists g'. split; [|done].
      apply list_elem_of_lookup. exists i.
      apply list_lookup_insert_eq. by eapply lookup_lt_Some.
    + by exists g0.
Qed.

Section Decrypt_batch.

Variable filePaths : list string.

Hypothesis paths_long :
  Forall (fun p => (10 <= String.length p)%nat) filePaths.

Hypothesis outputs_differ :
  forall p q, p ∈ filePaths -> q ∈ filePaths ->
              decrypted_path p = decrypted_path q -> p = q.

Hypothesis outputs_are_no_inputs :
  forall p q, p ∈ filePaths -> q ∈ filePaths -> decrypted_path p <> q.

Lemma decrypt_goroutine_step_inv key w0 s s' i :
  (forall g, g ∈ goroutines s -> g_path g ∈ filePaths) ->
  decrypt_inv key w0 s ->
  goroutine_step false key i s = Some s' -> decrypt_inv key w0 s'.
Proof using paths_long outputs_differ outputs_are_no_inputs.
  intros Hin Hinv Hstep. unfold goroutine_step in Hstep.
  destruct (goroutines s !! i) as [[p|p e|p e|p e|p m|p m]|] eqn:Hg;
    [| | |done| | |done].
  - assert (Hgin : g_call p ∈ goroutines s) by (by eapply list_elem_of_lookup_2).
    assert (Hp : p ∈ filePaths) by apply (Hin _ Hgin).
    pose proof Hinv as (J1 & J2 & J3 & J4 & J5 & J6 & J7).
    assert (Hfp : files (world s) !! p = files w0 !! p).
    { destruct (J7 p) as [?|(g & Hg' & _ & Hq)]; [done|].
      by destruct (outputs_are_no_inputs (g_path g) p (Hin g Hg') Hp). }
    assert (Hsame : forall g, g ∈ goroutines s -> g_called g = true ->
                              decrypted_path (g_path g) = decrypted_path p ->
                              g_path g = p).
    { intros g Hg' _ Hq. apply outputs_differ; [by apply Hin|done|done]. }
    destruct (decryptFile_local p key w0) as (r & written & Hloc).
    pose proof (Hloc (world s) Hfp J1 J2) as E.
    pose proof (Hloc w0 eq_refl eq_refl eq_refl) as E0.
    pose proof (Hloc (set_dirs (dirs (world s)) w0) eq_refl eq_refl eq_refl)
      as Ed.
    assert (Hret : r = Ok tt \/ exists e, r = Err e).
    { rewrite Forall_forall in paths_long.
      destruct (decryptFile_returns p key w0 (paths_long p Hp))
        as (r' & w' & E' & Hr' & _).
      rewrite E0 in E'. by injection E' as <- _. }
    assert (Hout : files (written_to (decrypted_path p) written (world s))
                     !! decrypted_path p
                   = files (decryptFile p key w0).2 !! decrypted_path p).
    { rewrite E0. cbn [snd]. destruct written as [content|].
      { cbn. by rewrite !lookup_insert_eq. }
      cbn [written_to].
      destruct (J7 (decrypted_path p)) as [?|(g & Hg' & Hc & Hq)]; [done|].
      destruct (J6 g Hg' Hc) as [_ Hfg].
      by rewrite (Hsame g Hg' Hc Hq), E0 in Hfg. }
    rewrite E in Hstep.
    assert (Hs' : exists g',
               g_called g' = true /\ g_path g' = p /\ g_err g' = error_of r /\
               s' = {| pc := pc s; wg := wg s; chan_cap := chan_cap s;
                       channel := channel s; closed := closed s;
                       goroutines := <[i := g']> (goroutines s);
                       world := written_to (decrypted_path p) written (world s);
                       crashed := crashed s |}).
    { destruct Hret as [->|[e ->]]; injection Hstep as <-.
      - by exists (g_send p None).
      - by exists (g_send p (Some e)). }
    destruct Hs' as (g' & Hc' & Hp' & He' & ->).
    destruct (written_to_rest (decrypted_path p) written (world s))
      as (R1 & R2 & R3 & R4 & _).
    unfold decrypt_inv. cbn [world goroutines].
    rewrite R1, R2, R3, R4. do 4 (split; [done|]). split; [|split].
    + rewrite (dirs_of_calls_call _ _ (decrypt_call_effect' key w0)
                 _ _ p g' Hg Hc' Hp'), <- J5.
      unfold dirs_after. rewrite Ed. cbn [snd].
      by rewrite !written_to_dirs.
    + intros g Hg' Hc.
      apply (elem_of_insert_goroutine _ _ _ _ _ Hg) in Hg' as [->|Hg'].
      { rewrite Hp', He'. split; [by rewrite E0|done]. }
      destruct (J6 g Hg' Hc) as [He Hfg]. split; [done|].
      destruct (decide (decrypted_path (g_path g) = decrypted_path p))
        as [Hq|Hq].
      { by rewrite (Hsame g Hg' Hc Hq). }
      by rewrite written_to_other.
    + intros q. destruct (decide (q = decrypted_path p)) as [->|Hq].
      { right. exists g'. split; [|by rewrite Hp'].
        apply list_elem_of_lookup. exists i.
        apply list_lookup_insert_eq. by eapply lookup_lt_Some. }
      rewrite written_to_other by done.
      destruct (J7 q) as [?|(g & Hg0 & Hc & <-)]; [by left|].
      right. exists g. split; [|done].
      apply (elem_of_insert_goroutine _ _ _ g' _ Hg)
        in Hg0 as [->|Hg0]; done.
  - destruct (closed s); [injection Hstep as <-; by destruct Hinv|].
    destruct (decide _); [|done]. injection Hstep as <-.
    by apply (decrypt_inv_replace key w0 s _ i (g_send p e) (g_done p e)).
  - destruct (_ <? _); [injection Hstep as <-; by destruct Hinv|].
    injection Hstep as <-.
    by apply (decrypt_inv_replace key w0 s _ i (g_done p e) (g_exited p e)).
  - destruct (_ <? _); [injection Hstep as <-; by destruct Hinv|].
    injection Hstep as <-.
    by apply (decrypt_inv_replace key w0 s _ i (g_panicking p m) (g_dying p m)).
  - injection Hstep as <-. by destruct Hinv.
Qed.

Lemma decrypt_run_inv key w0 sched :
  forall s s',
    batch_inv filePaths w0 s -> decrypt_inv key w0 s ->
    batch_run false key sched s = Some s' ->
    decrypt_inv key w0 s'.
Proof using paths_long outputs_differ outputs_are_no_inputs.
  induction sched as [|who sched IH]; intros s s' Hb Hinv Hrun.
  - by injection Hrun as <-.
  - cbn [batch_run] in Hrun.
    destruct (batch_step false key who s) as [s1|] eqn:Hstep; [|done].
    destruct (batch_step_inv _ _ _ _ _ _ _ (fun _ => paths_long) Hb Hstep)
      as [Hb1 _].
    apply (IH s1 s' Hb1); [|done].
    unfold batch_step in Hstep. destruct (crashed s); [done|].
    destruct who as [|i].
    + by eapply decrypt_main_step_inv.
    + eapply decrypt_goroutine_step_inv; [|done|done].
      intros g Hg. destruct Hb as (_ & _ & <- & _).
      apply elem_of_app. left. by apply list_elem_of_fmap_2.
Qed.

End Decrypt_batch.

(** The listings away from the outputs stay. *)
Lemma decrypt_dirs_elsewhere key w filePaths d :
  (forall p, p ∈ filePaths -> path_dir (decrypted_path p) <> d) ->
  foldr (dirs_after (fun p => decryptFile p key) w) (dirs w) filePaths !! d
  = dirs w !! d.
Proof.
  induction filePaths as [|p ps IH]; intros Hd; [done|]. cbn [foldr].
  destruct (decrypt_call_effect key w p) as (b & out & -> & ->).
  assert (IH' : foldr (dirs_after (fun p => decryptFile p key) w) (dirs w) ps
                  !! d = dirs w !! d).
  { apply IH. intros q Hq. apply Hd. by apply list_elem_of_further. }
  destruct b; [|done].
  rewrite create_entry_other; [done|].
  intros Heq. by apply (Hd p (list_elem_of_here _ _)).
Qed.

(** What a batch of decryptions that has run to its end leaves. *)
Lemma decrypt_batch_result
    (sched : list nat) (filePaths : list string) (key : list byte)
    (w w' : World) (r : result unit) :
  Forall (fun p => (10 <= String.length p)%nat) filePaths ->
  (forall p q, p ∈ filePaths -> q ∈ filePaths ->
               decrypted_path p = decrypted_path q -> p = q) ->
  (forall p q, p ∈ filePaths -> q ∈ filePaths -> decrypted_path p <> q) ->
  processDotenvFiles sched filePaths false key w = Some (r, w') ->
  r = Ok tt /\
  (forall p, p ∈ filePaths ->
             files w' !! decrypted_path p =
             files (decryptFile p key w).2 !! decrypted_path p) /\
  (forall q, (forall p, p ∈ filePaths -> decrypted_path p <> q) ->
             files w' !! q = files w !! q) /\
  (exists errs,
      log w' = log w ++ (log_Error <$> errs) /\
      errs ≡ₚ omap (fun p => error_of (decryptFile p key w).1) filePaths) /\
  unreadable w' = unreadable w /\ unwritable w' = unwritable w /\
  write_faults w' = write_faults w /\
  dirs w' = foldr (dirs_after (fun p => decryptFile p key) w) (dirs w)
                  filePaths /\
  (forall d, (forall p, p ∈ filePaths -> path_dir (decrypted_path p) <> d) ->
             dirs w' !! d = dirs w !! d) /\
  entropy w' = entropy w /\ stdin w' = stdin w.
Proof.
  intros Hlong Hdiff Hnoin Hrun. unfold processDotenvFiles in Hrun.
  destruct (batch_run _ _ _ _) as [s|] eqn:Hbatch; [|done].
  destruct (batch_run_inv _ w _ _ _ (fun _ => Hlong) _ _
              (batch_inv_init filePaths w) Hbatch) as [Hinv _].
  pose proof (decrypt_run_inv filePaths Hlong Hdiff Hnoin key w sched _ _
                (batch_inv_init filePaths w) (decrypt_inv_init key filePaths w)
                Hbatch) as (J1 & J2 & J3 & J4 & J5 & J6 & J7).
  destruct Hinv
    as (Hc & _ & Hsp & Hwg & (received & Hlog & Hperm & _) & Hpw & _ & Hret & Hnp).
  rewrite Hc in Hrun. destruct (pc s) eqn:Hpc; try done.
  injection Hrun as <- <-. cbn [pc_rest] in Hsp. rewrite app_nil_r in Hsp.
  assert (Hex : forall g, g ∈ goroutines s -> exists p e, g = g_exited p e).
  { intros g Hg. apply (sum_live_zero (goroutines s)); [done| |done].
    specialize (Hpw eq_refl). lia. }
  assert (Hdirs : dirs (world s)
                  = foldr (dirs_after (fun p => decryptFile p key) w) (dirs w)
                          filePaths).
  { rewrite J5, dirs_of_calls_all, Hsp; [done|].
    intros g Hg. by destruct (Hex g Hg) as (p & e & ->). }
  split; [done|]. split; [|split; [|split]];
    [| | |repeat split; try done;
          [unfold unwritable; by rewrite J2
          |intros d Hd; rewrite Hdirs; by apply decrypt_dirs_elsewhere]].
  - intros p Hp. rewrite <- Hsp in Hp.
    apply list_elem_of_fmap_1 in Hp as (g & -> & Hg).
    apply J6; [done|]. by destruct (Hex g Hg) as (p & e & ->).
  - intros q Hq. destruct (J7 q) as [?|(g & Hg & _ & Hgq)]; [done|].
    destruct (Hq (g_path g)); [|done].
    rewrite <- Hsp. by apply list_elem_of_fmap_2.
  - exists (omap id received). split; [done|].
    rewrite (Hret eq_refl), app_nil_r in Hperm.
    rewrite Hperm, (omap_sent_exited _ Hex), <- Hsp.
    assert (omap g_err (goroutines s)
            = omap (fun p => error_of (decryptFile p key w).1)
                   (g_path <$> goroutines s)) as ->; [|done].
    clear -J6 Hex. revert J6 Hex.
    induction (goroutines s) as [|g gs IH]; intros J6 Hex; [done|].
    assert (Hg : g ∈ g :: gs) by apply list_elem_of_here.
    destruct (Hex g Hg) as (p & e & ->).
    destruct (J6 _ Hg eq_refl) as [He _]. cbn in He.
    specialize (IH (fun g Hg' => J6 g (list_elem_of_further _ _ _ Hg'))
                   (fun g Hg' => Hex g (list_elem_of_further _ _ _ Hg'))).
    rewrite fmap_cons. cbn [omap list_omap g_path g_err].
    rewrite <- He. fold (omap g_err gs).
    fold (omap (fun p => error_of (decryptFile p key w).1) (g_path <$> gs)).
    by rewrite IH.
Qed.

(** X12. A batch of decryptions comes out the same along every schedule.
    Let the paths be not shorter than the suffix, let no two of them
    have the same output path and let no output path be one of them.
    Then a run of [processDotenvFiles] that ends has returned; each
    output file is what [decryptFile] alone, called in the world the
    batch started in, leaves there, a write that failed half way
    included; every other file is as before; the lines logged are, in
    some order, the errors that those calls alone return; the access
    rights, the write faults, the random bytes and the standard input
    are as before; and the directory listings are those that the calls
    leave when made one after the other, each creating its output file
    when it gets to write: the listings of the directories that hold no
    output path are as before. *)
Theorem processDotenvFiles_decrypt_any_schedule
    (sched : list nat) (filePaths : list string) (key : list byte)
    (w w' : World) (r : result unit) :
  Forall (fun p => (10 <= String.length p)%nat) filePaths ->
  (forall p q, p ∈ filePaths -> q ∈ filePaths ->
               decrypted_path p = decrypted_path q -> p = q) ->
  (forall p q, p ∈ filePaths -> q ∈ filePaths -> decrypted_path p <> q) ->
  processDotenvFiles sched filePaths false key w = Some (r, w') ->
  r = Ok tt /\
  (forall p, p ∈ filePaths ->
             files w' !! decrypted_path p =
             files (decryptFile p key w).2 !! decrypted_path p) /\
  (forall q, (forall p, p ∈ filePaths -> decrypted_path p <> q) ->
             files w' !! q = files w !! q) /\
  (exists errs,
      log w' = log w ++ (log_Error <$> errs) /\
      errs ≡ₚ omap (fun p => error_of (decryptFile p key w).1) filePaths) /\
  unreadable w' = unreadable w /\ unwritable w' = unwritable w /\
  write_faults w' = write_faults w /\
  dirs w' = foldr (dirs_after (fun p => decryptFile p key) w) (dirs w)
                  filePaths /\
  (forall d, (forall p, p ∈ filePaths -> path_dir (decrypted_path p) <> d) ->
             dirs w' !! d = dirs w !! d) /\
  entropy w' = entropy w /\ stdin w' = stdin w.
Proof. apply decrypt_batch_result. Qed.

Lemma string_app_inj_l (s t u : string) : s +:+ u = t +:+ u -> s = t.
Proof.
  intros Heq.
  assert (Hlen : String.length s = String.length t).
  { apply (f_equal String.length) in Heq. rewrite !string_length_app in Heq. lia. }
  revert t Heq Hlen. induction s as [|a s IH]; intros [|b t] Heq Hlen; try done.
  change (String a (s +:+ u) = String b (t +:+ u)) in Heq.
  injection Heq as -> Heq. f_equal. apply IH; [done|]. simpl in Hlen. lia.
Qed.

(** Among goroutines with different paths, a path names its goroutine. *)
Lemma goroutine_of_path (gs : list goroutine) i g0 g :
  NoDup (g_path <$> gs) -> gs !! i = Some g0 -> g ∈ gs ->
  g_path g = g_path g0 -> g = g0.
Proof.
  intros Hnd Hi [j Hj]%list_elem_of_lookup Hp.
  assert (i = j) as ->; [|congruence].
  apply (NoDup_lookup _ i j (g_path g0) Hnd).
  - by rewrite list_lookup_fmap, Hi.
  - by rewrite list_lookup_fmap, Hj, <- Hp.
Qed.

Lemma sum_uncalled_insert (gs : list goroutine) i g g' :
  gs !! i = Some g ->
  (sum_list (g_uncalled <$> <[i := g']> gs) + g_uncalled g
   = sum_list (g_uncalled <$> gs) + g_uncalled g')%nat.
Proof.
  intros Hg. destruct (goroutines_split gs i g g' Hg) as (l1 & l2 & -> & ->).
  rewrite !sum_list_fmap_app, !sum_list_fmap_cons. lia.
Qed.

(** The envelope that [encryptFile] makes of the file at [p] with the
    next sixteen random bytes. *)
Lemma encryptFile_local p key w0 :
  exists (r : result unit) (reads writes : bool) (cut : option nat),
    (r = Ok tt \/ exists e, r = Err e) /\
    (reads_random key w0 p -> reads = true) /\
    (writes = true -> reads = true) /\
    forall w1,
      files w1 !! p = files w0 !! p ->
      unreadable w1 = unreadable w0 ->
      write_faults w1 = write_faults w0 ->
      (16 <= length (entropy w1))%nat ->
      encryptFile p key w1
      = (r,
         written_to (p +:+ SuffixEncrypted)
           (if writes
            then Some (from_option (fun n => take n) id cut
                         (take 16 (entropy w1)
                          ++ ciphertext_of key (take 16 (entropy w1))
                               (default [] (files w1 !! p))))
            else None)
           (if reads then set_entropy (drop 16 (entropy w1)) w1 else w1)).
Proof.
  destruct (decide (p ∈ unreadable w0 \/ files w0 !! p = None)) as [Hno|Hyes].
  { exists (Err (fs_PathError "open" p)), false, false, None.
    split; [eauto|]. split; [|split; [done|]].
    - intros (Hr & [x Hx] & _). destruct Hno; [done|congruence].
    - intros w1 Hf Hr Hw He. rewrite encryptFile_cases, Hf, Hr.
      by rewrite decide_True. }
  destruct (aes_key_ok key) eqn:Hk; cycle 1.
  { exists (Err (aes_KeySizeError (len key))), false, false, None.
    split; [eauto|]. split; [|split; [done|]].
    - intros (_ & _ & Hk'). congruence.
    - intros w1 Hf Hr Hw He. rewrite encryptFile_cases, Hf, Hr.
      rewrite decide_False by done. by rewrite Hk. }
  destruct (write_faults w0 !! (p +:+ SuffixEncrypted)) as [[|op n]|] eqn:Hfault.
  - exists (Err (fs_PathError "open" (p +:+ SuffixEncrypted))), true, false, None.
    split; [eauto|]. split; [done|]. split; [done|].
    intros w1 Hf Hr Hw He. rewrite encryptFile_cases, Hf, Hr.
    rewrite decide_False by done. rewrite Hk. cbn [negb].
    rewrite decide_False by lia. cbv zeta. by rewrite Hw, Hfault.
  - exists (Err (fs_PathError op (p +:+ SuffixEncrypted))), true, true, (Some n).
    split; [eauto|]. split; [done|]. split; [done|].
    intros w1 Hf Hr Hw He. rewrite encryptFile_cases, Hf, Hr.
    rewrite decide_False by done. rewrite Hk. cbn [negb].
    rewrite decide_False by lia. cbv zeta. by rewrite Hw, Hfault, <- Hf.
  - exists (Ok tt), true, true, None.
    split; [eauto|]. split; [done|]. split; [done|].
    intros w1 Hf Hr Hw He. rewrite encryptFile_cases, Hf, Hr.
    rewrite decide_False by done. rewrite Hk. cbn [negb].
    rewrite decide_False by lia. cbv zeta. by rewrite Hw, Hfault, <- Hf.
Qed.

(** A call of [encryptFile] creates its output file, or none. *)
Lemma encrypt_call_effect key w0 p :
  exists (b : bool) (out : string),
    out = p +:+ SuffixEncrypted /\
    forall ds, dirs_after (fun p => encryptFile p key) w0 p ds
               = if b then create_entry out ds else ds.
Proof.
  destruct (decide (length (entropy w0) < 16)%nat) as [Hshort|Hlong].
  - exists false, (p +:+ SuffixEncrypted). split; [done|]. intros ds.
    unfold dirs_after. rewrite encryptFile_cases.
    destruct (decide _); [done|]. destruct (negb _); [done|].
    cbn [entropy set_dirs]. by rewrite decide_True.
  - destruct (encryptFile_local p key w0)
      as (r & reads & writes & cut & _ & _ & _ & H).
    exists writes, (p +:+ SuffixEncrypted). split; [done|]. intros ds.
    unfold dirs_after. rewrite (H (set_dirs ds w0)); [|done|done|done|cbn; lia].
    cbn [snd]. rewrite written_to_dirs.
    destruct writes, reads; cbn; try done.
Qed.

Lemma encrypt_call_effect' key w0 p :
  exists (b : bool) (out : string),
    forall ds, dirs_after (fun p => encryptFile p key) w0 p ds
               = if b then create_entry out ds else ds.
Proof.
  destruct (encrypt_call_effect key w0 p) as (b & out & _ & H). eauto.
Qed.

Lemma encrypt_inv_init key filePaths w0 chunk :
  encrypt_inv key filePaths w0 0 chunk (batch_init filePaths w0).
Proof.
  unfold encrypt_inv, batch_init. cbn. rewrite drop_0.
  do 5 (split; [done|]). split; [lia|]. split; [|split].
  - intros g Hg. by apply not_elem_of_nil in Hg.
  - intros g g' Hg. by apply not_elem_of_nil in Hg.
  - by left.
Qed.

(** A step that is no call and writes no file keeps the invariant. *)
Lemma encrypt_inv_frame key filePaths w0 m chunk s s' :
  files (world s') = files (world s) ->
  unreadable (world s') = unreadable (world s) ->
  write_faults (world s') = write_faults (world s) ->
  dirs (world s') = dirs (world s) ->
  entropy (world s') = entropy (world s) ->
  stdin (world s') = stdin (world s) ->
  dirs_of_calls (fun p => encryptFile p key) w0 (goroutines s')
  = dirs_of_calls (fun p => encryptFile p key) w0 (goroutines s) ->
  (sum_list (g_uncalled <$> goroutines s') + length (pc_rest (pc s'))
   <= sum_list (g_uncalled <$> goroutines s) + length (pc_rest (pc s)))%nat ->
  (forall g, g ∈ goroutines s' -> g_called g = true ->
             exists g0, g0 ∈ goroutines s /\ g_called g0 = true /\
                        g_path g0 = g_path g /\ g_err g0 = g_err g) ->
  (forall g0, g0 ∈ goroutines s -> g_called g0 = true ->
              exists g, g ∈ goroutines s' /\ g_called g = true /\
                        g_path g = g_path g0) ->
  encrypt_inv key filePaths w0 m chunk s ->
  encrypt_inv key filePaths w0 m chunk s'.
Proof.
  intros Hf Hr Hw Hd He Hs Hdc Hcount Hback Hforth
         (K1 & K2 & K3 & K4 & K5 & K6 & K7 & K8 & K9).
  unfold encrypt_inv. rewrite Hf, Hr, Hw, Hd, He, Hs, Hdc.
  do 5 (split; [done|]). split; [lia|]. split; [|split].
  - intros g Hg Hc. destruct (Hback g Hg Hc) as (g0 & Hg0 & Hc0 & <- & <-).
    by apply K7.
  - intros g g' Hg Hg' Hc Hc'.
    destruct (Hback g Hg Hc) as (g0 & Hg0 & Hc0 & <- & _).
    destruct (Hback g' Hg' Hc') as (g0' & Hg0' & Hc0' & <- & _).
    by apply K8.
  - intros q. destruct (K9 q) as [?|(g0 & Hg0 & Hc0 & <-)]; [by left|].
    destruct (Hforth g0 Hg0 Hc0) as (g & Hg & Hc & <-). right. eauto.
Qed.

Lemma encrypt_main_step_inv key filePaths w0 m chunk s s' :
  encrypt_inv key filePaths w0 m chunk s -> main_step s = Some s' ->
  encrypt_inv key filePaths w0 m chunk s'.
Proof.
  intros Hinv Hstep. unfold main_step in Hstep.
  destruct (pc s) as [[|filePath rest]| | | |] eqn:Hpc.
  - injection Hstep as <-.
    apply (encrypt_inv_frame key filePaths w0 m chunk s); cbn; eauto.
    rewrite Hpc. cbn. lia.
  - injection Hstep as <-.
    apply (encrypt_inv_frame key filePaths w0 m chunk s); cbn; try done.
    + apply dirs_of_calls_spawn.
    + rewrite Hpc, sum_list_fmap_app. cbn. lia.
    + intros g [Hg|Hg]%elem_of_app Hc; [by eauto|].
      apply list_elem_of_singleton in Hg as ->. done.
    + intros g0 Hg0 Hc0. exists g0. split; [|done]. apply elem_of_app. by left.
  - destruct (wg s =? 0); [|done]. injection Hstep as <-.
    apply (encrypt_inv_frame key filePaths w0 m chunk s); cbn; eauto.
    rewrite Hpc. cbn. lia.
  - injection Hstep as <-.
    apply (encrypt_inv_frame key filePaths w0 m chunk s); cbn; eauto.
    rewrite Hpc. cbn. lia.
  - destruct (channel s) as [|[e|] rest].
    + destruct (closed s); [|done]. injection Hstep as <-.
      apply (encrypt_inv_frame key filePaths w0 m chunk s); cbn; eauto.
      rewrite Hpc. cbn. lia.
    + injection Hstep as <-.
      apply (encrypt_inv_frame key filePaths w0 m chunk s); cbn; eauto.
      rewrite Hpc. cbn. lia.
    + injection Hstep as <-.
      apply (encrypt_inv_frame key filePaths w0 m chunk s); cbn; eauto.
      rewrite Hpc. cbn. lia.
  - done.
Qed.

(** A goroutine that goes on after its call keeps the invariant. *)
Lemma encrypt_inv_replace key filePaths w0 m chunk s s' i g g' :
  goroutines s !! i = Some g ->
  goroutines s' = <[i := g']> (goroutines s) ->
  world s' = world s -> pc s' = pc s ->
  g_path g' = g_path g -> g_err g' = g_err g ->
  g_called g = true -> g_called g' = true ->
  encrypt_inv key filePaths w0 m chunk s ->
  encrypt_inv key filePaths w0 m chunk s'.
Proof.
  intros Hg Hgs Hw Hpc Hp He Hc Hc'.
  apply encrypt_inv_frame; rewrite ?Hw, ?Hgs, ?Hpc; try done.
  - apply (dirs_of_calls_replace _ _ _ _ g); [done|congruence|done].
  - pose proof (sum_uncalled_insert _ _ _ g' Hg) as Hsum.
    destruct g, g'; try done; cbn in Hsum; lia.
  - intros g1 Hg1 Hc1.
    apply (elem_of_insert_goroutine _ _ _ _ _ Hg) in Hg1 as [->|Hg1].
    + exists g. split; [by eapply list_elem_of_lookup_2|done].
    + by exists g1.
  - intros g0 Hg0 Hc0.
    apply (elem_of_insert_goroutine _ _ _ g' _ Hg) in Hg0 as [->|Hg0].
    + exists g'. split; [|done].
      apply list_elem_of_lookup. exists i.
      apply list_lookup_insert_eq. by eapply lookup_lt_Some.
    + by exists g0.
Qed.

Section Encrypt_batch.

Variable filePaths : list string.
Variable w0 : World.
Variable key : list byte.

Hypothesis paths_differ : NoDup filePaths.

Hypothesis outputs_are_no_inputs :
  forall p q, p ∈ filePaths -> q ∈ filePaths -> p +:+ SuffixEncrypted <> q.

Hypothesis enough_entropy :
  (16 * length filePaths <= length (entropy w0))%nat.

(** The call of a goroutine keeps the invariant, given what it does. *)
Lemma encrypt_inv_call m chunk s s' i p g' m' chunk' :
  goroutines s !! i = Some (g_call p) ->
  (forall g, g ∈ goroutines s -> g_called g = true -> g_path g <> p) ->
  encrypt_inv key filePaths w0 m chunk s ->
  pc s' = pc s ->
  goroutines s' = <[i := g']> (goroutines s) ->
  g_called g' = true -> g_path g' = p ->
  unreadable (world s') = unreadable (world s) ->
  write_faults (world s') = write_faults (world s) ->
  dirs (world s')
  = dirs_after (fun p => encryptFile p key) w0 p (dirs (world s)) ->
  stdin (world s') = stdin (world s) ->
  entropy (world s') = drop (16 * m') (entropy w0) ->
  (m <= m' <= m + 1)%nat ->
  (forall q, q <> p -> chunk' q = chunk q) ->
  (forall q, q <> p +:+ SuffixEncrypted ->
             files (world s') !! q = files (world s) !! q) ->
  g_err g' = error_of (encryptFile p key w0).1 ->
  (reads_random key w0 p -> (m <= chunk' p < m')%nat) ->
  files (world s') !! (p +:+ SuffixEncrypted) =
  files (encryptFile p key (at_chunk (chunk' p) w0)).2
    !! (p +:+ SuffixEncrypted) ->
  encrypt_inv key filePaths w0 m' chunk' s'.
Proof.
  intros Hg Hother (K1 & K2 & K3 & K4 & K5 & K6 & K7 & K8 & K9)
         Hpc Hgs Hc' Hp' Hr Hw Hd Hs He Hm Hchunk Hfiles Herr Hreads Hout'.
  assert (Hnew : g' ∈ <[i := g']> (goroutines s)).
  { apply list_elem_of_lookup. exists i.
    apply list_lookup_insert_eq. by eapply lookup_lt_Some. }
  assert (Hold : forall g, g ∈ goroutines s -> g_called g = true ->
                           g ∈ <[i := g']> (goroutines s)).
  { intros g Hg' Hc.
    apply (elem_of_insert_goroutine _ _ _ g' _ Hg) in Hg'
      as [->|Hg']; done. }
  assert (Hout : forall g, g ∈ goroutines s -> g_called g = true ->
                           g_path g +:+ SuffixEncrypted
                           <> p +:+ SuffixEncrypted).
  { intros g Hg' Hc Heq. apply (Hother g Hg' Hc).
    by apply (string_app_inj_l _ _ SuffixEncrypted). }
  unfold encrypt_inv. rewrite Hr, Hw, Hs, Hgs, Hpc.
  do 2 (split; [done|]). split; [|split; [done|]].
  { rewrite (dirs_of_calls_call _ _ (encrypt_call_effect' key w0)
               _ _ p g' Hg Hc' Hp'), <- K3. done. }
  split; [done|]. split; [|split; [|split]].
  - pose proof (sum_uncalled_insert _ _ _ g' Hg) as Hsum.
    assert (g_uncalled g' = 0%nat) by (by destruct g').
    cbn in Hsum. lia.
  - intros g Hg' Hc.
    apply (elem_of_insert_goroutine _ _ _ _ _ Hg) in Hg' as [->|Hg'].
    + cbn zeta. rewrite Hp'. split; [done|]. split; [|done].
      intros Hrd. specialize (Hreads Hrd). lia.
    + cbn zeta. rewrite (Hchunk _ (Hother g Hg' Hc)).
      rewrite (Hfiles _ (Hout g Hg' Hc)).
      destruct (K7 g Hg' Hc) as (E1 & E2 & E3).
      split; [done|]. split; [|done].
      intros Hrd. specialize (E2 Hrd). lia.
  - intros g g1 Hg1 Hg2 Hc1 Hc2 Hs1 Hs2 Heq.
    apply (elem_of_insert_goroutine _ _ _ _ _ Hg) in Hg1 as [->|Hg1];
      apply (elem_of_insert_goroutine _ _ _ _ _ Hg) in Hg2 as [->|Hg2];
      try done.
    + rewrite Hp' in *. rewrite (Hchunk _ (Hother _ Hg2 Hc2)) in Heq.
      destruct (K7 _ Hg2 Hc2) as (_ & E2 & _).
      specialize (E2 Hs2). specialize (Hreads Hs1). lia.
    + rewrite Hp' in *. rewrite (Hchunk _ (Hother _ Hg1 Hc1)) in Heq.
      destruct (K7 _ Hg1 Hc1) as (_ & E2 & _).
      specialize (E2 Hs1). specialize (Hreads Hs2). lia.
    + rewrite (Hchunk _ (Hother _ Hg1 Hc1)) in Heq.
      rewrite (Hchunk _ (Hother _ Hg2 Hc2)) in Heq.
      by apply K8.
  - intros q. destruct (decide (q = p +:+ SuffixEncrypted)) as [->|Hq].
    { right. exists g'. by rewrite Hp'. }
    rewrite (Hfiles _ Hq).
    destruct (K9 q) as [?|(g & Hg' & Hc & <-)]; [by left|].
    right. exists g. split; [by apply Hold|done].
Qed.

Lemma encrypt_goroutine_step_inv m chunk s s' i :
  (g_path <$> goroutines s) ++ pc_rest (pc s) = filePaths ->
  encrypt_inv key filePaths w0 m chunk s ->
  goroutine_step true key i s = Some s' ->
  exists m' chunk', encrypt_inv key filePaths w0 m' chunk' s'.
Proof using paths_differ outputs_are_no_inputs enough_entropy.
  intros Hsp Hinv Hstep. unfold goroutine_step in Hstep.
  destruct (goroutines s !! i) as [[p|p e|p e|p e|p msg|p msg]|] eqn:Hg;
    [| | |done| | |done].
  - assert (Hin : forall g, g ∈ goroutines s -> g_path g ∈ filePaths).
    { intros g Hg'. rewrite <- Hsp. apply elem_of_app. left.
      by apply list_elem_of_fmap_2. }
    assert (Hgin : g_call p ∈ goroutines s) by (by eapply list_elem_of_lookup_2).
    assert (Hp : p ∈ filePaths) by apply (Hin _ Hgin).
    assert (Hnd : NoDup (g_path <$> goroutines s)).
    { rewrite <- Hsp in paths_differ. by apply NoDup_app in paths_differ as [? _]. }
    assert (Hother : forall g, g ∈ goroutines s -> g_called g = true ->
                               g_path g <> p).
    { intros g Hg' Hc Hgp.
      rewrite (goroutine_of_path _ _ _ _ Hnd Hg Hg' Hgp) in Hc. done. }
    pose proof Hinv as (K1 & K2 & K3 & K4 & K5 & K6 & K7 & K8 & K9).
    assert (Hfp : files (world s) !! p = files w0 !! p).
    { destruct (K9 p) as [?|(g & Hg' & _ & Hq)]; [done|].
      by destruct (outputs_are_no_inputs (g_path g) p (Hin g Hg') Hp). }
    assert (Hfo : files (world s) !! (p +:+ SuffixEncrypted)
                  = files w0 !! (p +:+ SuffixEncrypted)).
    { destruct (K9 (p +:+ SuffixEncrypted)) as [?|(g & Hg' & Hc & Hq)]; [done|].
      apply string_app_inj_l in Hq. by destruct (Hother g Hg' Hc). }
    assert (HU : (1 <= sum_list (g_uncalled <$> goroutines s))%nat).
    { destruct (goroutines_split _ _ _ (g_call p) Hg) as (l1 & l2 & -> & _).
      rewrite sum_list_fmap_app, sum_list_fmap_cons. cbn. lia. }
    assert (Hent : (16 <= length (entropy (world s)))%nat).
    { rewrite K5, length_drop. lia. }
    assert (Hent0 : (16 <= length (entropy w0))%nat) by lia.
    destruct (encryptFile_local p key w0)
      as (r & reads & writes & cut & Hret & Hrd & Hwr & Hloc).
    pose proof (Hloc (world s) Hfp K1 K2 Hent) as E.
    pose proof (Hloc w0 eq_refl eq_refl eq_refl Hent0) as E0.
    assert (Em : encryptFile p key (at_chunk m w0)
                 = (r, written_to (p +:+ SuffixEncrypted)
                         (if writes
                          then Some (from_option (fun n => take n) id cut
                                       (take 16 (entropy (world s))
                                        ++ ciphertext_of key
                                             (take 16 (entropy (world s)))
                                             (default [] (files (world s) !! p))))
                          else None)
                         (if reads
                          then set_entropy (drop 16 (entropy (at_chunk m w0)))
                                 (at_chunk m w0)
                          else at_chunk m w0))).
    { rewrite (Hloc (at_chunk m w0)); [|done|done|done|].
      - cbn [at_chunk entropy set_entropy files]. by rewrite K5, Hfp.
      - cbn [at_chunk entropy set_entropy]. by rewrite <- K5. }
    pose proof (Hloc (set_dirs (dirs (world s)) w0) eq_refl eq_refl eq_refl
                  Hent0) as Ed.
    rewrite E in Hstep.
    set (written := if writes
                    then Some (from_option (fun n => take n) id cut
                                 (take 16 (entropy (world s))
                                  ++ ciphertext_of key
                                       (take 16 (entropy (world s)))
                                       (default [] (files (world s) !! p))))
                    else None) in *.
    set (ws := if reads then set_entropy (drop 16 (entropy (world s))) (world s)
               else world s) in *.
    assert (Hs' : exists g',
               g_called g' = true /\ g_path g' = p /\ g_err g' = error_of r /\
               s' = {| pc := pc s; wg := wg s; chan_cap := chan_cap s;
                       channel := channel s; closed := closed s;
                       goroutines := <[i := g']> (goroutines s);
                       world := written_to (p +:+ SuffixEncrypted) written ws;
                       crashed := crashed s |}).
    { destruct Hret as [->|[e ->]]; injection Hstep as <-.
      - by exists (g_send p None).
      - by exists (g_send p (Some e)). }
    destruct Hs' as (g' & Hc' & Hp' & He' & ->).
    destruct (written_to_rest (p +:+ SuffixEncrypted) written ws)
      as (R1 & R2 & R3 & R4 & _).
    assert (Hws : unreadable ws = unreadable (world s) /\
                  write_faults ws = write_faults (world s) /\
                  stdin ws = stdin (world s) /\ dirs ws = dirs (world s) /\
                  files ws = files (world s) /\
                  entropy ws = drop (16 * (if reads then m + 1 else m))
                                    (entropy w0)).
    { subst ws. destruct reads; cbn; repeat split; try done.
      rewrite K5, drop_drop. f_equal. lia. }
    destruct Hws as (W1 & W2 & W3 & W4 & W5 & W6).
    exists (if reads then m + 1 else m)%nat,
           (fun q => if decide (q = p) then m else chunk q).
    eapply (encrypt_inv_call m chunk s _ i p g'); try done;
      cbn [world goroutines pc]; rewrite ?R1, ?R2, ?R3, ?R4; try done.
    + unfold dirs_after. rewrite Ed. cbn [snd].
      rewrite !written_to_dirs. cbn [dirs set_dirs].
      replace (dirs (if reads
                     then set_entropy (drop 16 (entropy (set_dirs (dirs (world s)) w0)))
                            (set_dirs (dirs (world s)) w0)
                     else set_dirs (dirs (world s)) w0))
        with (dirs (world s)) by (by destruct reads).
      rewrite W4. subst written. by destruct writes.
    + destruct reads; lia.
    + intros q Hq. by rewrite decide_False.
    + intros q Hq. rewrite written_to_other by done. by rewrite W5.
    + by rewrite He', E0.
    + intros Hreads. rewrite (Hrd Hreads), decide_True by done. lia.
    + rewrite decide_True by done. rewrite Em. cbn [snd].
      apply written_to_lookup. rewrite W5, Hfo. by destruct reads.
  - destruct (closed s).
    { injection Hstep as <-. by exists m, chunk. }
    destruct (decide _); [|done]. injection Hstep as <-. exists m, chunk.
    by apply (encrypt_inv_replace key filePaths w0 m chunk s _ i
                (g_send p e) (g_done p e)).
  - destruct (_ <? _).
    { injection Hstep as <-. by exists m, chunk. }
    injection Hstep as <-. exists m, chunk.
    by apply (encrypt_inv_replace key filePaths w0 m chunk s _ i
                (g_done p e) (g_exited p e)).
  - destruct (_ <? _).
    { injection Hstep as <-. by exists m, chunk. }
    injection Hstep as <-. exists m, chunk.
    by apply (encrypt_inv_replace key filePaths w0 m chunk s _ i
                (g_panicking p msg) (g_dying p msg)).
  - injection Hstep as <-. by exists m, chunk.
Qed.

Lemma encrypt_run_inv sched :
  forall s s' m chunk,
    batch_inv filePaths w0 s -> encrypt_inv key filePaths w0 m chunk s ->
    batch_run true key sched s = Some s' ->
    exists m' chunk', encrypt_inv key filePaths w0 m' chunk' s'.
Proof using paths_differ outputs_are_no_inputs enough_entropy.
  induction sched as [|who sched IH]; intros s s' m chunk Hb Hinv Hrun.
  - injection Hrun as <-. eauto.
  - cbn [batch_run] in Hrun.
    destruct (batch_step true key who s) as [s1|] eqn:Hstep; [|done].
    assert (Hlong : true = false ->
                    Forall (fun p => (10 <= String.length p)%nat) filePaths)
      by done.
    destruct (batch_step_inv _ _ _ _ _ _ _ Hlong Hb Hstep) as [Hb1 _].
    unfold batch_step in Hstep. destruct (crashed s); [done|].
    destruct who as [|i].
    + apply (IH s1 s' m chunk Hb1); [|done].
      by eapply encrypt_main_step_inv.
    + destruct Hb as (_ & _ & Hsp & _).
      destruct (encrypt_goroutine_step_inv m chunk s s1 i Hsp Hinv Hstep)
        as (m1 & chunk1 & Hinv1).
      by apply (IH s1 s' m1 chunk1 Hb1).
Qed.

End Encrypt_batch.

(** The listings away from the outputs stay. *)
Lemma encrypt_dirs_elsewhere key w filePaths d :
  (forall p, p ∈ filePaths -> path_dir (p +:+ SuffixEncrypted) <> d) ->
  foldr (dirs_after (fun p => encryptFile p key) w) (dirs w) filePaths !! d
  = dirs w !! d.
Proof.
  induction filePaths as [|p ps IH]; intros Hd; [done|]. cbn [foldr].
  destruct (encrypt_call_effect key w p) as (b & out & -> & ->).
  assert (IH' : foldr (dirs_after (fun p => encryptFile p key) w) (dirs w) ps
                  !! d = dirs w !! d).
  { apply IH. intros q Hq. apply Hd. by apply list_elem_of_further. }
  destruct b; [|done].
  rewrite create_entry_other; [done|].
  intros Heq. by apply (Hd p (list_elem_of_here _ _)).
Qed.

Lemma omap_err_paths (f : string -> option error) (gs : list goroutine) :
  (forall g, g ∈ gs -> g_err g = f (g_path g)) ->
  omap g_err gs = omap f (g_path <$> gs).
Proof.
  induction gs as [|g gs IH]; intros Hall; [done|].
  rewrite fmap_cons. cbn [omap list_omap].
  rewrite <- (Hall g (list_elem_of_here _ _)).
  fold (omap g_err gs). fold (omap f (g_path <$> gs)).
  by rewrite (IH (fun g Hg => Hall g (list_elem_of_further _ _ _ Hg))).
Qed.

(** What a batch of encryptions that has run to its end leaves. *)
Lemma encrypt_batch_result
    (sched : list nat) (filePaths : list string) (key : list byte)
    (w w' : World) (r : result unit) :
  NoDup filePaths ->
  (forall p q, p ∈ filePaths -> q ∈ filePaths -> p +:+ SuffixEncrypted <> q) ->
  (16 * length filePaths <= length (entropy w))%nat ->
  processDotenvFiles sched filePaths true key w = Some (r, w') ->
  r = Ok tt /\
  exists (m : nat) (chunk : string -> nat),
    (m <= length filePaths)%nat /\
    entropy w' = drop (16 * m) (entropy w) /\
    (forall p, p ∈ filePaths ->
               files w' !! (p +:+ SuffixEncrypted) =
               files (encryptFile p key (at_chunk (chunk p) w)).2
                 !! (p +:+ SuffixEncrypted)) /\
    (forall p, p ∈ filePaths -> reads_random key w p -> (chunk p < m)%nat) /\
    (forall p q, p ∈ filePaths -> q ∈ filePaths ->
                 reads_random key w p -> reads_random key w q ->
                 chunk p = chunk q -> p = q) /\
    (forall p, p ∈ filePaths -> (encryptFile p key w).1 = Ok tt ->
               exists plaintext,
                 files w !! p = Some plaintext /\ (chunk p < m)%nat /\
                 files w' !! (p +:+ SuffixEncrypted) =
                 Some (iv_chunk (chunk p) w
                       ++ ciphertext_of key (iv_chunk (chunk p) w) plaintext)) /\
    (forall p op n plaintext,
        p ∈ filePaths ->
        write_faults w !! (p +:+ SuffixEncrypted) = Some (fault_after op n) ->
        (p ∉ unreadable w) -> files w !! p = Some plaintext ->
        aes_key_ok key = true ->
        files w' !! (p +:+ SuffixEncrypted) =
        Some (take n (iv_chunk (chunk p) w
                      ++ ciphertext_of key (iv_chunk (chunk p) w) plaintext))) /\
    (forall p, p ∈ filePaths -> (encryptFile p key w).1 <> Ok tt ->
               (forall op n, write_faults w !! (p +:+ SuffixEncrypted)
                             <> Some (fault_after op n)) ->
               files w' !! (p +:+ SuffixEncrypted) =
               files w !! (p +:+ SuffixEncrypted)) /\
    (forall q, (forall p, p ∈ filePaths -> p +:+ SuffixEncrypted <> q) ->
               files w' !! q = files w !! q) /\
    (exists errs,
        log w' = log w ++ (log_Error <$> errs) /\
        errs ≡ₚ omap (fun p => error_of (encryptFile p key w).1) filePaths) /\
    unreadable w' = unreadable w /\ unwritable w' = unwritable w /\
    write_faults w' = write_faults w /\
    dirs w' = foldr (dirs_after (fun p => encryptFile p key) w) (dirs w)
                    filePaths /\
    (forall d, (forall p, p ∈ filePaths ->
                          path_dir (p +:+ SuffixEncrypted) <> d) ->
               dirs w' !! d = dirs w !! d) /\
    stdin w' = stdin w.
Proof.
  intros Hnd Hnoin Hent Hrun. unfold processDotenvFiles in Hrun.
  destruct (batch_run _ _ _ _) as [s|] eqn:Hbatch; [|done].
  assert (Hlong : true = false ->
                  Forall (fun p => (10 <= String.length p)%nat) filePaths)
    by done.
  destruct (batch_run_inv _ w _ _ _ Hlong _ _
              (batch_inv_init filePaths w) Hbatch) as [Hinv _].
  destruct (encrypt_run_inv filePaths w key Hnd Hnoin Hent sched _ _ _ _
              (batch_inv_init filePaths w)
              (encrypt_inv_init key filePaths w (fun _ => 0%nat)) Hbatch)
    as (m & chunk & K1 & K2 & K3 & K4 & K5 & K6 & K7 & K8 & K9).
  destruct Hinv
    as (Hc & _ & Hsp & Hwg & (received & Hlog & Hperm & _) & Hpw & _ & Hret & Hnp).
  rewrite Hc in Hrun. destruct (pc s) eqn:Hpc; try done.
  injection Hrun as <- <-. cbn [pc_rest] in Hsp. rewrite app_nil_r in Hsp.
  assert (Hex : forall g, g ∈ goroutines s -> exists p e, g = g_exited p e).
  { intros g Hg. apply (sum_live_zero (goroutines s)); [done| |done].
    specialize (Hpw eq_refl). lia. }
  assert (Hcalled : forall g, g ∈ goroutines s -> g_called g = true).
  { intros g Hg. by destruct (Hex g Hg) as (p & e & ->). }
  assert (Hof : forall p, p ∈ filePaths ->
                          exists g, g ∈ goroutines s /\ g_path g = p).
  { intros p Hp. rewrite <- Hsp in Hp.
    apply list_elem_of_fmap_1 in Hp as (g & -> & Hg). eauto. }
  assert (Hm : (m <= length filePaths)%nat) by lia.
  assert (Hout : forall p, p ∈ filePaths ->
                   files (world s) !! (p +:+ SuffixEncrypted) =
                   files (encryptFile p key (at_chunk (chunk p) w)).2
                     !! (p +:+ SuffixEncrypted)).
  { intros p Hp. destruct (Hof p Hp) as (g & Hg & <-).
    by destruct (K7 g Hg (Hcalled g Hg)) as (_ & _ & E3). }
  assert (Hlt : forall p, p ∈ filePaths -> reads_random key w p ->
                          (chunk p < m)%nat).
  { intros p Hp Hrd. destruct (Hof p Hp) as (g & Hg & <-).
    destruct (K7 g Hg (Hcalled g Hg)) as (_ & E2 & _). by apply E2. }
  assert (Hat : forall p plaintext,
             p ∈ filePaths -> (p ∉ unreadable w) ->
             files w !! p = Some plaintext -> aes_key_ok key = true ->
             (chunk p < m)%nat /\
             encryptFile p key (at_chunk (chunk p) w)
             = match write_faults w !! (p +:+ SuffixEncrypted) with
               | Some fault_open =>
                   (Err (fs_PathError "open" (p +:+ SuffixEncrypted)),
                    set_entropy (drop 16 (entropy (at_chunk (chunk p) w)))
                      (at_chunk (chunk p) w))
               | Some (fault_after op n) =>
                   (Err (fs_PathError op (p +:+ SuffixEncrypted)),
                    write_file (p +:+ SuffixEncrypted)
                      (take n (iv_chunk (chunk p) w
                               ++ ciphertext_of key (iv_chunk (chunk p) w)
                                    plaintext))
                      (set_entropy (drop 16 (entropy (at_chunk (chunk p) w)))
                         (at_chunk (chunk p) w)))
               | None =>
                   (Ok tt,
                    write_file (p +:+ SuffixEncrypted)
                      (iv_chunk (chunk p) w
                       ++ ciphertext_of key (iv_chunk (chunk p) w) plaintext)
                      (set_entropy (drop 16 (entropy (at_chunk (chunk p) w)))
                         (at_chunk (chunk p) w)))
               end).
  { intros p plaintext Hp Hr Hf Hk.
    assert (Hc' : (chunk p < m)%nat) by (apply Hlt; [done|by repeat split]).
    split; [done|]. rewrite encryptFile_cases.
    cbn [at_chunk files unreadable write_faults entropy set_entropy].
    rewrite decide_False by (rewrite Hf; intros [?|?]; done).
    rewrite Hk. cbn [negb]. rewrite decide_False by (rewrite length_drop; lia).
    cbv zeta. rewrite Hf. done. }
  split; [done|]. exists m, chunk.
  split; [done|]. split; [done|]. split; [done|]. split; [done|].
  split; [|split; [|split; [|split; [|split; [|split]]]]].
  - intros p q Hp Hq Hs1 Hs2 Heq.
    destruct (Hof p Hp) as (g & Hg & <-). destruct (Hof q Hq) as (g' & Hg' & <-).
    apply K8; auto.
  - intros p Hp Hsucc.
    pose proof (encryptFile_cases p key w) as E0.
    destruct (decide (p ∈ unreadable w \/ files w !! p = None)) as [|Hyes];
      [by rewrite E0 in Hsucc|].
    destruct (decide (aes_key_ok key = true)) as [Hk|Hk];
      [|apply not_true_is_false in Hk; by rewrite E0, Hk in Hsucc].
    rewrite Hk in E0. cbn [negb] in E0.
    destruct (decide (length (entropy w) < 16)%nat) as [|Hlen];
      [by rewrite E0 in Hsucc|].
    cbv zeta in E0.
    destruct (files w !! p) as [plaintext|] eqn:Hf; [|tauto].
    assert (Hr : p ∉ unreadable w) by tauto.
    destruct (Hat p plaintext Hp Hr Hf Hk) as [Hc' E].
    exists plaintext. split; [done|]. split; [done|].
    rewrite (Hout p Hp), E.
    destruct (write_faults w !! (p +:+ SuffixEncrypted)) as [[|? ?]|];
      [by rewrite E0 in Hsucc|by rewrite E0 in Hsucc|].
    cbn. by rewrite lookup_insert_eq.
  - intros p op n plaintext Hp Hfault Hr Hf Hk.
    destruct (Hat p plaintext Hp Hr Hf Hk) as [Hc' E].
    rewrite (Hout p Hp), E, Hfault. cbn. by rewrite lookup_insert_eq.
  - intros p Hp Hfail Hnocut. rewrite (Hout p Hp).
    pose proof (encryptFile_cases p key w) as E0.
    destruct (decide (p ∈ unreadable w \/ files w !! p = None)) as [Hno|Hyes].
    { rewrite encryptFile_cases.
      cbn [at_chunk files unreadable set_entropy]. by rewrite decide_True. }
    destruct (decide (aes_key_ok key = true)) as [Hk|Hk]; cycle 1.
    { apply not_true_is_false in Hk. rewrite encryptFile_cases.
      cbn [at_chunk files unreadable set_entropy].
      rewrite decide_False by done. by rewrite Hk. }
    destruct (files w !! p) as [plaintext|] eqn:Hf; [|tauto].
    assert (Hr : p ∉ unreadable w) by tauto.
    destruct (Hat p plaintext Hp Hr Hf Hk) as [Hc' E]. rewrite E.
    rewrite Hk in E0. cbn [negb] in E0.
    destruct (decide (length (entropy w) < 16)%nat) as [Hshort|_].
    { assert (filePaths <> []) by (intros ->; by apply not_elem_of_nil in Hp).
      destruct filePaths; [done|]. cbn in Hent. lia. }
    cbv zeta in E0.
    destruct (write_faults w !! (p +:+ SuffixEncrypted)) as [[|op n]|] eqn:Hfault.
    + done.
    + by destruct (Hnocut op n).
    + by rewrite E0 in Hfail.
  - intros q Hq. destruct (K9 q) as [?|(g & Hg & _ & Hgq)]; [done|].
    destruct (Hq (g_path g)); [|done].
    rewrite <- Hsp. by apply list_elem_of_fmap_2.
  - exists (omap id received). split; [done|].
    rewrite (Hret eq_refl), app_nil_r in Hperm.
    rewrite Hperm, (omap_sent_exited _ Hex), <- Hsp.
    rewrite (omap_err_paths (fun p => error_of (encryptFile p key w).1)); [done|].
    intros g Hg. by destruct (K7 g Hg (Hcalled g Hg)) as (E1 & _).
  - assert (Hdirs : dirs (world s)
                    = foldr (dirs_after (fun p => encryptFile p key) w) (dirs w)
                            filePaths).
    { rewrite K3, dirs_of_calls_all, Hsp; [done|]. apply Hcalled. }
    split; [done|]. split; [unfold unwritable; by rewrite K2|].
    split; [done|]. split; [done|]. split; [|done].
    intros d Hd. rewrite Hdirs. by apply encrypt_dirs_elsewhere.
Qed.

(** X13. A batch of encryptions comes out the same along every
    schedule, but for the random bytes that each file gets.  Let the
    paths differ from each other, let no output path be one of them and
    let there be sixteen random bytes for each of them.  Then a run of
    [processDotenvFiles] that ends has returned, having read sixteen
    random bytes [m] times, and each path has a chunk number such that:
    each output file is what [encryptFile] alone leaves there when it
    is called in the world the batch started in with the random bytes
    read up to the chunk of the path; a path whose call gets to read
    random bytes has one of the first [m] chunks, and one that no other
    such path has; where [encryptFile] alone succeeds, the output file
    is the envelope of the plaintext under the chunk of the path; where
    the write fails after [n] bytes, the output file holds the first
    [n] bytes of that envelope; where the call fails in another way,
    the output file is as before; every other file is as before; the
    lines logged are, in some order, the errors that those calls alone
    return; the access rights, the write faults and the standard input
    are as before; and the directory listings are those that the calls
    leave when made one after the other, each creating its output file
    when it gets to write: the listings of the directories that hold no
    output path are as before. *)
Theorem processDotenvFiles_encrypt_any_schedule
    (sched : list nat) (filePaths : list string) (key : list byte)
    (w w' : World) (r : result unit) :
  NoDup filePaths ->
  (forall p q, p ∈ filePaths -> q ∈ filePaths -> p +:+ SuffixEncrypted <> q) ->
  (16 * length filePaths <= length (entropy w))%nat ->
  processDotenvFiles sched filePaths true key w = Some (r, w') ->
  r = Ok tt /\
  exists (m : nat) (chunk : string -> nat),
    (m <= length filePaths)%nat /\
    entropy w' = drop (16 * m) (entropy w) /\
    (forall p, p ∈ filePaths ->
               files w' !! (p +:+ SuffixEncrypted) =
               files (encryptFile p key (at_chunk (chunk p) w)).2
                 !! (p +:+ SuffixEncrypted)) /\
    (forall p, p ∈ filePaths -> reads_random key w p -> (chunk p < m)%nat) /\
    (forall p q, p ∈ filePaths -> q ∈ filePaths ->
                 reads_random key w p -> reads_random key w q ->
                 chunk p = chunk q -> p = q) /\
    (forall p, p ∈ filePaths -> (encryptFile p key w).1 = Ok tt ->
               exists plaintext,
                 files w !! p = Some plaintext /\ (chunk p < m)%nat /\
                 files w' !! (p +:+ SuffixEncrypted) =
                 Some (iv_chunk (chunk p) w
                       ++ ciphertext_of key (iv_chunk (chunk p) w) plaintext)) /\
    (forall p op n plaintext,
        p ∈ filePaths ->
        write_faults w !! (p +:+ SuffixEncrypted) = Some (fault_after op n) ->
        (p ∉ unreadable w) -> files w !! p = Some plaintext ->
        aes_key_ok key = true ->
        files w' !! (p +:+ SuffixEncrypted) =
        Some (take n (iv_chunk (chunk p) w
                      ++ ciphertext_of key (iv_chunk (chunk p) w) plaintext))) /\
    (forall p, p ∈ filePaths -> (encryptFile p key w).1 <> Ok tt ->
               (forall op n, write_faults w !! (p +:+ SuffixEncrypted)
                             <> Some (fault_after op n)) ->
               files w' !! (p +:+ SuffixEncrypted) =
               files w !! (p +:+ SuffixEncrypted)) /\
    (forall q, (forall p, p ∈ filePaths -> p +:+ SuffixEncrypted <> q) ->
               files w' !! q = files w !! q) /\
    (exists errs,
        log w' = log w ++ (log_Error <$> errs) /\
        errs ≡ₚ omap (fun p => error_of (encryptFile p key w).1) filePaths) /\
    unreadable w' = unreadable w /\ unwritable w' = unwritable w /\
    write_faults w' = write_faults w /\
    dirs w' = foldr (dirs_after (fun p => encryptFile p key) w) (dirs w)
                    filePaths /\
    (forall d, (forall p, p ∈ filePaths ->
                          path_dir (p +:+ SuffixEncrypted) <> d) ->
               dirs w' !! d = dirs w !! d) /\
    stdin w' = stdin w.
Proof. apply encrypt_batch_result. Qed.

(** ** A batch of encryptions, then a batch of decryptions *)

Lemma decrypted_path_suffix (p : string) :
  decrypted_path (p +:+ SuffixEncrypted) = p.
Proof.
  unfold decrypted_path. rewrite string_length_app.
  replace (String.length p + String.length SuffixEncrypted - 10)%nat
    with (String.length p) by (cbn; lia).
  apply substring_app_l.
Qed.

Lemma omap_all_None {A B} (f : A -> option B) (l : list A) :
  (forall x, x ∈ l -> f x = None) -> omap f l = [].
Proof.
  induction l as [|x l IH]; intros Hall; [done|].
  cbn. rewrite (Hall x (list_elem_of_here _ _)).
  apply IH. intros y Hy. apply Hall. by apply list_elem_of_further.
Qed.

(** X14. A batch of encryptions followed by a batch of decryptions of
    the files it wrote gives every plaintext back, whatever the two
    schedules and whatever has become of the plaintext files in
    between.  The machine is supposed to cooperate: the paths differ
    from each other and none of them is the output path of another one,
    there are sixteen random bytes for each, the key has a valid size,
    and every plaintext and every envelope can be read and written.
    Then both runs, if they end, have returned, every plaintext file
    holds what it held at the start, and no error has been logged. *)
Theorem processDotenvFiles_roundtrip
    (sched1 sched2 : list nat) (filePaths : list string) (key : list byte)
    (w w1 w2 : World) (r1 r2 : result unit)
    (between : gmap string (list byte)) :
  NoDup filePaths ->
  (forall p q, p ∈ filePaths -> q ∈ filePaths -> p +:+ SuffixEncrypted <> q) ->
  (16 * length filePaths <= length (entropy w))%nat ->
  aes_key_ok key = true ->
  (forall p, p ∈ filePaths ->
             is_Some (files w !! p) /\
             (p ∉ unreadable w) /\ (p ∉ unwritable w) /\
             ((p +:+ SuffixEncrypted) ∉ unreadable w) /\
             ((p +:+ SuffixEncrypted) ∉ unwritable w)) ->
  processDotenvFiles sched1 filePaths true key w = Some (r1, w1) ->
  (forall p, p ∈ filePaths ->
             between !! (p +:+ SuffixEncrypted)
             = files w1 !! (p +:+ SuffixEncrypted)) ->
  processDotenvFiles sched2 ((fun p => p +:+ SuffixEncrypted) <$> filePaths)
    false key (set_files between w1) = Some (r2, w2) ->
  r1 = Ok tt /\ r2 = Ok tt /\
  (forall p, p ∈ filePaths -> files w2 !! p = files w !! p) /\
  log w2 = log w.
Proof using aes_encrypt_length aes_decrypt_encrypt.
  intros Hnd Hnoin Hent Hk Hcoop Hrun1 Hbetween Hrun2.
  destruct (encrypt_batch_result _ _ _ _ _ _ Hnd Hnoin Hent Hrun1)
    as (-> & m & chunk & Hm & _ & _ & _ & _ & Hsucc & _ & _ & _
        & (errs1 & Hlog1 & Hperm1) & Hur & Huw & _).
  assert (Hall : forall p, p ∈ filePaths -> (encryptFile p key w).1 = Ok tt).
  { intros p Hp. destruct (Hcoop p Hp) as ([P HP] & Hr & _ & _ & Hw).
    assert (16 <= length (entropy w))%nat.
    { apply list_elem_of_lookup_1 in Hp as [i Hi].
      apply lookup_lt_Some in Hi. lia. }
    by rewrite (encryptFile_ok _ _ _ _ Hr HP Hk ltac:(done) Hw). }
  rewrite omap_all_None in Hperm1
    by (intros p Hp; by rewrite (Hall p Hp)).
  apply Permutation_nil_r in Hperm1 as ->. cbn in Hlog1.
  rewrite app_nil_r in Hlog1.
  set (wb := set_files between w1) in *.
  assert (Hdec : forall p, p ∈ filePaths ->
                           exists P, files w !! p = Some P /\
                                     decryptFile (p +:+ SuffixEncrypted) key wb
                                     = (Ok tt, write_file p P wb)).
  { intros p Hp. destruct (Hsucc p Hp (Hall p Hp)) as (P & HP & Hlt & Hfile).
    exists P. split; [done|].
    destruct (Hcoop p Hp) as (_ & _ & Hw & Hr & _).
    apply (decryptFile_restores p key wb (iv_chunk (chunk p) w)).
    - cbn. by rewrite Hur.
    - done.
    - unfold iv_chunk. rewrite length_take, length_drop. lia.
    - cbn. by rewrite Hbetween.
    - change (p ∉ unwritable w1). by rewrite Huw. }
  assert (Hlong : Forall (fun p => (10 <= String.length p)%nat)
                         ((fun p => p +:+ SuffixEncrypted) <$> filePaths)).
  { apply Forall_fmap, Forall_forall. intros p _. cbn.
    rewrite string_length_app. cbn. lia. }
  assert (Hdiff : forall p q,
             p ∈ (fun p => p +:+ SuffixEncrypted) <$> filePaths ->
             q ∈ (fun p => p +:+ SuffixEncrypted) <$> filePaths ->
             decrypted_path p = decrypted_path q -> p = q).
  { intros ? ? (p & -> & _)%list_elem_of_fmap_1 (q & -> & _)%list_elem_of_fmap_1.
    rewrite !decrypted_path_suffix. by intros ->. }
  assert (Hnoin' : forall p q,
             p ∈ (fun p => p +:+ SuffixEncrypted) <$> filePaths ->
             q ∈ (fun p => p +:+ SuffixEncrypted) <$> filePaths ->
             decrypted_path p <> q).
  { intros ? ? (p & -> & Hp)%list_elem_of_fmap_1 (q & -> & Hq)%list_elem_of_fmap_1.
    rewrite decrypted_path_suffix. intros Heq.
    by apply (Hnoin q p Hq Hp). }
  destruct (decrypt_batch_result _ _ _ _ _ _ Hlong Hdiff Hnoin' Hrun2)
    as (-> & Hout & _ & (errs2 & Hlog2 & Hperm2) & _).
  rewrite omap_all_None in Hperm2.
  2:{ intros ? (p & -> & Hp)%list_elem_of_fmap_1.
      destruct (Hdec p Hp) as (P & _ & ->). done. }
  apply Permutation_nil_r in Hperm2 as ->. cbn in Hlog2.
  rewrite app_nil_r in Hlog2.
  split; [done|]. split; [done|]. split; [|by rewrite Hlog2].
  intros p Hp. destruct (Hdec p Hp) as (P & HP & Hd).
  specialize (Hout (p +:+ SuffixEncrypted)
                   (list_elem_of_fmap_2 _ _ _ Hp)).
  rewrite decrypted_path_suffix, Hd in Hout. cbn in Hout.
  by rewrite Hout, lookup_insert_eq.
Qed.

(** ** A run of [main] that decrypts *)

Lemma getDotenvPaths_fuel_irrelevant fuel1 fuel2 folder encrypt w x1 x2 :
  getDotenvPaths fuel1 folder encrypt w = Some x1 ->
  getDotenvPaths fuel2 folder encrypt w = Some x2 ->
  x1 = x2.
Proof.
  destruct x1 as [r1 w1], x2 as [r2 w2]. intros H1 H2.
  apply getDotenvPaths_inv in H1 as (v1 & H1 & ->).
  apply getDotenvPaths_inv in H2 as (v2 & H2 & ->).
  by injection (getDotenvPaths_loop_fuel_irrelevant _ _ _ _ _ _ _ _ H1 H2)
    as -> ->.
Qed.

(** A path that ends in [/.env] does not end in [/.env-encrypted]. *)
Lemma env_is_not_encrypted (d d' : string) :
  d +:+ "/.env" <> d' +:+ "/.env-encrypted".
Proof.
  intros Heq.
  assert (Hlen : String.length d = (String.length d' + 10)%nat).
  { apply (f_equal String.length) in Heq.
    rewrite !string_length_app in Heq. cbn in Heq. lia. }
  apply (f_equal (String.get (4 + String.length d))) in Heq.
  rewrite <- (String.append_correct2 d "/.env" 4) in Heq.
  replace (4 + String.length d)%nat with (14 + String.length d')%nat
    in Heq by lia.
  rewrite <- (String.append_correct2 d' "/.env-encrypted" 14) in Heq.
  discriminate Heq.
Qed.

(** The paths that a scan for decryption returns are the paths of
    different outputs, none of which the batch reads. *)
Lemma getDotenvPaths_decrypt_paths fuel folder w filePaths w' :
  getDotenvPaths fuel folder false w = Some (Ok filePaths, w') ->
  forall p, p ∈ filePaths -> exists d, p = (d +:+ "/.env") +:+ SuffixEncrypted.
Proof.
  intros Hrun p Hp. apply getDotenvPaths_inv in Hrun as (w0 & Hrun & _).
  destruct (getDotenvPaths_loop_sound w folder false fuel _ _ _ _
              (scan_inv_init w folder false) Hrun)
    as [(paths & [= <-] & _ & (_ & I2 & _))|(d & ? & _)]; [|done].
  destruct (I2 p Hp) as (d & entries & file & _ & _ & _ & _ & Hn & ->).
  exists d. rewrite Hn. unfold marker. by rewrite !string_app_assoc.
Qed.

(** X15. What a run of [main] that decrypts leaves does not depend on
    the schedule of the goroutines: two runs from the same world that
    end, end the same way, leave the same files and the same world
    otherwise, and log the same lines, the errors of the files possibly
    in another order. *)
Theorem main_decrypt_any_schedule
    (fuel1 fuel2 : nat) (sched1 sched2 : list nat) (folder : string)
    (w w1 w2 : World) (r1 r2 : result unit) :
  main fuel1 sched1 false folder w = Some (r1, w1) ->
  main fuel2 sched2 false folder w = Some (r2, w2) ->
  r1 = r2 /\ files w1 = files w2 /\ log w1 ≡ₚ log w2 /\
  unreadable w1 = unreadable w2 /\ unwritable w1 = unwritable w2 /\
  dirs w1 = dirs w2 /\ entropy w1 = entropy w2 /\ stdin w1 = stdin w2.
Proof.
  unfold main. rewrite getPassphrase_spec.
  destruct (stdin w) as [K|] eqn:Hin; [|by intros [= <- <-] [= <- <-]].
  set (w0 := add_log (log_Key (deriveKey K)) (add_log log_Prompt w)).
  destruct (getDotenvPaths fuel1 folder false w0) as [[rs1 ws1]|] eqn:Hs1;
    [|done].
  destruct (getDotenvPaths fuel2 folder false w0) as [[rs2 ws2]|] eqn:Hs2;
    [|done].
  injection (getDotenvPaths_fuel_irrelevant _ _ _ _ _ _ _ Hs1 Hs2) as <- <-.
  destruct rs1 as [paths|e|msg|c]; try by intros [= <- <-] [= <- <-].
  pose proof (getDotenvPaths_long_paths _ _ _ _ _ _ Hs1 eq_refl) as Hlong.
  pose proof (getDotenvPaths_decrypt_paths _ _ _ _ _ Hs1) as Hform.
  assert (Hdiff : forall p q, p ∈ paths -> q ∈ paths ->
                              decrypted_path p = decrypted_path q -> p = q).
  { intros p q Hp Hq. destruct (Hform p Hp) as [d ->].
    destruct (Hform q Hq) as [d' ->].
    rewrite !decrypted_path_suffix. by intros ->. }
  assert (Hnoin : forall p q, p ∈ paths -> q ∈ paths -> decrypted_path p <> q).
  { intros p q Hp Hq. destruct (Hform p Hp) as [d ->].
    destruct (Hform q Hq) as [d' ->].
    rewrite decrypted_path_suffix, string_app_assoc.
    apply env_is_not_encrypted. }
  destruct (processDotenvFiles sched1 paths false (deriveKey K) ws1)
    as [[b1 v1]|] eqn:Hb1; [|done].
  destruct (processDotenvFiles sched2 paths false (deriveKey K) ws1)
    as [[b2 v2]|] eqn:Hb2; [|by destruct b1].
  destruct (decrypt_batch_result _ _ _ _ _ _ Hlong Hdiff Hnoin Hb1)
    as (-> & Hout1 & Hrest1 & (errs1 & Hlog1 & Hperm1)
        & A1 & _ & A2 & A3 & _ & A4 & A5).
  destruct (decrypt_batch_result _ _ _ _ _ _ Hlong Hdiff Hnoin Hb2)
    as (-> & Hout2 & Hrest2 & (errs2 & Hlog2 & Hperm2)
        & B1 & _ & B2 & B3 & _ & B4 & B5).
  intros [= <- <-] [= <- <-]. unfold unwritable. cbn.
  split; [done|]. split; [|split; [|by rewrite A1, A2, A3, A4, A5, B1, B2, B3, B4, B5]].
  - apply map_eq. intros q.
    destruct (decide (q ∈ decrypted_path <$> paths)) as [Hq|Hq].
    + apply list_elem_of_fmap_1 in Hq as (p & -> & Hp).
      by rewrite Hout1, Hout2.
    + rewrite Hrest1, Hrest2; [done| |];
        intros p Hp <-; apply Hq; by apply list_elem_of_fmap_2.
  - rewrite Hlog1, Hlog2, Hperm1, Hperm2. done.
Qed.

End Program.

(** ** The stand-ins satisfy what is assumed of AES and PBKDF2 *)

Lemma toy_encrypt_length key b :
  length b = 16%nat -> length (toy_encrypt key b) = 16%nat.
Proof. intros H. unfold toy_encrypt. by rewrite length_fmap, length_rev. Qed.

Lemma toy_decrypt_length key b :
  length b = 16%nat -> length (toy_decrypt key b) = 16%nat.
Proof. intros H. unfold toy_decrypt. by rewrite length_rev, length_fmap. Qed.

Lemma toy_decrypt_encrypt key b :
  length b = 16%nat -> toy_decrypt key (toy_encrypt key b) = b.
Proof.
  intros _. unfold toy_decrypt, toy_encrypt.
  rewrite <- list_fmap_compose.
  rewrite <- (rev_involutive b) at 2. f_equal.
  induction (rev b) as [|x l IH]; [done|].
  cbn. by rewrite byte_xor_cancel, IH.
Qed.

Lemma toy_Key_length password salt iter keyLen :
  0 <= keyLen -> len (toy_Key password salt iter keyLen) = keyLen.
Proof. intros H. unfold toy_Key. rewrite len_replicate. lia. Qed.

(** ** The claims on examples *)

(** The round trip of [a/.env] in the scenario world. *)
Lemma encrypt_decrypt_roundtrip_witness :
  exists w1 w2 iv ciphertext,
    encryptFile toy_encrypt toy_decrypt "a/.env"
      (deriveKey toy_Key "hunter2") scenario_world = (Ok tt, w1) /\
    files w1 !! ("a/.env" +:+ SuffixEncrypted) = Some (iv ++ ciphertext) /\
    len iv = 16 /\
    iv = take 16 (entropy scenario_world) /\
    ciphertext
    = ciphertext_of toy_encrypt toy_decrypt (deriveKey toy_Key "hunter2") iv
        (String.list_byte_of_string "TOKEN=abc") /\
    decryptFile toy_encrypt toy_decrypt ("a/.env" +:+ SuffixEncrypted)
      (deriveKey toy_Key "hunter2") w1 = (Ok tt, w2) /\
    files w2 !! "a/.env" = Some (String.list_byte_of_string "TOKEN=abc") /\
    (forall between : gmap string (list byte),
        between !! ("a/.env" +:+ SuffixEncrypted) = Some (iv ++ ciphertext) ->
        decryptFile toy_encrypt toy_decrypt ("a/.env" +:+ SuffixEncrypted)
          (deriveKey toy_Key "hunter2") (set_files between w1)
        = (Ok tt,
           write_file "a/.env" (String.list_byte_of_string "TOKEN=abc")
             (set_files between w1)) /\
        files (write_file "a/.env" (String.list_byte_of_string "TOKEN=abc")
                 (set_files between w1)) !! "a/.env"
        = Some (String.list_byte_of_string "TOKEN=abc") /\
        forall q, q <> "a/.env" ->
                  files (write_file "a/.env"
                           (String.list_byte_of_string "TOKEN=abc")
                           (set_files between w1)) !! q
                  = between !! q).
Proof.
  apply (encrypt_decrypt_roundtrip toy_encrypt toy_decrypt toy_Key
           toy_encrypt_length toy_decrypt_encrypt toy_Key_length
           (String.list_byte_of_string "TOKEN=abc") "hunter2" "a/.env"
           scenario_world).
  - apply not_elem_of_empty.
  - reflexivity.
  - vm_compute. lia.
  - apply unwritable_spec. reflexivity.
  - apply not_elem_of_empty.
  - apply unwritable_spec. reflexivity.
Defined.

(** C2 as the specification states it fails on an input of exactly 16
    bytes: [decryptFile] returns [io.ErrUnexpectedEOF], although the
    input is not shorter than 16 bytes, the length after the IV, zero,
    is a multiple of 16, and the decrypted data, being empty, has no
    last byte that could exceed its length.  (No block goes through the
    cipher here.) *)
Lemma decryptFile_iv_only_counterexample :
  files iv_only_world !! "a/.env-encrypted" = Some (replicate 16 "000"%byte) /\
  (decryptFile toy_encrypt toy_decrypt "a/.env-encrypted" zero_key
     iv_only_world).1 = Err io_ErrUnexpectedEOF /\
  ~ (len (replicate 16 "000"%byte) < 16 \/
     Z.rem (len (replicate 16 "000"%byte) - 16) 16 <> 0 \/
     len (decrypted_of toy_encrypt toy_decrypt zero_key
            (replicate 16 "000"%byte))
     < int_of_byte
         (List.last (decrypted_of toy_encrypt toy_decrypt zero_key
                       (replicate 16 "000"%byte)) "000"%byte)).
Proof.
  split; [reflexivity|]. split; [reflexivity|].
  intros [H|[H|H]]; vm_compute in H; congruence.
Qed.

(** The amended C2 on the same input. *)
Lemma decryptFile_malformed_witness :
  ((decryptFile toy_encrypt toy_decrypt "a/.env-encrypted" zero_key
      iv_only_world).1 = Err io_ErrUnexpectedEOF <->
   len (replicate 16 "000"%byte) < 16 \/
   Z.rem (len (replicate 16 "000"%byte) - 16) 16 <> 0 \/
   len (replicate 16 "000"%byte) = 16 \/
   len (decrypted_of toy_encrypt toy_decrypt zero_key
          (replicate 16 "000"%byte))
   < int_of_byte
       (List.last (decrypted_of toy_encrypt toy_decrypt zero_key
                     (replicate 16 "000"%byte)) "000"%byte)) /\
  ((decryptFile toy_encrypt toy_decrypt "a/.env-encrypted" zero_key
      iv_only_world).1 = Err io_ErrUnexpectedEOF ->
   (decryptFile toy_encrypt toy_decrypt "a/.env-encrypted" zero_key
      iv_only_world).2 = iv_only_world).
Proof.
  apply (decryptFile_malformed toy_encrypt toy_decrypt toy_decrypt_length
           "a/.env-encrypted" zero_key (replicate 16 "000"%byte)
           iv_only_world).
  - apply not_elem_of_empty.
  - reflexivity.
  - reflexivity.
Defined.

(** C3 on a plaintext of 16 bytes. *)
Lemma pkcs7Pad_full_block_witness :
  pkcs7Pad (String.list_byte_of_string "0123456789abcdef") aes_BlockSize =
    Ok (String.list_byte_of_string "0123456789abcdef"
        ++ replicate 16 Byte.x10) /\
  pkcs7Unpad (String.list_byte_of_string "0123456789abcdef"
              ++ replicate 16 Byte.x10)
  = Ok (String.list_byte_of_string "0123456789abcdef").
Proof.
  apply (proj2 (pkcs7Pad_full_block
                  (String.list_byte_of_string "0123456789abcdef"))).
  reflexivity.
Defined.

(** C4 in the scenario world, before and after a line has been logged. *)
Lemma getPassphrase_deterministic_witness :
  exists key,
    (getPassphrase toy_Key scenario_world).1 = Ok key /\
    (getPassphrase toy_Key (add_log log_Done scenario_world)).1 = Ok key /\
    key = toy_Key (String.list_byte_of_string "hunter2")
                  (String.list_byte_of_string "somesalt") iterations 32 /\
    len key = 32 /\ iterations = 4096 /\ 1000 <= iterations.
Proof.
  apply (getPassphrase_deterministic toy_Key toy_Key_length "hunter2"
           scenario_world (add_log log_Done scenario_world)).
  - reflexivity.
  - reflexivity.
Defined.

(** C5 on [a/b/.env] of the scenario world, whose 16 bytes are padded to
    32: the envelope has 48 bytes. *)
Lemma encryptFile_envelope_layout_witness :
  exists iv ciphertext,
    files (encryptFile toy_encrypt toy_decrypt "a/b/.env" zero_key
             scenario_world).2
    = <["a/b/.env" +:+ SuffixEncrypted := iv ++ ciphertext]>
        (files scenario_world) /\
    iv = take 16 (entropy scenario_world) /\ len iv = 16 /\
    ciphertext = ciphertext_of toy_encrypt toy_decrypt zero_key iv
                   (String.list_byte_of_string "0123456789abcdef") /\
    len ciphertext
    = len (String.list_byte_of_string "0123456789abcdef")
      + padLen16 (String.list_byte_of_string "0123456789abcdef") /\
    0 < len ciphertext /\ Z.rem (len ciphertext) 16 = 0 /\
    len (iv ++ ciphertext) = 16 + len ciphertext.
Proof.
  apply (encryptFile_envelope_layout toy_encrypt toy_decrypt toy_encrypt_length
           "a/b/.env" zero_key
           (String.list_byte_of_string "0123456789abcdef") scenario_world).
  - reflexivity.
  - vm_compute. reflexivity.
Defined.

(** The scan scenario: in the tree with [a/.env], [a/b/.env],
    [a/.env-encrypted] and [a/notes.txt], the scan for encryption
    returns the two [.env] files, the scan for decryption the one
    [.env-encrypted] file. *)
Example scan_scenario_encrypt :
  getDotenvPaths 3 "a" true scenario_world
  = Some (Ok ["a/.env"; "a/b/.env"],
          add_log (log_Paths ["a/.env"; "a/b/.env"]) scenario_world).
Proof. vm_compute. reflexivity. Qed.

Example scan_scenario_decrypt :
  getDotenvPaths 3 "a" false scenario_world
  = Some (Ok ["a/.env-encrypted"],
          add_log (log_Paths ["a/.env-encrypted"]) scenario_world).
Proof. vm_compute. reflexivity. Qed.

Lemma scenario_world_readable d :
  below scenario_world "a" d -> is_Some (dirs scenario_world !! d).
Proof.
  intros Hb.
  inversion Hb as [|? entries file ? Hl Hin Hdir Hb']; subst; [by eexists|].
  vm_compute in Hl. injection Hl as <-.
  assert (Name file = "b") as Hn.
  { repeat (apply elem_of_cons in Hin as [->|Hin]; try done).
    by apply not_elem_of_nil in Hin. }
  rewrite Hn in Hb'. clear Hin Hdir Hn Hb.
  inversion Hb' as [|? entries' file' ? Hl' Hin' Hdir' Hb'']; subst;
    [by eexists|].
  vm_compute in Hl'. injection Hl' as <-.
  repeat (apply elem_of_cons in Hin' as [->|Hin']; try done).
  by apply not_elem_of_nil in Hin'.
Qed.

(** C6 in the scan scenario, for encryption. *)
Lemma getDotenvPaths_exactly_markers_witness :
  exists fuel filePaths,
    (forall k, getDotenvPaths (fuel + k) "a" true scenario_world
               = Some (Ok filePaths,
                       add_log (log_Paths filePaths) scenario_world)) /\
    (forall p, p ∈ filePaths <->
       exists d entries file,
         below scenario_world "a" d /\
         dirs scenario_world !! d = Some entries /\ file ∈ entries /\
         IsDir file = false /\ Name file = ".env" /\
         p = d +:+ "/" +:+ Name file) /\
    (forall p, p ∈ filePaths <->
       exists d entries file,
         below scenario_world "a" d /\
         dirs scenario_world !! d = Some entries /\ file ∈ entries /\
         Type_ file <> ModeDir /\ Name file = ".env" /\
         p = d +:+ "/" +:+ Name file) /\
    ((forall d entries file,
         below scenario_world "a" d ->
         dirs scenario_world !! d = Some entries -> file ∈ entries ->
         Name file = ".env" -> IsDir file = false -> IsRegular file = true) ->
     forall p, p ∈ filePaths <->
       exists d entries file,
         below scenario_world "a" d /\
         dirs scenario_world !! d = Some entries /\ file ∈ entries /\
         IsRegular file = true /\ Name file = ".env" /\
         p = d +:+ "/" +:+ Name file).
Proof.
  apply (getDotenvPaths_exactly_markers scenario_world "a" true).
  exact scenario_world_readable.
Defined.

(** C6 as the specification states it fails on a tree whose [.env] is a
    symbolic link: the scan returns the path of the link, although no
    regular file of the tree has this path. *)
Lemma getDotenvPaths_symlink_counterexample :
  dirs symlink_world !! "a"
  = Some [ {| Name := ".env"; Type_ := ModeSymlink |} ] /\
  getDotenvPaths 2 "a" true symlink_world
  = Some (Ok ["a/.env"], add_log (log_Paths ["a/.env"]) symlink_world) /\
  ~ (exists d entries file,
       dirs symlink_world !! d = Some entries /\ file ∈ entries /\
       IsRegular file = true /\ "a/.env" = d +:+ "/" +:+ Name file).
Proof.
  split; [reflexivity|]. split; [vm_compute; reflexivity|].
  intros (d & entries & file & Hd & Hin & Hreg & _).
  unfold symlink_world in Hd. cbn [dirs] in Hd.
  apply lookup_singleton_Some in Hd as [_ <-].
  apply list_elem_of_singleton in Hin as ->. done.
Qed.

(** C8 on [a/.env] of the scenario world and on the envelope of the
    round-trip world: both calls succeed, and the output paths hold the
    envelope and the plaintext. *)
Lemma output_path_suffix_witness :
  ((encryptFile toy_encrypt toy_decrypt "a/.env" zero_key scenario_world).1
   = Ok tt /\
   files (encryptFile toy_encrypt toy_decrypt "a/.env" zero_key
            scenario_world).2 !! ("a/.env" +:+ "-encrypted")
   = Some (take 16 (entropy scenario_world)
           ++ ciphertext_of toy_encrypt toy_decrypt zero_key
                (take 16 (entropy scenario_world))
                (String.list_byte_of_string "TOKEN=abc"))) /\
  ((decryptFile toy_encrypt toy_decrypt "ok/.env-encrypted" zero_key
      isolation_world).1 = Ok tt /\
   files (decryptFile toy_encrypt toy_decrypt "ok/.env-encrypted" zero_key
            isolation_world).2
     !! String.substring 0 (String.length "ok/.env-encrypted" - 10)
          "ok/.env-encrypted"
   = Some (String.list_byte_of_string "TOKEN=abc")).
Proof.
  split.
  - apply (output_path_suffix toy_encrypt toy_decrypt "a/.env" zero_key
             scenario_world).
    + apply not_elem_of_empty.
    + reflexivity.
    + reflexivity.
    + vm_compute. lia.
    + apply unwritable_spec. reflexivity.
  - assert (exists data,
               files isolation_world !! "ok/.env-encrypted" = Some data /\
               (16 <=? len data) = true /\
               Z.rem (len data - 16) 16 = 0 /\
               pkcs7Unpad (decrypted_of toy_encrypt toy_decrypt zero_key data)
               = Ok (String.list_byte_of_string "TOKEN=abc"))
      as (data & Hf & Hlen & Hrem & Hun)
      by (eexists; repeat split; vm_compute; reflexivity).
    apply (output_path_suffix toy_encrypt toy_decrypt "ok/.env-encrypted"
             zero_key isolation_world) with (data := data).
    + vm_compute. set_solver.
    + exact Hf.
    + by apply Z.leb_le.
    + reflexivity.
    + exact Hrem.
    + exact Hun.
    + vm_compute. lia.
    + apply unwritable_spec. reflexivity.
Defined.

(** C9 in a tree whose directory [a/b] cannot be listed. *)
Lemma getDotenvPaths_unreadable_is_fatal_witness :
  (exists fuel w',
      files w' = files broken_world /\
      forall k, getDotenvPaths (fuel + k) "a" true broken_world
                = Some (Exit 1, w')) /\
  (forall fuel r w',
      getDotenvPaths fuel "a" true broken_world = Some (r, w') -> r = Exit 1) /\
  (exists fuel w',
      files w' = files broken_world /\
      forall k sched,
        main toy_encrypt toy_decrypt toy_Key (fuel + k) sched true "a"
             broken_world = Some (Exit 1, w')) /\
  (forall fuel sched r w',
      main toy_encrypt toy_decrypt toy_Key fuel sched true "a" broken_world
      = Some (r, w') ->
      r = Exit 1 /\ files w' = files broken_world).
Proof.
  apply (getDotenvPaths_unreadable_is_fatal toy_encrypt toy_decrypt toy_Key
           broken_world "a" ("a" +:+ "/" +:+ "b") true).
  - apply (below_sub broken_world "a"
             [ {| Name := ".env"; Type_ := ModeRegular |};
               {| Name := "b"; Type_ := ModeDir |} ]
             {| Name := "b"; Type_ := ModeDir |}).
    + reflexivity.
    + apply list_elem_of_further, list_elem_of_here.
    + reflexivity.
    + apply below_here.
  - reflexivity.
Defined.

Example scan_broken_world :
  getDotenvPaths 2 "a" true broken_world
  = Some (Exit 1,
          add_log (log_Fatal (Some (fs_PathError "open" "a/b"))) broken_world).
Proof. vm_compute. reflexivity. Qed.

(** C10 on a block of 16 zero bytes, which is no padding of the
    prescribed form: [decryptFile] writes all 16 bytes. *)
Lemma pkcs7Unpad_checks_length_only_witness :
  pkcs7_wellformed (replicate 16 "000"%byte) = false /\
  decryptFile toy_encrypt toy_decrypt "a/.env-encrypted" zero_key
    zero_block_world
  = (Ok tt,
     set_files (<["a/.env" := replicate 16 "000"%byte]>
                  (files zero_block_world)) zero_block_world).
Proof.
  split; [reflexivity|].
  apply (proj2 (proj2 (proj2 (proj2 (proj2
           (pkcs7Unpad_checks_length_only toy_encrypt toy_decrypt
              toy_encrypt_length toy_decrypt_encrypt
              (replicate 16 "000"%byte)))))) zero_key (replicate 16 "001"%byte)
           "a/.env-encrypted" "a/.env" zero_block_world).
  - discriminate.
  - vm_compute. discriminate.
  - reflexivity.
  - reflexivity.
  - reflexivity.
  - apply not_elem_of_empty.
  - reflexivity.
  - reflexivity.
  - apply not_elem_of_empty.
Defined.

(** Paddings that [pkcs7Unpad] accepts although they are not of the
    prescribed form: a last byte of 0, a last byte of 32 on 32 bytes, and
    a last byte of 3 after bytes that are not 3. *)
Example pkcs7Unpad_accepts_zero :
  pkcs7_wellformed (replicate 16 "000"%byte) = false /\
  pkcs7Unpad (replicate 16 "000"%byte) = Ok (replicate 16 "000"%byte).
Proof. split; reflexivity. Qed.

Example pkcs7Unpad_accepts_two_blocks :
  pkcs7_wellformed (replicate 32 " "%byte) = false /\
  pkcs7Unpad (replicate 32 " "%byte) = Ok [].
Proof. split; reflexivity. Qed.

Example pkcs7Unpad_accepts_mixed :
  pkcs7_wellformed (String.list_byte_of_string "0123456789abc"
                    ++ ["001"; "002"; "003"]%byte) = false /\
  pkcs7Unpad (String.list_byte_of_string "0123456789abc"
              ++ ["001"; "002"; "003"]%byte)
  = Ok (String.list_byte_of_string "0123456789abc").
Proof. split; reflexivity. Qed.

(** The isolation scenario: of three files to decrypt, one well-formed,
    one cut short and one unreadable, the batch reports the two
    failures and writes the plaintext of the well-formed one. *)
Example isolation_scenario :
  exists w',
    processDotenvFiles toy_encrypt toy_decrypt isolation_schedule
      isolation_paths false zero_key isolation_world = Some (Ok tt, w') /\
    log w' = [ log_Error (fs_PathError "open" "deny/.env-encrypted");
               log_Error io_ErrUnexpectedEOF ] /\
    files w' !! "ok/.env" = Some (String.list_byte_of_string "TOKEN=abc") /\
    files w' !! "cut/.env" = None /\ files w' !! "deny/.env" = None.
Proof. eexists. split; [vm_compute; reflexivity|]. repeat split. Qed.


(** The round trip on the two edge cases: an empty plaintext, whose
    envelope has the IV and one block, and a plaintext of 16 bytes, whose
    envelope has the IV and two blocks. *)
Example roundtrip_empty :
  let w := set_files {[ "e/.env" := [] ]} scenario_world in
  let w1 := (encryptFile toy_encrypt toy_decrypt "e/.env" zero_key w).2 in
  let w2 := set_files (delete "e/.env" (files w1)) w1 in
  (len <$> files w1 !! "e/.env-encrypted") = Some 32 /\
  (decryptFile toy_encrypt toy_decrypt "e/.env-encrypted" zero_key w2).1
  = Ok tt /\
  files (decryptFile toy_encrypt toy_decrypt "e/.env-encrypted" zero_key w2).2
    !! "e/.env" = Some [].
Proof. vm_compute. repeat split. Qed.

Example roundtrip_full_block :
  let w1 :=
    (encryptFile toy_encrypt toy_decrypt "a/b/.env" zero_key scenario_world).2 in
  let w2 := set_files (delete "a/b/.env" (files w1)) w1 in
  (len <$> files w1 !! "a/b/.env-encrypted") = Some 48 /\
  (decryptFile toy_encrypt toy_decrypt "a/b/.env-encrypted" zero_key w2).1
  = Ok tt /\
  files (decryptFile toy_encrypt toy_decrypt "a/b/.env-encrypted" zero_key w2).2
    !! "a/b/.env" = Some (String.list_byte_of_string "0123456789abcdef").
Proof. vm_compute. repeat split. Qed.

(** ** The further properties on examples *)

(** X1 on the empty data and a block size of 256: the 256 bytes of
    padding are zero bytes, and [pkcs7Unpad] does not remove them; and
    on a block size of [2 ^ 62]. *)
Lemma pkcs7Pad_any_block_size_witness :
  (exists padLen padded,
      1 <= padLen <= 256 /\
      pkcs7Pad [] 256 = Ok padded /\
      padded = [] ++ replicate (Z.to_nat padLen) (byte_of_int padLen) /\
      Z.rem (len padded) 256 = 0 /\
      pkcs7Unpad padded
      = Ok (take (Z.to_nat (len padded - padLen mod 256)) padded) /\
      (pkcs7Unpad padded = Ok [] <-> padLen <= 255) /\
      (256 <= 255 -> pkcs7Unpad padded = Ok [])) /\
  (exists msg, pkcs7Pad [] (2 ^ 62) = Panic msg).
Proof.
  split.
  - apply (pkcs7Pad_any_block_size [] 256). lia.
  - apply (pkcs7Pad_any_block_size [] (2 ^ 62)). vm_compute. split; reflexivity.
Defined.

Example pkcs7Pad_block_size_256 :
  pkcs7Pad [] 256 = Ok (replicate 256 "000"%byte) /\
  pkcs7Unpad (replicate 256 "000"%byte) = Ok (replicate 256 "000"%byte).
Proof. split; reflexivity. Qed.

(** X2 on a block size of 0 and on one of -16. *)
Lemma pkcs7Pad_nonpositive_block_size_witness :
  (exists msg, pkcs7Pad (String.list_byte_of_string "TOKEN=abc") 0 = Panic msg) /\
  (exists msg, pkcs7Pad (String.list_byte_of_string "TOKEN=abc") (-16)
               = Panic msg).
Proof.
  split.
  - apply (pkcs7Pad_nonpositive_block_size
             (String.list_byte_of_string "TOKEN=abc") 0). lia.
  - apply (pkcs7Pad_nonpositive_block_size
             (String.list_byte_of_string "TOKEN=abc") (-16)). lia.
Defined.

(** X4 on [a/b/.env] of the scenario world, whose encrypted file is
    new in its directory. *)
Lemma encryptFile_keeps_input_witness :
  let w := scenario_world in
  let w' := (encryptFile toy_encrypt toy_decrypt "a/b/.env" zero_key w).2 in
  let output := "a/b/.env" +:+ SuffixEncrypted in
  files w' !! "a/b/.env" = files w !! "a/b/.env" /\
  (forall q, q <> output -> files w' !! q = files w !! q) /\
  is_Some (files w' !! output) /\
  entropy w' = drop 16 (entropy w) /\
  unreadable w' = unreadable w /\ unwritable w' = unwritable w /\
  write_faults w' = write_faults w /\
  dirs w' = create_entry output (dirs w) /\
  (forall d, d <> path_dir output -> dirs w' !! d = dirs w !! d) /\
  (forall entries,
      dirs w !! path_dir output = Some entries ->
      exists entries',
        dirs w' !! path_dir output = Some entries' /\
        (has_entry (path_base output) entries = true -> entries' = entries) /\
        forall e, e ∈ entries' <->
                  e ∈ entries \/
                  (has_entry (path_base output) entries = false /\
                   e = {| Name := path_base output; Type_ := ModeRegular |})) /\
  stdin w' = stdin w /\ log w' = log w.
Proof.
  apply (encryptFile_keeps_input toy_encrypt toy_decrypt "a/b/.env" zero_key
           scenario_world).
  vm_compute. reflexivity.
Defined.

(** The listing of [a/b] after that call, and the listing of [a], which
    had the name already, after the encryption of [a/.env]. *)
Example encryptFile_creates_entry :
  dirs (encryptFile toy_encrypt toy_decrypt "a/b/.env" zero_key
          scenario_world).2 !! "a/b"
  = Some [ {| Name := ".env"; Type_ := ModeRegular |};
           {| Name := ".env-encrypted"; Type_ := ModeRegular |} ] /\
  dirs (encryptFile toy_encrypt toy_decrypt "a/.env" zero_key
          scenario_world).2 !! "a"
  = dirs scenario_world !! "a".
Proof. split; vm_compute; reflexivity. Qed.

(** A write that fails after 20 bytes leaves them in the output file,
    which is created. *)
Example encryptFile_short_write :
  let r := encryptFile toy_encrypt toy_decrypt "b/.env" zero_key
             short_write_world in
  r.1 = Err (fs_PathError "write" "b/.env-encrypted") /\
  (len <$> files r.2 !! "b/.env-encrypted") = Some 20 /\
  dirs r.2 !! "b"
  = Some [ {| Name := ".env"; Type_ := ModeRegular |};
           {| Name := ".env-encrypted"; Type_ := ModeRegular |} ].
Proof. vm_compute. repeat split. Qed.

(** X7 on [a/.env] of the scenario world, encrypted with the first and
    with the second sixteen of its random bytes. *)
Lemma encryptFile_iv_changes_ciphertext_witness :
  let w1 := scenario_world in
  let w2 := set_entropy (drop 16 (entropy scenario_world)) scenario_world in
  let w1' := (encryptFile toy_encrypt toy_decrypt "a/.env" zero_key w1).2 in
  let w2' := (encryptFile toy_encrypt toy_decrypt "a/.env" zero_key w2).2 in
  exists iv1 c1 iv2 c2,
    files w1' !! ("a/.env" +:+ SuffixEncrypted) = Some (iv1 ++ c1) /\
    files w2' !! ("a/.env" +:+ SuffixEncrypted) = Some (iv2 ++ c2) /\
    length iv1 = 16%nat /\ length iv2 = 16%nat /\
    iv1 <> iv2 /\ take 16 c1 <> take 16 c2.
Proof.
  apply (encryptFile_iv_changes_ciphertext toy_encrypt toy_decrypt
           toy_encrypt_length toy_decrypt_encrypt "a/.env" zero_key
           (String.list_byte_of_string "TOKEN=abc")
           scenario_world
           (set_entropy (drop 16 (entropy scenario_world)) scenario_world)).
  - reflexivity.
  - reflexivity.
  - vm_compute. reflexivity.
  - vm_compute. reflexivity.
  - vm_compute. discriminate.
Defined.

(** X9 on [a/b/.env], found by the scan of the scenario world. *)
Lemma getDotenvPaths_path_form_witness :
  exists sub,
    "a/b/.env" = "a" +:+ sub +:+ "/" +:+ ".env" /\
    (true = true -> "a/b/.env" +:+ SuffixEncrypted
                    = "a" +:+ sub +:+ "/.env-encrypted") /\
    (true = false ->
     string_slice_to "a/b/.env"
       (Z.of_nat (String.length "a/b/.env")
        - Z.of_nat (String.length SuffixEncrypted))
     = Ok ("a" +:+ sub +:+ "/.env")).
Proof.
  apply (getDotenvPaths_path_form 3 "a" true scenario_world
           (add_log (log_Paths ["a/.env"; "a/b/.env"]) scenario_world)
           ["a/.env"; "a/b/.env"] "a/b/.env").
  - vm_compute. reflexivity.
  - apply list_elem_of_further, list_elem_of_here.
Defined.

(** A run of [main] over the scenario world, encrypting: the second
    goroutine makes its call before the first. *)
Example main_scenario :
  exists w',
    main toy_encrypt toy_decrypt toy_Key 3
         [0; 0; 0; 2; 1; 1; 1; 2; 2; 0; 0; 0; 0; 0]%nat true "a" scenario_world
    = Some (Ok tt, w') /\
    log w' = [ log_Prompt; log_Key (deriveKey toy_Key "hunter2");
               log_Paths ["a/.env"; "a/b/.env"]; log_Done ] /\
    (len <$> files w' !! "a/.env-encrypted") = Some 32 /\
    (len <$> files w' !! "a/b/.env-encrypted") = Some 48 /\
    entropy w' = [].
Proof. eexists. split; [vm_compute; reflexivity|]. repeat split. Qed.

(** X11 on that run. *)
Lemma main_logs_key_witness :
  exists r w' more,
    main toy_encrypt toy_decrypt toy_Key 3
         [0; 0; 0; 2; 1; 1; 1; 2; 2; 0; 0; 0; 0; 0]%nat true "a" scenario_world
    = Some (r, w') /\
    log w' = log scenario_world
             ++ log_Prompt :: log_Key (deriveKey toy_Key "hunter2") :: more.
Proof.
  assert (exists w',
             main toy_encrypt toy_decrypt toy_Key 3
                  [0; 0; 0; 2; 1; 1; 1; 2; 2; 0; 0; 0; 0; 0]%nat true "a"
                  scenario_world = Some (Ok tt, w')) as [w' Hrun]
    by (eexists; vm_compute; reflexivity).
  destruct (main_logs_key toy_encrypt toy_decrypt toy_Key 3
              [0; 0; 0; 2; 1; 1; 1; 2; 2; 0; 0; 0; 0; 0]%nat true "a" "hunter2"
              scenario_world w' (Ok tt) eq_refl Hrun) as [more Hlog].
  exists (Ok tt), w', more. split; [exact Hrun | exact Hlog].
Defined.

(** X12 on the isolation scenario. *)
Lemma processDotenvFiles_decrypt_any_schedule_witness :
  exists r w',
    processDotenvFiles toy_encrypt toy_decrypt isolation_schedule
      isolation_paths false zero_key isolation_world = Some (r, w') /\
    r = Ok tt /\
    (forall p, p ∈ isolation_paths ->
               files w' !! decrypted_path p =
               files (decryptFile toy_encrypt toy_decrypt p zero_key
                        isolation_world).2 !! decrypted_path p) /\
    (forall q, (forall p, p ∈ isolation_paths -> decrypted_path p <> q) ->
               files w' !! q = files isolation_world !! q) /\
    (exists errs,
        log w' = log isolation_world ++ (log_Error <$> errs) /\
        errs ≡ₚ omap (fun p => error_of (decryptFile toy_encrypt toy_decrypt p
                                           zero_key isolation_world).1)
                     isolation_paths) /\
    unreadable w' = unreadable isolation_world /\
    unwritable w' = unwritable isolation_world /\
    write_faults w' = write_faults isolation_world /\
    dirs w' = foldr (dirs_after (fun p => decryptFile toy_encrypt toy_decrypt
                                            p zero_key)
                       isolation_world)
                    (dirs isolation_world) isolation_paths /\
    (forall d, (forall p, p ∈ isolation_paths ->
                          path_dir (decrypted_path p) <> d) ->
               dirs w' !! d = dirs isolation_world !! d) /\
    entropy w' = entropy isolation_world /\
    stdin w' = stdin isolation_world.
Proof.
  assert (exists w',
             processDotenvFiles toy_encrypt toy_decrypt isolation_schedule
               isolation_paths false zero_key isolation_world
             = Some (Ok tt, w')) as [w' Hrun]
    by (eexists; vm_compute; reflexivity).
  exists (Ok tt), w'. split; [exact Hrun|].
  apply (processDotenvFiles_decrypt_any_schedule toy_encrypt toy_decrypt
           isolation_schedule isolation_paths zero_key isolation_world w'
           (Ok tt)).
  - clear Hrun. repeat constructor.
  - clear Hrun. intros p q Hp Hq.
    repeat (apply elem_of_cons in Hp as [->|Hp]);
      [..|by apply not_elem_of_nil in Hp];
      (repeat (apply elem_of_cons in Hq as [->|Hq]);
       [..|by apply not_elem_of_nil in Hq]);
      intros Heq; vm_compute in Heq; (reflexivity || discriminate Heq).
  - clear Hrun. intros p q Hp Hq.
    repeat (apply elem_of_cons in Hp as [->|Hp]);
      [..|by apply not_elem_of_nil in Hp];
      (repeat (apply elem_of_cons in Hq as [->|Hq]);
       [..|by apply not_elem_of_nil in Hq]);
      intros Heq; vm_compute in Heq; discriminate Heq.
  - exact Hrun.
Defined.

(** The batch of the isolation scenario along another schedule, in
    which the goroutines make their calls in the opposite order: the
    files are the same, the two errors are logged in the other order. *)
Example isolation_scenario_other_schedule :
  exists w',
    processDotenvFiles toy_encrypt toy_decrypt
      [0; 0; 0; 0; 3; 2; 1; 3; 3; 2; 2; 1; 1; 0; 0; 0; 0; 0; 0]%nat
      isolation_paths false zero_key isolation_world = Some (Ok tt, w') /\
    log w' = [ log_Error (fs_PathError "open" "deny/.env-encrypted");
               log_Error io_ErrUnexpectedEOF ] /\
    files w' !! "ok/.env" = Some (String.list_byte_of_string "TOKEN=abc") /\
    files w' !! "cut/.env" = None /\ files w' !! "deny/.env" = None.
Proof. eexists. split; [vm_compute; reflexivity|]. repeat split. Qed.

(** X13 on the two [.env] files of a world in which the write of the
    second output fails after 20 bytes. *)
Lemma processDotenvFiles_encrypt_any_schedule_witness :
  let filePaths := ["a/.env"; "b/.env"] in
  let w := short_write_world in
  exists r w',
    processDotenvFiles toy_encrypt toy_decrypt
      [0; 0; 0; 2; 1; 1; 1; 2; 2; 0; 0; 0; 0; 0]%nat filePaths true zero_key w
    = Some (r, w') /\
    r = Ok tt /\
    exists (m : nat) (chunk : string -> nat),
      (m <= length filePaths)%nat /\
      entropy w' = drop (16 * m) (entropy w) /\
      (forall p, p ∈ filePaths ->
                 files w' !! (p +:+ SuffixEncrypted) =
                 files (encryptFile toy_encrypt toy_decrypt p zero_key
                          (at_chunk (chunk p) w)).2
                   !! (p +:+ SuffixEncrypted)) /\
      (forall p, p ∈ filePaths -> reads_random zero_key w p ->
                 (chunk p < m)%nat) /\
      (forall p q, p ∈ filePaths -> q ∈ filePaths ->
                   reads_random zero_key w p -> reads_random zero_key w q ->
                   chunk p = chunk q -> p = q) /\
      (forall p, p ∈ filePaths ->
                 (encryptFile toy_encrypt toy_decrypt p zero_key w).1 = Ok tt ->
                 exists plaintext,
                   files w !! p = Some plaintext /\ (chunk p < m)%nat /\
                   files w' !! (p +:+ SuffixEncrypted) =
                   Some (iv_chunk (chunk p) w
                         ++ ciphertext_of toy_encrypt toy_decrypt zero_key
                              (iv_chunk (chunk p) w) plaintext)) /\
      (forall p op n plaintext,
          p ∈ filePaths ->
          write_faults w !! (p +:+ SuffixEncrypted)
          = Some (fault_after op n) ->
          (p ∉ unreadable w) -> files w !! p = Some plaintext ->
          aes_key_ok zero_key = true ->
          files w' !! (p +:+ SuffixEncrypted) =
          Some (take n (iv_chunk (chunk p) w
                        ++ ciphertext_of toy_encrypt toy_decrypt zero_key
                             (iv_chunk (chunk p) w) plaintext))) /\
      (forall p, p ∈ filePaths ->
                 (encryptFile toy_encrypt toy_decrypt p zero_key w).1 <> Ok tt ->
                 (forall op n, write_faults w !! (p +:+ SuffixEncrypted)
                               <> Some (fault_after op n)) ->
                 files w' !! (p +:+ SuffixEncrypted) =
                 files w !! (p +:+ SuffixEncrypted)) /\
      (forall q, (forall p, p ∈ filePaths -> p +:+ SuffixEncrypted <> q) ->
                 files w' !! q = files w !! q) /\
      (exists errs,
          log w' = log w ++ (log_Error <$> errs) /\
          errs ≡ₚ omap (fun p => error_of (encryptFile toy_encrypt toy_decrypt
                                             p zero_key w).1) filePaths) /\
      unreadable w' = unreadable w /\ unwritable w' = unwritable w /\
      write_faults w' = write_faults w /\
      dirs w' = foldr (dirs_after (fun p => encryptFile toy_encrypt toy_decrypt
                                              p zero_key) w)
                      (dirs w) filePaths /\
      (forall d, (forall p, p ∈ filePaths ->
                            path_dir (p +:+ SuffixEncrypted) <> d) ->
                 dirs w' !! d = dirs w !! d) /\
      stdin w' = stdin w.
Proof.
  cbv zeta.
  assert (exists w',
             processDotenvFiles toy_encrypt toy_decrypt
               [0; 0; 0; 2; 1; 1; 1; 2; 2; 0; 0; 0; 0; 0]%nat
               ["a/.env"; "b/.env"] true zero_key short_write_world
             = Some (Ok tt, w')) as [w' Hrun]
    by (eexists; vm_compute; reflexivity).
  exists (Ok tt), w'. split; [exact Hrun|].
  apply (processDotenvFiles_encrypt_any_schedule toy_encrypt toy_decrypt
           [0; 0; 0; 2; 1; 1; 1; 2; 2; 0; 0; 0; 0; 0]%nat
           ["a/.env"; "b/.env"] zero_key short_write_world w' (Ok tt)).
  - clear Hrun. apply NoDup_cons. split.
    + intros Hin. apply list_elem_of_singleton in Hin. discriminate Hin.
    + apply NoDup_singleton.
  - clear Hrun. intros p q Hp Hq.
    repeat (apply elem_of_cons in Hp as [->|Hp]);
      [..|by apply not_elem_of_nil in Hp];
      (repeat (apply elem_of_cons in Hq as [->|Hq]);
       [..|by apply not_elem_of_nil in Hq]);
      intros Heq; vm_compute in Heq; discriminate Heq.
  - clear Hrun. vm_compute. lia.
  - exact Hrun.
Defined.

(** In that run the second goroutine makes its call first: [b/.env]
    gets the first sixteen random bytes and its output the first 20
    bytes of the envelope, [a/.env] gets the second sixteen; the error
    of the write is logged, and both outputs are listed. *)
Example encrypt_short_write_batch :
  exists w',
    processDotenvFiles toy_encrypt toy_decrypt
      [0; 0; 0; 2; 1; 1; 1; 2; 2; 0; 0; 0; 0; 0]%nat ["a/.env"; "b/.env"]
      true zero_key short_write_world = Some (Ok tt, w') /\
    log w' = [ log_Error (fs_PathError "write" "b/.env-encrypted") ] /\
    (take 16 <$> files w' !! "b/.env-encrypted")
    = Some (iv_chunk 0 short_write_world) /\
    (len <$> files w' !! "b/.env-encrypted") = Some 20 /\
    (take 16 <$> files w' !! "a/.env-encrypted")
    = Some (iv_chunk 1 short_write_world) /\
    (len <$> files w' !! "a/.env-encrypted") = Some 32 /\
    dirs w' !! "a"
    = Some [ {| Name := ".env"; Type_ := ModeRegular |};
             {| Name := ".env-encrypted"; Type_ := ModeRegular |} ] /\
    dirs w' !! "b"
    = Some [ {| Name := ".env"; Type_ := ModeRegular |};
             {| Name := ".env-encrypted"; Type_ := ModeRegular |} ].
Proof. eexists. split; [vm_compute; reflexivity|]. repeat split. Qed.

(** In that run the file [a/b/.env] has got the first sixteen random
    bytes and [a/.env] the second sixteen. *)
Example encrypt_scenario_chunks :
  exists w',
    processDotenvFiles toy_encrypt toy_decrypt
      [0; 0; 0; 2; 1; 1; 1; 2; 2; 0; 0; 0; 0; 0]%nat ["a/.env"; "a/b/.env"]
      true zero_key scenario_world = Some (Ok tt, w') /\
    (take 16 <$> files w' !! "a/b/.env-encrypted")
    = Some (iv_chunk 0 scenario_world) /\
    (take 16 <$> files w' !! "a/.env-encrypted")
    = Some (iv_chunk 1 scenario_world).
Proof. eexists. split; [vm_compute; reflexivity|]. split; reflexivity. Qed.

(** X14 on the two [.env] files of the scenario world: they are
    encrypted in a batch, deleted, and decrypted in a batch. *)
Lemma processDotenvFiles_roundtrip_witness :
  let filePaths := ["a/.env"; "a/b/.env"] in
  exists w1 w2,
    processDotenvFiles toy_encrypt toy_decrypt
      [0; 0; 0; 2; 1; 1; 1; 2; 2; 0; 0; 0; 0; 0]%nat filePaths true zero_key
      scenario_world = Some (Ok tt, w1) /\
    processDotenvFiles toy_encrypt toy_decrypt
      [0; 0; 0; 1; 2; 1; 2; 1; 2; 0; 0; 0; 0; 0]%nat
      ((fun p => p +:+ SuffixEncrypted) <$> filePaths) false zero_key
      (set_files (delete "a/.env" (delete "a/b/.env" (files w1))) w1)
    = Some (Ok tt, w2) /\
    (forall p, p ∈ filePaths -> files w2 !! p = files scenario_world !! p) /\
    log w2 = log scenario_world.
Proof.
  cbv zeta.
  assert (exists w1 w2,
             processDotenvFiles toy_encrypt toy_decrypt
               [0; 0; 0; 2; 1; 1; 1; 2; 2; 0; 0; 0; 0; 0]%nat
               ["a/.env"; "a/b/.env"] true zero_key scenario_world
             = Some (Ok tt, w1) /\
             processDotenvFiles toy_encrypt toy_decrypt
               [0; 0; 0; 1; 2; 1; 2; 1; 2; 0; 0; 0; 0; 0]%nat
               ((fun p => p +:+ SuffixEncrypted) <$> ["a/.env"; "a/b/.env"])
               false zero_key
               (set_files (delete "a/.env" (delete "a/b/.env" (files w1))) w1)
             = Some (Ok tt, w2)) as (w1 & w2 & Hrun1 & Hrun2)
    by (eexists _, _; split; vm_compute; reflexivity).
  exists w1, w2. split; [exact Hrun1|]. split; [exact Hrun2|].
  assert (Hboth : Ok tt = Ok tt /\ Ok tt = Ok tt /\
                  (forall p, p ∈ ["a/.env"; "a/b/.env"] ->
                             files w2 !! p = files scenario_world !! p) /\
                  log w2 = log scenario_world); [|apply Hboth].
  apply (processDotenvFiles_roundtrip toy_encrypt toy_decrypt
           toy_encrypt_length toy_decrypt_encrypt
           [0; 0; 0; 2; 1; 1; 1; 2; 2; 0; 0; 0; 0; 0]%nat
           [0; 0; 0; 1; 2; 1; 2; 1; 2; 0; 0; 0; 0; 0]%nat
           ["a/.env"; "a/b/.env"] zero_key scenario_world w1 w2 (Ok tt) (Ok tt)
           (delete "a/.env" (delete "a/b/.env" (files w1)))).
  - clear Hrun1 Hrun2. apply NoDup_cons. split.
    + intros Hin. apply list_elem_of_singleton in Hin. discriminate Hin.
    + apply NoDup_singleton.
  - clear Hrun1 Hrun2. intros p q Hp Hq.
    repeat (apply elem_of_cons in Hp as [->|Hp]);
      [..|by apply not_elem_of_nil in Hp];
      (repeat (apply elem_of_cons in Hq as [->|Hq]);
       [..|by apply not_elem_of_nil in Hq]);
      intros Heq; vm_compute in Heq; discriminate Heq.
  - clear Hrun1 Hrun2. vm_compute. lia.
  - reflexivity.
  - clear Hrun1 Hrun2. intros p Hp.
    repeat (apply elem_of_cons in Hp as [->|Hp]);
      [..|by apply not_elem_of_nil in Hp];
      (split; [eexists; reflexivity|]); repeat split;
      first [apply not_elem_of_empty | apply unwritable_spec; reflexivity].
  - exact Hrun1.
  - clear Hrun1 Hrun2. intros p Hp.
    repeat (apply elem_of_cons in Hp as [->|Hp]);
      [..|by apply not_elem_of_nil in Hp];
      rewrite !lookup_delete_ne; (reflexivity || discriminate).
  - exact Hrun2.
Defined.

(** Two runs of [main] that decrypt the tree [r], along two schedules:
    the files are the same, the two errors are logged in the one order
    and in the other. *)
Example main_decrypt_two_schedules :
  exists w1 w2,
    main toy_encrypt toy_decrypt toy_Key 3
         [0; 1; 0; 2; 0; 0; 3; 1; 3; 2; 2; 1; 3; 0; 0; 0; 0; 0; 0]%nat
         false "r" decrypt_tree_world = Some (Ok tt, w1) /\
    main toy_encrypt toy_decrypt toy_Key 5
         [0; 0; 0; 0; 3; 2; 1; 2; 2; 3; 3; 1; 1; 0; 0; 0; 0; 0; 0]%nat
         false "r" decrypt_tree_world = Some (Ok tt, w2) /\
    files w1 !! "r/.env" = Some (String.list_byte_of_string "TOKEN=abc") /\
    files w2 !! "r/.env" = Some (String.list_byte_of_string "TOKEN=abc") /\
    log w1 = [ log_Prompt; log_Key hunter2_key;
               log_Paths [ "r/.env-encrypted"; "r/t/.env-encrypted";
                           "r/s/.env-encrypted" ];
               log_Error io_ErrUnexpectedEOF;
               log_Error (fs_PathError "open" "r/t/.env-encrypted");
               log_Done ] /\
    log w2 = [ log_Prompt; log_Key hunter2_key;
               log_Paths [ "r/.env-encrypted"; "r/t/.env-encrypted";
                           "r/s/.env-encrypted" ];
               log_Error (fs_PathError "open" "r/t/.env-encrypted");
               log_Error io_ErrUnexpectedEOF;
               log_Done ].
Proof.
  eexists _, _. split; [vm_compute; reflexivity|].
  split; [vm_compute; reflexivity|]. repeat split.
Qed.

(** X15 on those two runs. *)
Lemma main_decrypt_any_schedule_witness :
  exists w1 w2,
    main toy_encrypt toy_decrypt toy_Key 3
         [0; 1; 0; 2; 0; 0; 3; 1; 3; 2; 2; 1; 3; 0; 0; 0; 0; 0; 0]%nat
         false "r" decrypt_tree_world = Some (Ok tt, w1) /\
    main toy_encrypt toy_decrypt toy_Key 5
         [0; 0; 0; 0; 3; 2; 1; 2; 2; 3; 3; 1; 1; 0; 0; 0; 0; 0; 0]%nat
         false "r" decrypt_tree_world = Some (Ok tt, w2) /\
    Ok tt = Ok tt /\ files w1 = files w2 /\ log w1 ≡ₚ log w2 /\
    unreadable w1 = unreadable w2 /\ unwritable w1 = unwritable w2 /\
    dirs w1 = dirs w2 /\ entropy w1 = entropy w2 /\ stdin w1 = stdin w2.
Proof.
  assert (exists w1 w2,
             main toy_encrypt toy_decrypt toy_Key 3
                  [0; 1; 0; 2; 0; 0; 3; 1; 3; 2; 2; 1; 3; 0; 0; 0; 0; 0; 0]%nat
                  false "r" decrypt_tree_world = Some (Ok tt, w1) /\
             main toy_encrypt toy_decrypt toy_Key 5
                  [0; 0; 0; 0; 3; 2; 1; 2; 2; 3; 3; 1; 1; 0; 0; 0; 0; 0; 0]%nat
                  false "r" decrypt_tree_world = Some (Ok tt, w2))
    as (w1 & w2 & Hrun1 & Hrun2)
    by (eexists _, _; split; vm_compute; reflexivity).
  exists w1, w2. split; [exact Hrun1|]. split; [exact Hrun2|].
  exact (main_decrypt_any_schedule toy_encrypt toy_decrypt toy_Key 3 5
           [0; 1; 0; 2; 0; 0; 3; 1; 3; 2; 2; 1; 3; 0; 0; 0; 0; 0; 0]%nat
           [0; 0; 0; 0; 3; 2; 1; 2; 2; 3; 3; 1; 1; 0; 0; 0; 0; 0; 0]%nat
           "r" decrypt_tree_world w1 w2 (Ok tt) (Ok tt) Hrun1 Hrun2).
Defined.
